(* ===== verification/_CoqProject ===== *)
-Q . S2P
Prelude.v
HitFilter.v
OverlapEdges.v
Graph.v
GroupKey.v
Contraction.v
Quotient.v
Pipeline.v
Cli.v
Display.v
Viewer.v
Consistency.v
Panels.v
Plot.v
App.v
