(* ===== verification/Prelude.v ===== *)
(** * BLASTGraph: a verification development of the graph-construction core

    The program turns a table of BLAST hits into a similarity graph.
    src/blastgraph.py ([main]) runs BLAST and then calls [blast_to_graph]
    (src/src/blast_to_graph.py), which rebuilds a pickle of two pandas
    tables, nodes and edges, unless one exists; the Dash viewer
    (src/app.py) displays them, condensing names with [collapse_names]
    (src/src/plot_graph.py).  [_blast_to_graph] is one batch function
    whose stages pass pandas frames and an igraph graph forward:

    - HitFilter (lines 20-35): read at most 500 rows, keep the best
      bitscore per (node, edge) pair, divide it by the top score of its
      "qacc" group and keep the ratios >= 0.9.
    - OverlapEdgeBuilder (lines 38-93): for every pair of nodes i < j,
      one row per edge name both kept, weighted by the mean of the two
      ratios; per-node row counters; nodes without rows are dropped; the
      rows of one pair are summed; nodes are renamed by index.
    - GraphAssembler (lines 98-118): the igraph graph (weight-1 vertices,
      merged edges), its weak components and induced subgraphs.
    - ComponentProcessor (lines 112-213): per component, tag it, lay it
      out and cluster it (two delegated igraph services), key every
      vertex by its community and self-inclusive neighbour list, contract
      each key into its least index, merge parallel edges, append rows.

    Files, in dependency order (verification/_CoqProject), each one
    Module of the same name:
    - [Prelude] (this file): scope [bg_scope], hint database [bg], the
      key-order class [KeyOrder] with instances on nat, string and pairs,
      [sort_unique] (a pandas groupby's sorted keys), the error type
      [py_error] and the monad [result] (Python exceptions), the loop
      combinator [fold_result], [py_index] ([list.index]), sums [qsum],
      and lemmas on sorted lists, filters and partitions of a list.
    - [HitFilter]: lines 20-35 as [filter_hits].
    - [OverlapEdges]: lines 38-93; the double loop [find_edges] with its
      state record [loop_state], the reference rows [overlap_rows], the
      merge and renaming in [build_overlap].
    - [Graph]: lines 98-118 and the igraph primitives they call:
      [assemble], [neighbors], [connected_components] (a breadth-first
      [closure] with fuel), [subgraph].
    - [GroupKey]: line 152, the string key [group_name].
    - [Contraction]: lines 132-179: [insert_self], [group_nodes] on the
      insertion-ordered dict [dict_append], [membership],
      [contract_vertices], [simplify], and [contract_component].
    - [Quotient]: the contracted component has no two equivalent
      vertices (the twin argument on [simplify (contract_vertices g m)]).
    - [Pipeline]: lines 20-213 end to end: the class [Services] (layout
      and communities), [prepare], [component_tables], [process_graph],
      [blast_to_graph_tables].
    - [Cli]: [main] of src/blastgraph.py (lines 18-40) as a list of
      actions, and the cached [blast_to_graph] (lines 7-17).
    - [Display]: [collapse_names] of src/src/plot_graph.py (lines 11-31).
    - [Viewer]: the Dash callbacks of src/app.py that keep the viewer's
      state: [num_subgraphs] (line 15), the group navigation
      [choose_subgraph] (lines 338-354) as a step on the record [nav]
      with its reachable states [nav_reachable], and [update_graph_data]
      (lines 149-243), which reads the pickled tables of [Pipeline] and
      stores the clicked vertex and its neighbour list.
    - [Panels]: the callbacks of src/app.py that redraw from that store:
      [update_figure], [update_edge_table] (with ["{:10.3f}".format] and
      the stable descending sort written out) and
      [update_clicked_node_info] (lines 250-335).
    - [Consistency]: the viewer on the tables the pipeline writes: the
      tables are one block per component, node ids are distinct within a
      group and both ends of a group's edge are rows of the group.
    - [Plot]: [plot_subgraph] of src/src/plot_graph.py (lines 36-101),
      the figure a new plot of [update_figure] draws: weight bins by
      [np.linspace] and [np.digitize] ([linspace], [digitize],
      [edge_bin]), one line trace per occupied bin ([bin_trace], with the
      [iloc[0,:]] lookup of both ends in [edge_endpoints]) and the node
      trace ([make_node_trace]).
    - [App]: the Dash app of src/app.py as a whole.  The record [app]
      holds the page's component properties, [app_init] is the start page
      of the layout (lines 11-45), and [event] lists the user's actions.
      [app_step] runs the callbacks an event sets off, in Dash's order:
      [choose_subgraph], then [update_graph_data] ([on_graph_inputs]),
      then the three readers of the store ([on_store], one definition per
      callback decorator: [run_update_figure], [run_update_edge_table],
      [run_update_clicked_node_info]).  It returns the new page and the
      exceptions raised.  [app_reachable] holds the pages
      of every session.

    What the theorems show (claim ids C<n> of PROJECT.json):
    - C1 and C3-C6, filtering: which pairs survive and with which ratio,
      ratio bounds, a query with a negative top score, all of whose pairs
      are kept, output keys strictly increasing (no duplicate pair), and
      the exact error cases.  The 500-row cap is a plain theorem
      ([filter_hits_row_cap]).
    - C7-C11, overlap edges: the loop refines the reference rows
      whichever list drives it; the rows the loop emits are exactly the
      pairs a < b sharing an edge name, weighted by the mean ratio (C8);
      per-node counters, kept names, merged weights.
    - C2, C12, C17, C31 and C38, the whole app (App).  C17 is
      the invariant of every reachable page: the span shows an existing
      group, the figure is that group's plot, and the store names that
      group.  C12 gives the exact exceptions of an event: one IndexError
      for a figure event whose point is beyond the group's rows (a point
      of an edge trace, see the finding on [get_point_index]), and none
      otherwise.  C31 is a refinement by lock-step simulation: over
      any session, the span and point data follow the abstract step
      [nav_event] (a press is Viewer's [choose_subgraph_step], a click or
      hover sets its own point data, a table cell changes nothing).  C38 is liveness: from every reachable
      page each group is shown after pressing one button often enough,
      and no press raises.
      C2 is a round trip: a row of the neighbour table names a stored
      neighbour, and clicking it selects that neighbour at its figure
      point.  It rests on [page_ok]: the store was computed for the
      shown span, and the table from the store.
    - C13-C16, graph: component search with enough fuel, components
      partition the vertices and are closed under edges, the assembled
      graph is well formed.
    - C18-C27, contraction: the key is injective, self-insertion is
      sorted insertion, exceptions exactly on isolated vertices, the
      group dict, least representatives and equivalence groups,
      conservation of vertex weight and of non-loop edge weight, and
      placeholder vertices that contraction can leave.  C25 sits in this
      range but is about the viewer: its three store readers never raise
      (Panels).  That simplify
      leaves simple edges is a plain theorem ([simplify_simple]).
    - C28-C30, pipeline: only the filter raises, end-to-end mass
      conservation (total node weight = kept sequences), rows carry
      their component index.
    - C32, C34, driver and display: the graph build [main] requests
      never raises, since its columns name the level qacc once; and the
      condensed name list.  That the output prefix strips every
      occurrence of the extension is a plain Example
      ([file_prefix_every_occurrence]).
    - C33, pipeline and viewer composed: on the pipeline's tables the
      stored neighbour list has one entry per edge at the clicked node,
      naming its other end.
    - C35, plot: on a group of the pipeline's tables [plot_subgraph]
      never raises, draws three points per edge and gives every trace the
      width of a bin between 1 and 6.
    - C36, quotient: after contraction no two vertices of a component
      share a community and a self-inclusive neighbour set.
    - C37, pipeline: every component handed to the contraction has no
      loop, no parallel edge and no isolated vertex, which discharges
      the hypotheses of C20, C23 and C36 inside the pipeline.
    - C39-C40, viewer: the stored neighbour list is exactly the group's
      rows at the other ends of the clicked node's edges, and
      [update_graph_data] raises exactly on a table event without a cell
      or a figure event (click or hover) whose stored click index is
      beyond the group's rows.

    Bounds and fuel: [closure] is given [nv g] layers; each layer that
    does not stop adds a vertex below [nv g], so it reaches its fixpoint
    in time (C13).  No other definition uses fuel.

    Modelling choices:
    - Python floats are exact rationals [Q] (the threshold 0.9 is 9/10):
      the theorems are about the algebra the code means, not rounding;
      a NaN of igraph's mean is [None].  ["{:10.3f}".format] rounds the
      exact rational half to even ([Panels.format_10_3]), where Python
      rounds the nearest double.  Thread counts are [Z].
    - Python strings are Stdlib [string]s ordered by [String.compare]
      (code-point order on ASCII); [str.split], [str.replace] and
      [str(int)] are written out ([Cli.py_split], [Cli.py_replace],
      stdpp's [pretty]).
    - A pandas frame is a list of rows; a groupby is [sort_unique] of the
      keys followed by the aggregate of each key; a dict is an
      association list in insertion order.
    - igraph's layout and community detection are the class
      [Pipeline.Services]: the theorems hold for every instance that
      returns one position per vertex and a partition of the vertices.
    - Dash's dispatch is taken as documented (see App.v's header).  A
      callback whose [Input] changes runs; an exception leaves its
      outputs as they were; a group change reaches [update_graph_data]
      with the span as its first triggered prop; the initial call on
      page load is not modelled.

    Not modelled, and why:
    - File and pickle I/O, [to_csv] and [app.run_server] only move data
      in and out of the process.
    - The BLAST run and the shell commands are external programs; they
      appear only as actions of [Cli.main].
    - argparse and [multiprocessing.cpu_count] are library calls; their
      results are inputs of [Cli.main].  This is why the CLI driver is
      only partly modelled.
    - Presentation only: the axis styling of [plot_subgraph] (lines
      104-110), and the styles and labels of the Dash layout.  Only the
      initial values of the components the callbacks use are modelled.
    - The callback call Dash makes on page load depends on the
      framework's dispatch, not on src/, so the sessions start from the
      layout's values. *)

From stdpp Require Export base list sorting strings pretty sets.
From Stdlib Require Export QArith Qminmax Lqa.

(** Numerals are natural numbers unless marked [%Q]. *)
Open Scope Q_scope.
Open Scope nat_scope.

Declare Scope bg_scope.
Delimit Scope bg_scope with bg.
Open Scope bg_scope.

Create HintDb bg discriminated.

(** stdpp's [naive_solver] clears hypotheses it may not have created. *)
#[export] Set Warnings "-clear-no-such-hyp".

(** ** Ordered keys

    Python sorts strings, ints and tuples of them with one total order;
    [KeyOrder] is that interface. *)

Class KeyOrder (A : Type) `{EqDecision A} := {
  key_lt : relation A;
  key_lt_dec :: RelDecision key_lt;
  key_lt_strict :: StrictOrder key_lt;
  key_lt_trichotomy : ∀ x y, key_lt x y ∨ x = y ∨ key_lt y x
}.

Infix "<ₖ" := key_lt (at level 70) : bg_scope.

Definition key_le `{KeyOrder A} (x y : A) : Prop := ¬ key_lt y x.

#[export] Instance key_le_dec `{KeyOrder A} : RelDecision (@key_le A _ _).
Proof. intros x y. unfold key_le. apply _. Defined.

(** [sorted(set(l))]: the distinct elements of [l] in increasing order. *)
Definition sort_unique `{KeyOrder A} (l : list A) : list A :=
  merge_sort key_le (remove_dups l).

Section KeyOrderLemmas.
Context `{KeyOrder A}.

Lemma key_le_total : Total (@key_le A _ _).
Proof.
  intros x y. unfold key_le.
  destruct (key_lt_trichotomy x y) as [Hxy|[->|Hyx]].
  - left. intros Hyx. apply (irreflexivity key_lt x). by transitivity y.
  - left. intros Hc. by apply (irreflexivity key_lt y).
  - right. intros Hxy. apply (irreflexivity key_lt x). by transitivity y.
Qed.

Lemma key_le_trans : Transitive (@key_le A _ _).
Proof.
  intros x y z Hxy Hyz Hzx. unfold key_le in *.
  destruct (key_lt_trichotomy x y) as [Hlt|[->|Hlt]]; [|done|done].
  apply Hyz. by transitivity x.
Qed.

Lemma key_lt_not_eq x y : x <ₖ y → x ≠ y.
Proof. intros Hlt ->. by apply (irreflexivity key_lt y). Qed.

Lemma key_lt_asym x y : x <ₖ y → ¬ y <ₖ x.
Proof. intros Hxy Hyx. apply (irreflexivity key_lt x). by transitivity y. Qed.

Lemma key_le_neq_lt x y : key_le x y → x ≠ y → x <ₖ y.
Proof.
  unfold key_le. intros Hle Hne.
  destruct (key_lt_trichotomy x y) as [?|[?|?]]; done.
Qed.

Lemma elem_of_sort_unique (l : list A) x : x ∈ sort_unique l ↔ x ∈ l.
Proof.
  unfold sort_unique. by rewrite (merge_sort_Permutation _ _), elem_of_remove_dups.
Qed.

Lemma NoDup_sort_unique (l : list A) : NoDup (sort_unique l).
Proof.
  unfold sort_unique. rewrite (merge_sort_Permutation _ _).
  apply NoDup_remove_dups.
Qed.

(** Sorted by [key_le] and duplicate-free is strictly sorted. *)
Lemma StronglySorted_lt_of_le (l : list A) :
  StronglySorted key_le l → NoDup l → StronglySorted key_lt l.
Proof.
  induction 1 as [|x l Hs IH Hall]; intros Hnd; constructor.
  - apply IH. by apply NoDup_cons in Hnd as [_ ?].
  - apply NoDup_cons in Hnd as [Hx _].
    rewrite Forall_forall in Hall |- *. intros y Hy.
    apply key_le_neq_lt; [by apply Hall|]. intros ->. by apply Hx.
Qed.

Lemma StronglySorted_lt_NoDup (l : list A) : StronglySorted key_lt l → NoDup l.
Proof.
  induction 1 as [|x l _ IH Hx]; constructor; [|done].
  rewrite Forall_forall in Hx. intros Hin. by apply (irreflexivity key_lt x), Hx.
Qed.

Lemma sort_unique_sorted (l : list A) : StronglySorted key_lt (sort_unique l).
Proof.
  apply StronglySorted_lt_of_le; [|apply NoDup_sort_unique].
  apply StronglySorted_merge_sort; [apply key_le_trans|apply key_le_total].
Qed.

(** A strictly sorted list is determined by its elements: any correct
    sort of the same distinct keys returns this list. *)
Lemma strongly_sorted_ext (l1 l2 : list A) :
  StronglySorted key_lt l1 → StronglySorted key_lt l2 →
  (∀ x, x ∈ l1 ↔ x ∈ l2) → l1 = l2.
Proof.
  revert l2. induction l1 as [|x l1 IH]; intros [|y l2] Hs1 Hs2 Hel.
  - done.
  - exfalso. apply (not_elem_of_nil y), Hel. by left.
  - exfalso. apply (not_elem_of_nil x), Hel. by left.
  - apply StronglySorted_inv in Hs1 as [Hs1 Hx], Hs2 as [Hs2 Hy].
    rewrite Forall_forall in Hx, Hy.
    assert (x = y) as <-.
    { destruct (key_lt_trichotomy x y) as [Hlt|[?|Hlt]]; [|done|].
      - assert (x ∈ y :: l2) as [Heq|Hin]%elem_of_cons by (apply Hel; left).
        + by destruct (key_lt_not_eq _ _ Hlt).
        + by destruct (key_lt_asym _ _ Hlt (Hy x Hin)).
      - assert (y ∈ x :: l1) as [Heq|Hin]%elem_of_cons by (apply Hel; left).
        + by destruct (key_lt_not_eq _ _ Hlt).
        + by destruct (key_lt_asym _ _ Hlt (Hx y Hin)). }
    f_equal. apply IH; [done|done|]. intros z. split; intros Hz.
    + assert (z ∈ x :: l2) as [->|]%elem_of_cons by (apply Hel; by right); [|done].
      by destruct (irreflexivity key_lt x (Hx x Hz)).
    + assert (z ∈ x :: l1) as [->|]%elem_of_cons by (apply Hel; by right); [|done].
      by destruct (irreflexivity key_lt x (Hy x Hz)).
Qed.

Lemma sort_unique_ext (l1 l2 : list A) :
  (∀ x, x ∈ l1 ↔ x ∈ l2) → sort_unique l1 = sort_unique l2.
Proof.
  intros Hel. apply strongly_sorted_ext; [apply sort_unique_sorted..|].
  intros x. by rewrite !elem_of_sort_unique.
Qed.
End KeyOrderLemmas.

Lemma StronglySorted_sublist {A} (R : relation A) (l1 l2 : list A) :
  l1 `sublist_of` l2 → StronglySorted R l2 → StronglySorted R l1.
Proof.
  induction 1 as [|x l1 l2 Hsub IH|x l1 l2 _ IH]; intros Hs; [constructor| |].
  - apply StronglySorted_inv in Hs as [Hs Hx]. constructor; [by apply IH|].
    rewrite Forall_forall in Hx |- *. intros y Hy. apply Hx.
    by eapply elem_of_sublist.
  - apply IH. by apply StronglySorted_inv in Hs as [? _].
Qed.

Section SortedFilter.
Context `{KeyOrder A}.

Lemma StronglySorted_filter (P : A → Prop) `{∀ x, Decision (P x)} (l : list A) :
  StronglySorted key_lt l → StronglySorted key_lt (filter P l).
Proof. apply StronglySorted_sublist, sublist_filter. Qed.

(** The common elements of two strictly sorted lists come out in the
    same order whichever list is walked. *)
Lemma filter_elem_comm (l1 l2 : list A) :
  StronglySorted key_lt l1 → StronglySorted key_lt l2 →
  filter (λ x, x ∈ l2) l1 = filter (λ x, x ∈ l1) l2.
Proof.
  intros Hs1 Hs2. apply strongly_sorted_ext; [by apply StronglySorted_filter..|].
  intros x. rewrite !list_elem_of_filter. tauto.
Qed.

(** In a strictly sorted list, order of positions is order of keys. *)
Lemma StronglySorted_lookup_lt (l : list A) i j x y :
  StronglySorted key_lt l → l !! i = Some x → l !! j = Some y →
  i < j ↔ x <ₖ y.
Proof.
  intros Hs. revert i j. induction Hs as [|z l Hs IH Hz]; intros i j Hi Hj; [done|].
  rewrite Forall_forall in Hz.
  destruct i as [|i], j as [|j]; simpl in *; simplify_eq.
  - split; [lia|intros Hc; by destruct (irreflexivity key_lt x)].
  - split; [intros _; apply Hz; by eapply list_elem_of_lookup_2|lia].
  - split; [lia|intros Hc]. exfalso. eapply key_lt_asym; [exact Hc|].
    apply Hz. by eapply list_elem_of_lookup_2.
  - rewrite <-(IH i j Hi Hj). lia.
Qed.
End SortedFilter.

(** Counting arguments on duplicate-free lists (Stdlib's [incl] lemmas
    in stdpp's notation). *)
Lemma NoDup_subseteq_length {A} (l1 l2 : list A) :
  NoDup l1 → l1 ⊆ l2 → length l1 ≤ length l2.
Proof.
  intros Hnd Hsub. apply NoDup_incl_length; [by apply NoDup_ListNoDup|].
  intros x Hx. apply list_elem_of_In, Hsub, list_elem_of_In, Hx.
Qed.

Lemma NoDup_subseteq_length_eq {A} (l1 l2 : list A) :
  NoDup l1 → length l2 ≤ length l1 → l1 ⊆ l2 → l2 ⊆ l1.
Proof.
  intros Hnd Hlen Hsub x Hx. apply list_elem_of_In.
  assert (incl l1 l2) as Hincl.
  { intros y Hy. apply list_elem_of_In, Hsub, list_elem_of_In, Hy. }
  apply (NoDup_length_incl (proj1 (NoDup_ListNoDup l1) Hnd) Hlen Hincl).
  by apply list_elem_of_In.
Qed.

Lemma NoDup_seq_bound (l : list nat) n :
  NoDup l → (∀ x, x ∈ l → x < n) → length l ≤ n.
Proof.
  intros Hnd Hlt. transitivity (length (seq 0 n)); [|by rewrite length_seq].
  apply NoDup_subseteq_length; [done|].
  intros x Hx. apply elem_of_seq. specialize (Hlt x Hx). lia.
Qed.

#[export] Hint Resolve sort_unique_sorted NoDup_sort_unique : bg.

(** *** Instances: nat, string, pairs *)

#[export] Program Instance nat_key_order : KeyOrder nat := {| key_lt := lt |}.
Next Obligation. intros; lia. Qed.

Definition ascii_code (a : Ascii.ascii) : N := Ascii.N_of_ascii a.

Definition str_lt (s t : string) : Prop := String.compare s t = Lt.

#[export] Instance str_lt_dec : RelDecision str_lt.
Proof. intros s t. unfold str_lt. apply _. Defined.

Lemma string_compare_cons a s b t :
  String.compare (String a s) (String b t) =
  match N.compare (ascii_code a) (ascii_code b) with
  | Eq => String.compare s t
  | c => c
  end.
Proof. reflexivity. Qed.

Lemma str_lt_trans s t u : str_lt s t → str_lt t u → str_lt s u.
Proof.
  unfold str_lt. revert t u.
  induction s as [|a s IH]; intros [|b t] [|c u]; try (simpl; congruence).
  rewrite !string_compare_cons.
  destruct (N.compare_spec (ascii_code a) (ascii_code b)) as [Hab|Hab|Hab];
  destruct (N.compare_spec (ascii_code b) (ascii_code c)) as [Hbc|Hbc|Hbc];
  destruct (N.compare_spec (ascii_code a) (ascii_code c)) as [Hac|Hac|Hac];
  try done; try lia. apply IH.
Qed.

Lemma str_lt_irrefl s : ¬ str_lt s s.
Proof.
  unfold str_lt. induction s as [|a s IH]; [done|].
  rewrite string_compare_cons, N.compare_refl. done.
Qed.

#[export] Program Instance string_key_order : KeyOrder string := {| key_lt := str_lt |}.
Next Obligation.
  split; [intros s; apply str_lt_irrefl|intros s t u; apply str_lt_trans].
Qed.
Next Obligation.
  unfold str_lt. destruct (String.compare x y) eqn:E.
  - right; left. by apply String.compare_eq_iff.
  - by left.
  - right; right. by rewrite String.compare_antisym, E.
Qed.

(** Lexicographic order on pairs: the order of a pandas MultiIndex. *)
Definition pair_lt `{KeyOrder A} `{KeyOrder B} (p q : A * B) : Prop :=
  p.1 <ₖ q.1 ∨ (p.1 = q.1 ∧ p.2 <ₖ q.2).

#[export] Instance pair_lt_dec `{KeyOrder A} `{KeyOrder B} : RelDecision (@pair_lt A _ _ B _ _).
Proof. intros p q. unfold pair_lt. apply _. Defined.

Section PairOrder.
Context `{KeyOrder A} `{KeyOrder B}.

Lemma pair_lt_strict : StrictOrder (@pair_lt A _ _ B _ _).
Proof.
  split.
  - intros [a b] [Ha|[_ Hb]]; simpl in *;
      [by apply (irreflexivity key_lt a)|by apply (irreflexivity key_lt b)].
  - intros [a1 b1] [a2 b2] [a3 b3]; unfold pair_lt; simpl.
    intros [H12|[-> H12]] [H23|[-> H23]]; [left; by transitivity a2|by left|by left|].
    right. split; [done|by transitivity b2].
Qed.

Lemma pair_lt_trichotomy (p q : A * B) : pair_lt p q ∨ p = q ∨ pair_lt q p.
Proof.
  destruct p as [a1 b1], q as [a2 b2]; unfold pair_lt; simpl.
  destruct (key_lt_trichotomy a1 a2) as [?|[<-|?]]; [by left; left| |by right; right; left].
  destruct (key_lt_trichotomy b1 b2) as [?|[<-|?]];
    [by left; right|by right; left|by right; right; right].
Qed.
End PairOrder.

#[export] Instance pair_key_order `{KeyOrder A} `{KeyOrder B} : KeyOrder (A * B) :=
  {| key_lt := pair_lt; key_lt_strict := pair_lt_strict;
     key_lt_trichotomy := pair_lt_trichotomy |}.

(** ** Python errors and a small error monad

    The exceptions the modelled code can raise, as values. *)
Inductive py_error :=
  | KeyError (key : string)
  | ValueError (msg : string)
  | IndexError
  | TypeError.

#[export] Instance py_error_eq_dec : EqDecision py_error.
Proof. solve_decision. Defined.

Definition result (A : Type) : Type := py_error + A.

(** [result] is a monad of stdpp's [MRet]/[MBind] classes, so the code's
    sequencing reads [x ← m; k] and an exception [throw e] skips the rest. *)
#[export] Instance result_ret : MRet result := λ A x, inr x.
#[export] Instance result_bind : MBind result := λ A B k m,
  match m with inl e => inl e | inr x => k x end.

Definition throw {A} (e : py_error) : result A := inl e.

Lemma bind_inr_inv {A B} (m : result A) (k : A → result B) y :
  (m ≫= k) = inr y → ∃ x, m = inr x ∧ k x = inr y.
Proof. destruct m; simpl; [done|eauto]. Qed.

Lemma bind_inr {A B} (x : A) (k : A → result B) : (inr x ≫= k) = k x.
Proof. done. Qed.

Lemma bind_inl_eq {A B} (e : py_error) (k : A → result B) : (inl e ≫= k) = inl e.
Proof. done. Qed.

Lemma bind_ret {A B} (x : A) (k : A → result B) : (mret x ≫= k) = k x.
Proof. done. Qed.

Lemma bind_inl {A B} (e : py_error) (k : A → result B) : (throw e ≫= k) = inl e.
Proof. done. Qed.

Lemma length_filter_pos {A} (P : A → Prop) `{∀ x, Decision (P x)} (l : list A) :
  0 < length (filter P l) ↔ ∃ x, x ∈ l ∧ P x.
Proof.
  split.
  - intros Hlen. destruct (filter P l) as [|x l'] eqn:Hf; simpl in Hlen; [lia|].
    assert (x ∈ filter P l) as [? ?]%list_elem_of_filter by (rewrite Hf; left).
    eauto.
  - intros (x & Hx & HP). destruct (filter P l) eqn:Hf; simpl; [|lia].
    by destruct (filter_nil_not_elem_of P l x Hf HP).
Qed.

Lemma elem_of_concat {A} (x : A) (ls : list (list A)) :
  x ∈ concat ls ↔ ∃ l, x ∈ l ∧ l ∈ ls.
Proof.
  rewrite list_elem_of_In, in_concat. setoid_rewrite list_elem_of_In. naive_solver.
Qed.

Section Bind.
Context {A B : Type}.

Lemma filter_bind (P : B → Prop) `{∀ x, Decision (P x)} (f : A → list B) (l : list A) :
  filter P (l ≫= f) = l ≫= (λ x, filter P (f x)).
Proof. induction l as [|x l IH]; [done|]. by rewrite !bind_cons, filter_app, IH. Qed.

Lemma bind_nil (f : A → list B) (l : list A) :
  (∀ y, y ∈ l → f y = []) → l ≫= f = [].
Proof.
  induction l as [|y l IH]; intros Hf; [done|]. rewrite bind_cons.
  rewrite Hf by (by left). apply IH. intros z Hz. apply Hf. by right.
Qed.

(** A nested loop that produces output for one element only. *)
Lemma bind_single `{EqDecision A} (f : A → list B) (l : list A) x :
  NoDup l → x ∈ l → (∀ y, y ∈ l → y ≠ x → f y = []) → l ≫= f = f x.
Proof.
  induction l as [|y l IH]; intros Hnd Hx Hf; [by apply not_elem_of_nil in Hx|].
  apply NoDup_cons in Hnd as [Hy Hnd]. rewrite bind_cons.
  destruct (decide (y = x)) as [->|Hne].
  - rewrite bind_nil, app_nil_r; [done|]. intros z Hz. apply Hf; [by right|].
    intros ->. by apply Hy.
  - rewrite Hf by (by left || done). simpl. apply IH; [done| |].
    + apply elem_of_cons in Hx as [->|?]; [done|done].
    + intros z Hz. apply Hf. by right.
Qed.
End Bind.

(** A Python [for] loop over [l] whose body may raise: the state is
    threaded through and the first exception ends the loop. *)
Fixpoint fold_result {A S} (f : S → A → result S) (l : list A) (s : S) : result S :=
  match l with
  | [] => mret s
  | x :: l' => s' ← f s x; fold_result f l' s'
  end.

(** A loop whose body never raises on the elements it meets is the pure
    left fold of that body. *)
Lemma fold_result_pure {A S} (f : S → A → result S) (g : S → A → S) (l : list A) s :
  (∀ s x, x ∈ l → f s x = inr (g s x)) → fold_result f l s = inr (foldl g s l).
Proof.
  revert s. induction l as [|x l IH]; intros s Hfg; simpl; [done|].
  rewrite Hfg by (by left). simpl. apply IH. intros s' y Hy. apply Hfg. by right.
Qed.

(** An invariant of every step of a left fold holds at its end. *)
Lemma foldl_invariant {A S} (P : S → Prop) (f : S → A → S) (l : list A) s :
  P s → (∀ s x, x ∈ l → P s → P (f s x)) → P (foldl f s l).
Proof.
  revert s. induction l as [|x l IH]; intros s Hs Hf; simpl; [done|].
  apply IH; [apply Hf; [by left|done]|]. intros s' y Hy. apply Hf. by right.
Qed.

(** A [map] whose function never raises returns the pointwise results. *)
Lemma mapM_inr {A B} (f : A → result B) (l : list A) :
  (∀ x, x ∈ l → ∃ y, f x = inr y) →
  ∃ ys, mapM f l = inr ys ∧ Forall2 (λ x y, f x = inr y) l ys.
Proof.
  induction l as [|x l IH]; intros Hf; simpl; [by exists []|].
  destruct (Hf x ltac:(by left)) as [y Hy].
  destruct IH as (ys & Hys & Hall); [intros z Hz; apply Hf; by right|].
  exists (y :: ys). rewrite Hy. simpl. rewrite Hys. split; [done|by constructor].
Qed.

Lemma mapM_inr_inv {A B} (f : A → result B) (l : list A) ys :
  mapM f l = inr ys → Forall2 (λ x y, f x = inr y) l ys.
Proof.
  revert ys. induction l as [|x l IH]; intros ys; simpl; [intros [= <-]; constructor|].
  destruct (f x) as [e|y] eqn:Hfx; [done|]. simpl.
  destruct (mapM f l) as [e|ys'] eqn:Hm; [done|]. simpl. intros [= <-].
  constructor; [done|]. by apply IH.
Qed.

(** [l.index(x)]: the first position of [x], or [ValueError]. *)
Fixpoint py_index `{EqDecision A} (l : list A) (x : A) : result nat :=
  match l with
  | [] => throw (ValueError "is not in list")
  | y :: l' => if decide (x = y) then mret 0 else i ← py_index l' x; mret (S i)
  end.

Lemma py_index_elem_of `{EqDecision A} (l : list A) x :
  x ∈ l → ∃ i, py_index l x = inr i ∧ l !! i = Some x.
Proof.
  induction l as [|y l IH]; simpl; [by intros ?%not_elem_of_nil|].
  intros [->|Hx]%elem_of_cons.
  - rewrite decide_True by done. by exists 0.
  - case_decide as Heq; [subst; by exists 0|].
    destruct (IH Hx) as (i & -> & Hi). by exists (S i).
Qed.

Lemma py_index_lookup `{EqDecision A} (l : list A) x i :
  py_index l x = inr i → l !! i = Some x.
Proof.
  revert i. induction l as [|y l IH]; intros i; simpl; [done|].
  case_decide; [intros [= <-]; by subst|].
  destruct (py_index l x) as [|i'] eqn:Hi; [done|]. simpl. intros [= <-]. by apply IH.
Qed.

Lemma py_index_NoDup `{EqDecision A} (l : list A) x i :
  NoDup l → l !! i = Some x → py_index l x = inr i.
Proof.
  revert i. induction l as [|y l IH]; intros i Hnd Hi; [done|].
  apply NoDup_cons in Hnd as [Hy Hnd]. destruct i as [|i]; simpl in *.
  - simplify_eq. by rewrite decide_True.
  - rewrite decide_False; [by rewrite (IH i)|].
    intros ->. apply Hy. by eapply list_elem_of_lookup_2.
Qed.

(** ** Sums of rationals *)

Definition qsum (l : list Q) : Q := fold_right Qplus 0%Q l.

Lemma qsum_app l1 l2 : qsum (l1 ++ l2) == (qsum l1 + qsum l2)%Q.
Proof. induction l1 as [|x l IH]; simpl; [ring|]. rewrite IH. ring. Qed.

Lemma qsum_perm l1 l2 : l1 ≡ₚ l2 → qsum l1 == qsum l2.
Proof.
  induction 1 as [|x l1 l2 _ IH|x y l|l1 l2 l3 _ IH1 _ IH2]; simpl.
  - reflexivity.
  - by rewrite IH.
  - ring.
  - by rewrite IH1.
Qed.

Lemma qsum_nonneg l : Forall (λ q, 0 <= q)%Q l → (0 <= qsum l)%Q.
Proof. induction 1; simpl; [lra|lra]. Qed.

Lemma qsum_pos l : Forall (λ q, 0 < q)%Q l → l ≠ [] → (0 < qsum l)%Q.
Proof.
  induction 1 as [|x l Hx Hl IH]; [done|]. intros _. simpl.
  destruct l as [|y l]; simpl in *; [lra|].
  assert (0 < qsum (y :: l))%Q by (apply IH; done). simpl in *. lra.
Qed.

(** The maximum of a pandas group ([agg "max"], [transform "max"]).
    Groups are never empty; the value on [[]] is never used. *)
Definition qmax_list (l : list Q) : Q :=
  match l with [] => 0%Q | x :: xs => foldr Qmax x xs end.

Lemma Qmax_choice (x y : Q) : Qmax x y = x ∨ Qmax x y = y.
Proof. unfold Qmax, GenericMinMax.gmax. destruct (x ?= y)%Q; auto. Qed.

Lemma qmax_list_upper (l : list Q) x : x ∈ l → (x <= qmax_list l)%Q.
Proof.
  destruct l as [|y l]; [by intros ?%not_elem_of_nil|]. simpl.
  intros Hx. assert (∀ z, z = y ∨ z ∈ l → z <= foldr Qmax y l)%Q as Hup.
  { clear Hx. induction l as [|w l IH]; intros z Hz; simpl.
    - destruct Hz as [->|?%not_elem_of_nil]; [apply Qle_refl|done].
    - destruct Hz as [->|[->|Hz]%elem_of_cons].
      + eapply Qle_trans; [apply (IH y); by left|apply Q.le_max_r].
      + apply Q.le_max_l.
      + eapply Qle_trans; [apply IH; by right|apply Q.le_max_r]. }
  apply Hup. by apply elem_of_cons in Hx.
Qed.

Lemma qmax_list_elem (l : list Q) : l ≠ [] → qmax_list l ∈ l.
Proof.
  destruct l as [|y l]; [done|]. intros _. simpl.
  induction l as [|w l IH]; simpl; [by left|].
  destruct (Qmax_choice w (foldr Qmax y l)) as [->| ->].
  - right. by left.
  - apply elem_of_cons in IH as [->|?]; [by left|by right; right].
Qed.

(** Two lists have the same maximum when each one's elements are bounded
    by the other's maximum. *)
Lemma qmax_list_eq (l1 l2 : list Q) :
  l1 ≠ [] → l2 ≠ [] →
  (∀ x, x ∈ l1 → x <= qmax_list l2)%Q → (∀ x, x ∈ l2 → x <= qmax_list l1)%Q →
  qmax_list l1 == qmax_list l2.
Proof.
  intros Hne1 Hne2 H12 H21. apply Qle_antisym.
  - by apply H12, qmax_list_elem.
  - by apply H21, qmax_list_elem.
Qed.

#[export] Hint Resolve qsum_nonneg qsum_pos qmax_list_upper : bg.

(** A loop whose body never raises while an invariant holds, and keeps
    it, is the pure left fold of that body. *)
Lemma fold_result_pure_inv {A S} (P : S → Prop) (f : S → A → result S) (g : S → A → S)
    (l : list A) s :
  P s → (∀ s x, x ∈ l → P s → f s x = inr (g s x) ∧ P (g s x)) →
  fold_result f l s = inr (foldl g s l).
Proof.
  revert s. induction l as [|x l IH]; intros s Hs Hfg; simpl; [done|].
  destruct (Hfg s x ltac:(by left) Hs) as [-> HP]. simpl.
  apply IH; [done|]. intros s' y Hy. apply Hfg. by right.
Qed.

(** A loop whose body succeeds while an invariant holds, and keeps it,
    succeeds. *)
Lemma fold_result_ok {A S} (P : S → Prop) (f : S → A → result S) (l : list A) s :
  P s → (∀ s x, x ∈ l → P s → ∃ s', f s x = inr s' ∧ P s') →
  ∃ r, fold_result f l s = inr r ∧ P r.
Proof.
  revert s. induction l as [|x l IH]; intros s Hs Hf; simpl; [by exists s|].
  destruct (Hf s x ltac:(by left) Hs) as (s' & -> & Hs'). rewrite bind_inr.
  apply IH; [done|]. intros t y Hy. apply Hf. by right.
Qed.

(** A loop raises when its body raises on an element it reaches. *)
Lemma fold_result_inl {A S} (f : S → A → result S) l1 x l2 s e :
  (∀ s', f s' x = inl e) →
  (∃ s1, fold_result f l1 s = inr s1) ∨ (∃ e', fold_result f l1 s = inl e') →
  ∃ e', fold_result f (l1 ++ x :: l2) s = inl e'.
Proof.
  intros Hx Hpre. revert s Hpre. induction l1 as [|y l1 IH]; intros s Hpre; simpl.
  - rewrite Hx. by exists e.
  - destruct (f s y) as [e'|s'] eqn:Hy; simpl; [by exists e'|].
    apply IH. simpl in Hpre. by rewrite Hy in Hpre.
Qed.

(** Related lists keep distinct keys distinct when equal output keys
    come from equal input keys. *)
Lemma Forall2_NoDup_keys {A B K L} (R : A → B → Prop) (f : A → K) (h : B → L) xs ys :
  Forall2 R xs ys →
  (∀ x y x' y', R x y → R x' y' → h y = h y' → f x = f x') →
  NoDup (f <$> xs) → NoDup (h <$> ys).
Proof.
  intros HR Hkey. induction HR as [|x y xs ys Hxy HR IH]; [constructor|].
  rewrite !fmap_cons. intros [Hx Hnd]%NoDup_cons. constructor; [|by apply IH].
  intros (y' & Hyy & Hy')%list_elem_of_fmap. apply Hx.
  apply list_elem_of_lookup in Hy' as [k Hk].
  destruct (Forall2_lookup_r _ _ _ _ _ HR Hk) as (x' & Hx' & Hxy').
  apply list_elem_of_fmap. exists x'. split; [|by eapply list_elem_of_lookup_2].
  symmetry. by eapply Hkey.
Qed.

(** ** Partitions of a list by a key *)

Lemma fmap_id_lam {A} (l : list A) : (λ x, x) <$> l = l.
Proof. induction l as [|x l IH]; [done|]. rewrite fmap_cons, IH. done. Qed.

Lemma sum_list_app (l1 l2 : list nat) : sum_list (l1 ++ l2) = sum_list l1 + sum_list l2.
Proof. induction l1; simpl; lia. Qed.

Lemma sum_list_perm (l1 l2 : list nat) : l1 ≡ₚ l2 → sum_list l1 = sum_list l2.
Proof. induction 1; simpl; lia. Qed.

Lemma sum_list_concat (ls : list (list nat)) : sum_list (concat ls) = sum_list (sum_list <$> ls).
Proof. induction ls as [|l ls IH]; simpl; [done|]. rewrite sum_list_app, IH. done. Qed.

Lemma qsum_concat (ls : list (list Q)) : qsum (concat ls) == qsum (qsum <$> ls).
Proof. induction ls as [|l ls IH]; simpl; [done|]. rewrite qsum_app, IH. reflexivity. Qed.

Lemma filter_all {A} (P : A → Prop) `{∀ x, Decision (P x)} (l : list A) :
  (∀ x, x ∈ l → P x) → filter P l = l.
Proof.
  induction l as [|x l IH]; intros Hl; [done|].
  rewrite filter_cons_True by (apply Hl; left). f_equal. apply IH. intros y Hy. apply Hl. by right.
Qed.

Lemma filter_none {A} (P : A → Prop) `{∀ x, Decision (P x)} (l : list A) :
  (∀ x, x ∈ l → ¬ P x) → filter P l = [].
Proof.
  induction l as [|x l IH]; intros Hl; [done|].
  rewrite filter_cons_False by (apply Hl; left). apply IH. intros y Hy. apply Hl. by right.
Qed.

(** The filter of a concatenation when one block alone has elements
    passing it. *)
Lemma concat_filter_single {A} (P : A → Prop) `{∀ x, Decision (P x)} (ls : list (list A)) i l :
  ls !! i = Some l → (∀ j l', ls !! j = Some l' → j ≠ i → filter P l' = []) →
  filter P (concat ls) = filter P l.
Proof.
  revert i. induction ls as [|l0 ls IH]; intros i Hi Hj; [done|]. cbn [concat].
  rewrite filter_app. destruct i as [|i]; cbn in Hi.
  - injection Hi as ->. rewrite (filter_none P (concat ls)); [by rewrite app_nil_r|].
    intros x Hx Hp. apply list_elem_of_In, in_concat in Hx as (l' & Hl' & Hx).
    apply list_elem_of_In, list_elem_of_lookup in Hl' as [j Hl']. apply list_elem_of_In in Hx.
    assert (x ∈ filter P l') as Hin by (by apply list_elem_of_filter).
    rewrite (Hj (S j) l') in Hin by done. by apply not_elem_of_nil in Hin.
  - rewrite (Hj 0 l0 eq_refl) by done. cbn. apply (IH i Hi).
    intros j l' Hl' Hji. apply (Hj (S j)); [done|lia].
Qed.

Lemma length_filter_snd {A B} (P : A * B → Prop) (Q : B → Prop)
    `{∀ x, Decision (P x)} `{∀ x, Decision (Q x)} (l : list (A * B)) :
  (∀ q, P q ↔ Q q.2) → length (filter P l) = length (filter Q (snd <$> l)).
Proof.
  intros HPQ. induction l as [|[a b] l IH]; [done|]. rewrite fmap_cons, !filter_cons. cbn [snd].
  destruct (decide (P (a, b))) as [Hp|Hp], (decide (Q b)) as [Hq|Hq];
    cbn; rewrite ?IH; try done; exfalso; naive_solver.
Qed.

Lemma fmap_snd_imap_pair {A} (l : list A) : snd <$> imap pair l = l.
Proof.
  rewrite fmap_imap. transitivity (imap (const id) l); [done|]. by rewrite imap_const, list_fmap_id.
Qed.

(** A key that occurs once among distinct keys passes the filter once. *)
Lemma length_filter_NoDup {A B} `{EqDecision B} (f : A → B) (l : list A) a :
  NoDup (f <$> l) → (∃ x, x ∈ l ∧ f x = a) → length (filter (λ x, a = f x) l) = 1.
Proof.
  induction l as [|y l IH]; intros Hnd (x & Hx & Hfx); [by apply not_elem_of_nil in Hx|].
  rewrite fmap_cons in Hnd. apply NoDup_cons in Hnd as [Hy Hnd]. rewrite filter_cons.
  apply elem_of_cons in Hx as [->|Hx].
  - rewrite decide_True by done. cbn. f_equal.
    rewrite filter_none; [done|]. intros z Hz Hz'. apply Hy. rewrite Hfx, Hz'.
    by apply list_elem_of_fmap_2.
  - assert (f y ≠ a) as Hya by (intros <-; apply Hy; rewrite <-Hfx; by apply list_elem_of_fmap_2).
    rewrite decide_False by congruence. apply IH; eauto.
Qed.

Lemma filter_ext_in {A} (P Q : A → Prop) `{∀ x, Decision (P x)} `{∀ x, Decision (Q x)}
    (l : list A) :
  (∀ x, x ∈ l → P x ↔ Q x) → filter P l = filter Q l.
Proof.
  induction l as [|x l IH]; intros Hl; [done|]. rewrite !filter_cons.
  rewrite IH by (intros y Hy; apply Hl; by right).
  destruct (decide (P x)), (decide (Q x)); try done; exfalso; naive_solver (by left).
Qed.

#[export] Instance sum_list_proper : Proper ((≡ₚ) ==> (=)) sum_list.
Proof. intros l1 l2 Hl. by apply sum_list_perm. Qed.

Lemma sum_list_fmap_concat {A} (w : A → nat) (ls : list (list A)) :
  sum_list ((λ l, sum_list (w <$> l)) <$> ls) = sum_list (w <$> concat ls).
Proof.
  induction ls as [|l ls IH]; [done|].
  change (sum_list (w <$> l) + sum_list ((λ l, sum_list (w <$> l)) <$> ls) =
          sum_list (w <$> (l ++ concat ls))).
  by rewrite fmap_app, sum_list_app, IH.
Qed.

#[export] Instance qsum_proper : Proper ((≡ₚ) ==> Qeq) qsum.
Proof. intros l1 l2 Hl. by apply qsum_perm. Qed.

Lemma qsum_fmap_concat {A} (w : A → Q) (ls : list (list A)) :
  qsum ((λ l, qsum (w <$> l)) <$> ls) == qsum (w <$> concat ls).
Proof.
  induction ls as [|l ls IH]; [done|].
  change (qsum (w <$> l) + qsum ((λ l, qsum (w <$> l)) <$> ls) ==
          qsum (w <$> (l ++ concat ls)))%Q.
  by rewrite fmap_app, qsum_app, IH.
Qed.

Lemma omap_concat {A B} (f : A → option B) (ls : list (list A)) :
  omap f (concat ls) = concat ((omap f : list A → list B) <$> ls).
Proof. induction ls as [|l ls IH]; [done|]. simpl. by rewrite omap_app, IH. Qed.

Lemma omap_fmap_compose {A B C} (f : B → option C) (g : A → B) (l : list A) :
  omap f (g <$> l) = omap (f ∘ g) l.
Proof.
  induction l as [|x l IH]; [done|]. simpl. unfold compose at 1.
  destruct (f (g x)); [f_equal|]; exact IH.
Qed.

Lemma omap_lookup_seq {A} (l : list A) (f : nat → option A) :
  (∀ i, f i = l !! i) → omap f (seq 0 (length l)) = l.
Proof.
  revert f. induction l as [|x l IH]; intros f Hf; [done|].
  simpl. rewrite (Hf 0). simpl. f_equal. change (omap f (seq 1 (length l)) = l).
  rewrite <-fmap_S_seq, omap_fmap_compose. apply IH. intros i. unfold compose. by rewrite Hf.
Qed.

(** A loop that raises nothing keeps an invariant of its body. *)
Lemma mapM_result_ok {A B} (f : A → result B) (l : list A) :
  (∀ x, x ∈ l → ∃ y, f x = inr y) → ∃ ys, mapM f l = inr ys.
Proof.
  induction l as [|x l IH]; intros Hf; cbn; [by eexists|].
  destruct (Hf x ltac:(by left)) as [y ->]. destruct IH as [ys ->]; [intros z Hz; apply Hf; by right|].
  by eexists.
Qed.

Lemma mapM_result_Forall2 {A B} (f : A → result B) (l : list A) ys :
  mapM f l = inr ys → Forall2 (λ x y, f x = inr y) l ys.
Proof.
  revert ys. induction l as [|x l IH]; intros ys; cbn; [intros [= <-]; constructor|].
  destruct (f x) as [e|y] eqn:Hx; [done|]. cbn.
  destruct (mapM f l) as [e|ys'] eqn:Hl; [done|]. intros [= <-]. constructor; [done|]. by apply IH.
Qed.

Lemma fold_result_invariant {A S} (P : S → Prop) (f : S → A → result S) (l : list A) s r :
  P s → (∀ s x s', x ∈ l → P s → f s x = inr s' → P s') →
  fold_result f l s = inr r → P r.
Proof.
  revert s. induction l as [|x l IH]; intros s Hs Hf; simpl; [by intros [= <-]|].
  destruct (f s x) as [e|s'] eqn:Hx; [done|]. rewrite bind_inr. apply IH.
  - apply (Hf s x); [by left|done|done].
  - intros t y t' Hy. apply Hf. by right.
Qed.

Section Partition.
Context {A B : Type} `{EqDecision B} (f : A → B).

Lemma filter_app_disjoint (P Q : A → Prop) `{∀ x, Decision (P x)} `{∀ x, Decision (Q x)}
    (l : list A) :
  (∀ x, P x → ¬ Q x) → filter P l ++ filter Q l ≡ₚ filter (λ x, P x ∨ Q x) l.
Proof.
  intros Hdis. induction l as [|x l IH]; [done|]. rewrite !filter_cons.
  destruct (decide (P x)), (decide (Q x)); simpl.
  - by destruct (Hdis x).
  - rewrite decide_True by tauto. by constructor.
  - rewrite decide_True by tauto. rewrite <-Permutation_middle. by constructor.
  - by rewrite decide_False by tauto.
Qed.

(** Grouping the elements of [l] by the keys [ks] loses and duplicates
    nothing when every element's key is one of the distinct keys. *)
Lemma concat_filter_partition (ks : list B) (l : list A) :
  NoDup ks → (∀ x, x ∈ l → f x ∈ ks) →
  concat ((λ k, filter (λ x, f x = k) l) <$> ks) ≡ₚ l.
Proof.
  intros Hnd Hin. transitivity (filter (λ x, f x ∈ ks) l).
  - clear Hin. induction ks as [|k ks IH]; rewrite ?fmap_nil, ?fmap_cons; cbn [concat].
    + rewrite filter_none; [done|]. intros x _ ?%not_elem_of_nil. done.
    + apply NoDup_cons in Hnd as [Hk Hnd]. rewrite IH by done.
      rewrite filter_app_disjoint by (intros x -> ?; by apply Hk).
      apply Permutation_refl'. apply list_filter_iff. intros x. by rewrite elem_of_cons.
  - apply Permutation_refl'. by apply filter_all.
Qed.

End Partition.

(** ** Tactics *)

(** Split the binds of an [inr] result into the steps that produced it. *)
Ltac inv_result :=
  repeat match goal with
  | H : mbind _ ?m = inr _ |- _ =>
      let x := fresh "x" in let Hm := fresh "Hm" in
      apply bind_inr_inv in H as (x & Hm & H)
  | H : inr _ = inr _ |- _ => injection H as H
  | H : mret _ = inr _ |- _ => injection H as H
  end.
