(* ===== verification/HitFilter.v ===== *)
(** * HitFilter: reading and thresholding the BLAST hits

    Models lines 25-35 of src/src/blast_to_graph.py ([_blast_to_graph]):
    the row cap of [pd.read_csv(.., nrows=500)], the best hit per
    (node, edge) pair, the top score of each "qacc" group, the ratio
    [bitscore_perc] and the 0.9 threshold.  The hit table's columns are
    those blastgraph.py asks BLAST for (line 32). *)

From S2P Require Import Prelude.

Module HitFilter.

(** One row of the BLAST table: "qacc sacc bitscore evalue sscinames". *)
Record hit := mk_hit {
  qacc : string;
  sacc : string;
  bitscore : Q;
  evalue : Q;
  sscinames : string
}.

(** The string columns a caller may pass as [node_col] or [edge_col]. *)
Inductive column := Cqacc | Csacc | Csscinames.

#[export] Instance column_eq_dec : EqDecision column.
Proof. solve_decision. Defined.

Definition col_name (c : column) : string :=
  match c with Cqacc => "qacc" | Csacc => "sacc" | Csscinames => "sscinames" end.

Definition col_get (c : column) (h : hit) : string :=
  match c with Cqacc => qacc h | Csacc => sacc h | Csscinames => sscinames h end.

(** [pd.read_csv(file, sep="\t", nrows=500)] *)
Definition nrows : nat := 500.
Definition read_rows (rows : list hit) : list hit := take nrows rows.

(** The (node, edge) index of the grouped frame. *)
Definition key := (string * string)%type.

Definition key_of (node_col edge_col : column) (h : hit) : key :=
  (col_get node_col h, col_get edge_col h).

(** [blast.groupby([node_col, edge_col]).agg({"bitscore": "max"})]:
    one entry per distinct key, in the sorted order of the MultiIndex. *)
Definition best_score (node_col edge_col : column) (rows : list hit) (k : key) : Q :=
  qmax_list (bitscore <$> filter (λ h, key_of node_col edge_col h = k) rows).

Definition best_hits (node_col edge_col : column) (rows : list hit) : list (key * Q) :=
  (λ k, (k, best_score node_col edge_col rows k))
    <$> sort_unique (key_of node_col edge_col <$> rows).

(** The index level that [groupby("qacc")] selects: the level named
    "qacc", a [KeyError] when no level has that name, and pandas'
    [ValueError] when both levels have it. *)
Inductive level := LNode | LEdge.

Definition level_key (lv : level) (k : key) : string :=
  match lv with LNode => k.1 | LEdge => k.2 end.

Definition level_of (node_col edge_col : column) : result level :=
  match decide (node_col = Cqacc), decide (edge_col = Cqacc) with
  | left _, left _ => throw (ValueError "The name qacc occurs multiple times")
  | left _, right _ => mret LNode
  | right _, left _ => mret LEdge
  | right _, right _ => throw (KeyError "qacc")
  end.

(** A row of the frame after line 34. *)
Record frow := mk_frow {
  fkey : key;
  fbitscore : Q;
  ftop : Q;
  fperc : Q
}.

(** [blast["top_bitscore"] = blast.groupby("qacc")["bitscore"].transform("max")] *)
Definition top_score (lv : level) (best : list (key * Q)) (k : key) : Q :=
  qmax_list (snd <$> filter (λ e, level_key lv e.1 = level_key lv k) best).

(** Lines 31 and 34 for one entry. *)
Definition annotate (lv : level) (best : list (key * Q)) (e : key * Q) : frow :=
  let top := top_score lv best e.1 in
  mk_frow e.1 e.2 top (e.2 / top)%Q.

Definition threshold : Q := 9 # 10.

(** [blast[blast["bitscore_perc"] >= 0.9]] *)
Definition keep (r : frow) : bool := Qle_bool threshold (fperc r).

(** Lines 25-35. *)
Definition filter_hits (node_col edge_col : column) (rows : list hit) : result (list frow) :=
  lv ← level_of node_col edge_col;
  let best := best_hits node_col edge_col (read_rows rows) in
  mret (filter (λ r, keep r = true) (annotate lv best <$> best)).

(** ** Reference quantities on the raw rows

    The top score the spec describes: the best raw score among the rows
    of one level group, without the intermediate per-pair maxima. *)
Definition raw_top (node_col edge_col : column) (lv : level) (rows : list hit) (k : key) : Q :=
  qmax_list (bitscore <$> filter
    (λ h, level_key lv (key_of node_col edge_col h) = level_key lv k) rows).

Section Lemmas.
Context (nc ec : column).

Lemma elem_of_best_hits rows e :
  e ∈ best_hits nc ec rows ↔
  (∃ h, h ∈ rows ∧ key_of nc ec h = e.1) ∧ e.2 = best_score nc ec rows e.1.
Proof.
  unfold best_hits. rewrite list_elem_of_fmap.
  setoid_rewrite elem_of_sort_unique. setoid_rewrite list_elem_of_fmap.
  split.
  - intros (k & -> & h & -> & Hh). simpl. eauto.
  - intros [(h & Hh & Hk) He]. exists e.1. destruct e; simpl in *; subst. eauto.
Qed.

Lemma best_score_upper rows h :
  h ∈ rows → (bitscore h <= best_score nc ec rows (key_of nc ec h))%Q.
Proof.
  intros Hh. apply qmax_list_upper, list_elem_of_fmap_2.
  by apply list_elem_of_filter.
Qed.

Lemma best_score_attained rows k :
  (∃ h, h ∈ rows ∧ key_of nc ec h = k) →
  ∃ h, h ∈ rows ∧ key_of nc ec h = k ∧ best_score nc ec rows k = bitscore h.
Proof.
  intros (h & Hh & Hk). unfold best_score.
  destruct (list_elem_of_fmap_1 bitscore _ _ (qmax_list_elem
    (bitscore <$> filter (λ h, key_of nc ec h = k) rows) ltac:(
      intros Hnil; apply fmap_nil_inv in Hnil;
      eapply (not_elem_of_nil h); rewrite <-Hnil; by apply list_elem_of_filter)))
    as (h' & Heq & [Hk' Hh']%list_elem_of_filter).
  eauto.
Qed.

(** The maximum of the per-pair maxima is the maximum of the group. *)
Lemma top_score_raw lv rows k :
  (∃ h, h ∈ rows ∧ key_of nc ec h = k) →
  top_score lv (best_hits nc ec rows) k == raw_top nc ec lv rows k.
Proof.
  intros (h0 & Hh0 & Hk0). unfold top_score, raw_top.
  apply qmax_list_eq.
  - intros Hnil%fmap_nil_inv. eapply (not_elem_of_nil (k, best_score nc ec rows k)).
    rewrite <-Hnil. apply list_elem_of_filter. split; [done|].
    apply elem_of_best_hits. eauto.
  - intros Hnil%fmap_nil_inv. eapply (not_elem_of_nil h0).
    rewrite <-Hnil. apply list_elem_of_filter. by subst.
  - intros x (e & -> & [Hlv He]%list_elem_of_filter)%list_elem_of_fmap.
    apply elem_of_best_hits in He as [Hex ->].
    destruct (best_score_attained rows e.1 Hex) as (h & Hh & Hk & ->).
    apply qmax_list_upper, list_elem_of_fmap_2, list_elem_of_filter.
    by rewrite Hk.
  - intros x (h & -> & [Hlv Hh]%list_elem_of_filter)%list_elem_of_fmap.
    eapply Qle_trans; [apply (best_score_upper rows h Hh)|].
    apply qmax_list_upper, list_elem_of_fmap.
    exists (key_of nc ec h, best_score nc ec rows (key_of nc ec h)).
    split; [done|]. apply list_elem_of_filter.
    split; [done|]. apply elem_of_best_hits. eauto.
Qed.

Lemma elem_of_filter_hits rows out r :
  filter_hits nc ec rows = inr out →
  r ∈ out ↔ ∃ lv e, level_of nc ec = inr lv ∧
    e ∈ best_hits nc ec (read_rows rows) ∧
    r = annotate lv (best_hits nc ec (read_rows rows)) e ∧ keep r = true.
Proof.
  unfold filter_hits. destruct (level_of nc ec) as [err|lv]; [done|].
  simpl. intros [= <-]. rewrite list_elem_of_filter, list_elem_of_fmap.
  split; [intros (? & e & -> & ?); eauto 6|intros (? & e & [= <-] & ? & -> & ?); eauto].
Qed.
Lemma filter_hits_keys_sublist rows out :
  filter_hits nc ec rows = inr out →
  fkey <$> out `sublist_of` sort_unique (key_of nc ec <$> read_rows rows).
Proof.
  unfold filter_hits. destruct (level_of nc ec) as [err|lv]; [done|].
  simpl. intros [= <-].
  transitivity (fkey <$> (annotate lv (best_hits nc ec (read_rows rows)) <$>
                          best_hits nc ec (read_rows rows))).
  { apply fmap_sublist, sublist_filter. }
  rewrite <-list_fmap_compose. unfold best_hits. rewrite <-list_fmap_compose.
  erewrite (list_fmap_ext _ id); [by rewrite list_fmap_id|done].
Qed.

Lemma level_of_inr lv : level_of nc ec = inr lv ↔
  (lv = LNode ∧ nc = Cqacc ∧ ec ≠ Cqacc) ∨ (lv = LEdge ∧ nc ≠ Cqacc ∧ ec = Cqacc).
Proof.
  unfold level_of.
  destruct (decide (nc = Cqacc)), (decide (ec = Cqacc)), lv;
    split; intros Hc; simplify_eq; intuition congruence.
Qed.
End Lemmas.

(** ** Properties *)

(** Which pairs survive the filter, and with which ratio. *)
Lemma filter_hits_spec nc ec rows lv out :
  level_of nc ec = inr lv → filter_hits nc ec rows = inr out →
  (∀ k, k ∈ fkey <$> out ↔
     (∃ h, h ∈ read_rows rows ∧ key_of nc ec h = k) ∧
     (threshold <= best_score nc ec (read_rows rows) k /
                   raw_top nc ec lv (read_rows rows) k)%Q) ∧
  (∀ r, r ∈ out → fperc r == best_score nc ec (read_rows rows) (fkey r) /
                           raw_top nc ec lv (read_rows rows) (fkey r)).
Proof.
  intros Hlv Hout. split.
  - intros k. rewrite list_elem_of_fmap. split.
    + intros (r & -> & Hr). apply (elem_of_filter_hits nc ec rows out r Hout) in Hr
        as (lv' & e & Hlv' & He & -> & Hkeep). rewrite Hlv in Hlv'. injection Hlv' as <-.
      pose proof He as [Hex He2]%elem_of_best_hits. simpl. split; [done|].
      unfold keep in Hkeep. apply Qle_bool_iff in Hkeep. simpl in Hkeep.
      by rewrite <-top_score_raw, <-He2.
    + intros [Hex Hge]. exists (annotate lv (best_hits nc ec (read_rows rows))
        (k, best_score nc ec (read_rows rows) k)). split; [done|].
      apply (elem_of_filter_hits nc ec rows out _ Hout).
      exists lv, (k, best_score nc ec (read_rows rows) k).
      split; [done|]. split; [apply elem_of_best_hits; eauto|]. split; [done|].
      unfold keep, annotate. apply Qle_bool_iff. cbn [fperc fst snd].
      by rewrite (top_score_raw nc ec lv _ k Hex).
  - intros r Hr. apply (elem_of_filter_hits nc ec rows out r Hout) in Hr
      as (lv' & e & Hlv' & He & -> & _). rewrite Hlv in Hlv'. injection Hlv' as <-.
    pose proof He as [Hex He2]%elem_of_best_hits. simpl.
    by rewrite <-top_score_raw, <-He2.
Qed.

(** The best score of a pair is at most the top raw score of its group. *)
Lemma best_le_raw_top nc ec lv rows k :
  (∃ h, h ∈ rows ∧ key_of nc ec h = k) →
  (best_score nc ec rows k <= raw_top nc ec lv rows k)%Q.
Proof.
  intros Hex. destruct (best_score_attained nc ec rows k Hex) as (h & Hh & Hk & ->).
  unfold raw_top. apply qmax_list_upper, list_elem_of_fmap_2, list_elem_of_filter.
  split; [by rewrite Hk|done].
Qed.

Lemma Qdiv_neg_ge_1 b t : (b <= t)%Q → (t < 0)%Q → (1 <= b / t)%Q.
Proof.
  intros Hb Ht. assert (b / t == (- b) / (- t))%Q as -> by (field; intros Hc; rewrite Hc in Ht; discriminate).
  apply Qle_shift_div_l; lra.
Qed.

(** C1: A (node, edge) pair survives the filter exactly when it occurs in
    the first 500 rows and its best score is at least 0.9 times the top
    raw score of its "qacc" group; its ratio is that quotient. *)
Theorem filter_hits_correct nc ec rows lv out :
  level_of nc ec = inr lv → filter_hits nc ec rows = inr out →
  (∀ k, k ∈ fkey <$> out ↔
     (∃ h, h ∈ read_rows rows ∧ key_of nc ec h = k) ∧
     (threshold <= best_score nc ec (read_rows rows) k /
                   raw_top nc ec lv (read_rows rows) k)%Q) ∧
  (∀ r, r ∈ out → fperc r == best_score nc ec (read_rows rows) (fkey r) /
                           raw_top nc ec lv (read_rows rows) (fkey r)).
Proof. apply filter_hits_spec. Qed.

(** C5: The surviving (node, edge) keys are strictly increasing, in the
    order of the sorted MultiIndex of line 28, so no two surviving rows
    share a (node, edge) pair. *)
Theorem filter_hits_keys_sorted nc ec rows out :
  filter_hits nc ec rows = inr out → StronglySorted key_lt (fkey <$> out).
Proof.
  intros Hout. eapply StronglySorted_sublist;
    [by apply (filter_hits_keys_sublist nc ec)|apply sort_unique_sorted].
Qed.

(** C3: When every bitscore read is positive, every surviving ratio lies
    between 0.9 and 1. *)
Theorem filter_hits_perc_bounds nc ec rows out :
  Forall (λ h, 0 < bitscore h)%Q (read_rows rows) →
  filter_hits nc ec rows = inr out →
  ∀ r, r ∈ out → (threshold <= fperc r <= 1)%Q.
Proof.
  intros Hpos Hout r Hr.
  apply (elem_of_filter_hits nc ec rows out r Hout) in Hr
    as (lv & e & _ & He & -> & Hkeep).
  unfold keep in Hkeep. apply Qle_bool_iff in Hkeep. split; [done|].
  pose proof He as [(h & Hh & Hk) He2]%elem_of_best_hits.
  destruct (best_score_attained nc ec _ e.1 (ex_intro _ h (conj Hh Hk)))
    as (h' & Hh' & Hk' & Hbest).
  rewrite Forall_forall in Hpos. specialize (Hpos h' Hh').
  assert (e.2 <= top_score lv (best_hits nc ec (read_rows rows)) e.1)%Q as Hle.
  { apply qmax_list_upper, list_elem_of_fmap. exists e. split; [done|].
    by apply list_elem_of_filter. }
  unfold annotate; cbn [fperc]. rewrite He2, Hbest in *.
  apply Qle_shift_div_r; lra.
Qed.

(** C4: A group whose top score is negative is never dropped.  The best
    score of each of its pairs is at most the top, so the ratio of the
    two negative numbers is at least 1: every pair of such a query
    survives, with a ratio outside [0.9, 1] as soon as it scores below
    the top. *)
Theorem filter_hits_negative_top_kept nc ec rows lv out k :
  level_of nc ec = inr lv → filter_hits nc ec rows = inr out →
  (∃ h, h ∈ read_rows rows ∧ key_of nc ec h = k) →
  (raw_top nc ec lv (read_rows rows) k < 0)%Q →
  ∃ r, r ∈ out ∧ fkey r = k ∧ (1 <= fperc r)%Q.
Proof.
  intros Hlv Hout Hex Hneg. destruct (filter_hits_spec nc ec rows lv out Hlv Hout) as [Hk Hp].
  pose proof (Qdiv_neg_ge_1 _ _ (best_le_raw_top nc ec lv _ k Hex) Hneg) as H1.
  assert (k ∈ fkey <$> out) as (r & -> & Hr)%list_elem_of_fmap
    by (apply Hk; split; [done|unfold threshold in *; lra]).
  exists r. split; [done|]. split; [done|]. by rewrite (Hp r Hr).
Qed.

(** Only the first 500 rows are read: rows after the 500th never
    change the result. *)
Theorem filter_hits_row_cap nc ec rows extra :
  nrows ≤ length rows → filter_hits nc ec (rows ++ extra) = filter_hits nc ec rows.
Proof. intros Hlen. unfold filter_hits, read_rows. by rewrite take_app_le. Qed.

(** C6: The filter fails exactly when "qacc" names no index level (a
    [KeyError]) or both levels (a [ValueError]); otherwise it returns. *)
Theorem filter_hits_error nc ec rows :
  (∃ e, filter_hits nc ec rows = inl e) ↔ (nc = Cqacc ↔ ec = Cqacc).
Proof.
  unfold filter_hits, level_of.
  destruct (decide (nc = Cqacc)), (decide (ec = Cqacc)); simpl;
    split; intros Hc; try destruct Hc as [? Hc]; simplify_eq; intuition (eauto || congruence).
Qed.

(** ** Witnesses on a concrete table

    Query q1 hits t1 twice (100 and 60) and t2 once (80); q2 hits t1
    (50).  The best pairs are (q1,t1)=100, (q1,t2)=80, (q2,t1)=50. *)
Definition ex_rows : list hit :=
  [mk_hit "q1" "t1" 100 0 "s"; mk_hit "q1" "t2" 80 0 "s";
   mk_hit "q1" "t1" 60 0 "s"; mk_hit "q2" "t1" 50 0 "s"].

Definition ex_out : list frow :=
  match filter_hits Cqacc Csacc ex_rows with inr o => o | inl _ => [] end.

Lemma ex_out_eq : filter_hits Cqacc Csacc ex_rows = inr ex_out.
Proof. vm_compute. reflexivity. Qed.

(** Scenario D of the spec: (q1,t2) scores 80 < 0.9 * 100 and is
    dropped, while (q1,t1) stays. *)
Lemma filter_hits_correct_witness :
  (("q1", "t2") ∉ fkey <$> ex_out) ∧ (("q1", "t1") ∈ fkey <$> ex_out).
Proof.
  destruct (filter_hits_correct Cqacc Csacc ex_rows LNode ex_out eq_refl
    ltac:(vm_compute; reflexivity)) as [Hk _].
  split.
  - rewrite Hk. intros [_ Hge]. vm_compute in Hge. apply Hge. reflexivity.
  - apply Hk. split.
    + exists (mk_hit "q1" "t1" 100 0 "s"). split; [left|reflexivity].
    + vm_compute. intros Hc. discriminate Hc.
Defined.

Lemma filter_hits_keys_sorted_witness : StronglySorted key_lt (fkey <$> ex_out).
Proof. apply (filter_hits_keys_sorted Cqacc Csacc ex_rows). vm_compute. reflexivity. Defined.

Lemma filter_hits_perc_bounds_witness : Forall (λ r, threshold <= fperc r <= 1)%Q ex_out.
Proof.
  apply Forall_forall, (filter_hits_perc_bounds Cqacc Csacc ex_rows).
  - repeat constructor.
  - vm_compute. reflexivity.
Defined.

Lemma filter_hits_row_cap_witness :
  filter_hits Cqacc Csacc (replicate 500 (mk_hit "q1" "t1" 1 0 "s") ++ [mk_hit "q2" "t1" 9 0 "s"]) =
  filter_hits Cqacc Csacc (replicate 500 (mk_hit "q1" "t1" 1 0 "s")).
Proof. apply filter_hits_row_cap. rewrite length_replicate. reflexivity. Defined.

(** A query whose hits score -2 and -1 keeps its worse hit, with ratio 2. *)
Lemma filter_hits_negative_top_kept_witness :
  ∃ r, r ∈ [mk_frow ("q1", "t1") (-2) (-1) (-2 / -1); mk_frow ("q1", "t2") (-1) (-1) (-1 / -1)] ∧
    fkey r = ("q1", "t1") ∧ (1 <= fperc r)%Q.
Proof.
  refine (filter_hits_negative_top_kept Cqacc Csacc
            [mk_hit "q1" "t1" (-2) 0 "s"; mk_hit "q1" "t2" (-1) 0 "s"] LNode _ ("q1", "t1")
            eq_refl _ _ _).
  - vm_compute. reflexivity.
  - exists (mk_hit "q1" "t1" (-2) 0 "s"). split; [left|reflexivity].
  - vm_compute. reflexivity.
Defined.

End HitFilter.
