(* ===== verification/OverlapEdges.v ===== *)
(** * OverlapEdges: edges from shared edge names

    Models lines 38-93 of src/src/blast_to_graph.py: the sorted node
    names, the sorted edge names of each node, the double loop over node
    pairs i < j that emits one row per shared edge name and counts rows
    per node, the removal of nodes without rows, the [groupby .. sum]
    merge of the rows of one pair and the renaming of nodes by index.
    The loop body's [blast.loc] lookups may raise [KeyError] in the code;
    the model threads that error and the theorems show it never occurs. *)

From S2P Require Import Prelude HitFilter.

Module OverlapEdges.
Import HitFilter.

(** Line 38: [np.array(sorted(blast.index.get_level_values(node_col).unique()))] *)
Definition node_names (fs : list frow) : list string :=
  sort_unique ((λ r, (fkey r).1) <$> fs).

(** Line 41: [node_edges.loc[n, edge_col]], the sorted distinct edge
    names of node [n]. *)
Definition node_edges (fs : list frow) (n : string) : list string :=
  sort_unique ((λ r, (fkey r).2) <$> filter (λ r, (fkey r).1 = n) fs).

(** Lines 76-77: [blast.loc[(node, edge_name), "bitscore_perc"]]. *)
Definition loc_perc (fs : list frow) (k : key) : result Q :=
  match list_find (λ r, fkey r = k) fs with
  | Some (_, r) => mret (fperc r)
  | None => throw (KeyError k.1)
  end.

(** A row of [edges_all]: columns node1, node2, edge, weight. *)
Record edge_row := mk_row {
  node1 : string;
  node2 : string;
  edge : string;
  weight : Q
}.

(** The loop state: [edges_all] and [node_num_edges]. *)
Record loop_state := mk_state {
  edges_all : list edge_row;
  node_num_edges : list nat
}.

(** Lines 65-69: the list the inner loop walks and the list it searches.
    The code names them [shorter] and [longer] but swaps them only when
    the first is strictly shorter, so the walked list is the longer one. *)
Definition choose_driver (neighbors_i neighbors_j : list string) : list string * list string :=
  if decide (length neighbors_i < length neighbors_j)
  then (neighbors_j, neighbors_i) else (neighbors_i, neighbors_j).

(** Lines 74-83, for one edge name of the walked list. *)
Definition scan_step (fs : list frow) (i j : nat) (node_i node_j : string)
    (longer : list string) (st : loop_state) (edge_name : string) : result loop_state :=
  if decide (edge_name ∈ longer) then
    weight_i ← loc_perc fs (node_i, edge_name);
    weight_j ← loc_perc fs (node_j, edge_name);
    let weight_avg := ((1 # 2) * (weight_i + weight_j))%Q in
    mret (mk_state (edges_all st ++ [mk_row node_i node_j edge_name weight_avg])
                   (alter S j (alter S i (node_num_edges st))))
  else mret st.

(** Lines 59-83: the body of the middle loop for the pair (i, j). *)
Definition pair_step (fs : list frow) (names : list string) (i : nat)
    (st : loop_state) (j : nat) : result loop_state :=
  let node_i := default "" (names !! i) in
  let node_j := default "" (names !! j) in
  let '(shorter, longer) := choose_driver (node_edges fs node_i) (node_edges fs node_j) in
  fold_result (scan_step fs i j node_i node_j longer) shorter st.

(** Lines 51-83: [for i in range(n): for j in range(i + 1, n)]. *)
Definition find_edges (fs : list frow) (names : list string) : result loop_state :=
  let n := length names in
  fold_result
    (λ st i, fold_result (pair_step fs names i) (seq (S i) (n - S i)) st)
    (seq 0 n) (mk_state [] (replicate n 0)).

(** Line 86: [node_names[node_num_edges > 0]]. *)
Definition kept_names (names : list string) (counts : list nat) : list string :=
  fst <$> filter (λ p, 0 < p.2) (zip names counts).

(** Line 89: [edges_all.groupby(["node1", "node2"]).agg({"weight": "sum"})],
    one row per distinct pair in sorted order, the weights summed in row
    order. *)
Definition pair_weight (rows : list edge_row) (p : string * string) : Q :=
  qsum (weight <$> filter (λ r, (node1 r, node2 r) = p) rows).

Definition merge_rows (rows : list edge_row) : list (string * string * Q) :=
  (λ p, (p, pair_weight rows p)) <$> sort_unique ((λ r, (node1 r, node2 r)) <$> rows).

(** Lines 92-93: [node_names.index(n)] for both endpoints. *)
Definition rename (names : list string) (e : string * string * Q) : result (nat * nat * Q) :=
  a ← py_index names e.1.1;
  b ← py_index names e.1.2;
  mret (a, b, e.2).

(** The result of lines 38-93: the kept node names and the merged edges
    between their indices. *)
Record overlap := mk_overlap {
  ov_names : list string;
  ov_edges : list (nat * nat * Q)
}.

Definition build_overlap (fs : list frow) : result overlap :=
  let names := node_names fs in
  st ← find_edges fs names;
  let kept := kept_names names (node_num_edges st) in
  edges ← mapM (rename kept) (merge_rows (edges_all st));
  mret (mk_overlap kept edges).

(** ** The loop as a pure function

    The reference the theorems compare the loop with: for every pair
    i < j, one row per edge name of node i that node j also has, in node
    i's sorted order.  It walks no "shorter" list and looks nothing up. *)
Section Reference.
Context (fs : list frow) (names : list string).

Definition nm (i : nat) : string := default "" (names !! i).

Definition perc_of (k : key) : Q :=
  match list_find (λ r, fkey r = k) fs with Some (_, r) => fperc r | None => 0%Q end.

Definition row_of (i j : nat) (e : string) : edge_row :=
  mk_row (nm i) (nm j) e ((1 # 2) * (perc_of (nm i, e) + perc_of (nm j, e)))%Q.

Definition shared (i j : nat) : list string :=
  filter (λ e, e ∈ node_edges fs (nm j)) (node_edges fs (nm i)).

Definition pair_rows (i j : nat) : list edge_row := row_of i j <$> shared i j.

Definition pairs_from (n i : nat) : list nat := seq (S i) (n - S i).

Definition overlap_rows : list edge_row :=
  seq 0 (length names) ≫= λ i, pairs_from (length names) i ≫= pair_rows i.

(** [node_num_edges] after [c] rows of the pair (i, j). *)
Definition bump (i j c : nat) (counts : list nat) : list nat :=
  Nat.iter c (λ cs, alter S j (alter S i cs)) counts.
End Reference.

Section LoopLemmas.
Context (fs : list frow).

Lemma elem_of_node_edges n e : e ∈ node_edges fs n ↔ (n, e) ∈ fkey <$> fs.
Proof.
  unfold node_edges. rewrite elem_of_sort_unique, !list_elem_of_fmap.
  setoid_rewrite list_elem_of_filter. split.
  - intros (r & -> & Hn & Hr). exists r. split; [|done]. destruct (fkey r); simpl in *; by subst.
  - intros (r & Hk & Hr). exists r. by rewrite <-Hk.
Qed.

Lemma node_edges_sorted n : StronglySorted key_lt (node_edges fs n).
Proof. apply sort_unique_sorted. Qed.

Lemma loc_perc_elem k : k ∈ fkey <$> fs → loc_perc fs k = inr (perc_of fs k).
Proof.
  intros (r & -> & Hr)%list_elem_of_fmap. unfold loc_perc, perc_of.
  destruct (list_find (λ r', fkey r' = fkey r) fs) as [[? r']|] eqn:Hf; [done|].
  rewrite list_find_None, Forall_forall in Hf. by destruct (Hf r Hr).
Qed.

(** Either driver walks the same common edge names in the same order. *)
Lemma choose_driver_shared (l1 l2 : list string) :
  StronglySorted key_lt l1 → StronglySorted key_lt l2 →
  (let '(sh, lo) := choose_driver l1 l2 in filter (λ e, e ∈ lo) sh) =
  filter (λ e, e ∈ l2) l1.
Proof.
  intros Hs1 Hs2. unfold choose_driver.
  case_decide; [by apply filter_elem_comm|done].
Qed.

Lemma bump_S i j c cs : bump i j c (alter S j (alter S i cs)) = bump i j (S c) cs.
Proof. unfold bump. induction c as [|c IH]; simpl; [done|by rewrite IH]. Qed.

Lemma scan_step_hit names i j longer st e :
  e ∈ longer → (nm names i, e) ∈ fkey <$> fs → (nm names j, e) ∈ fkey <$> fs →
  scan_step fs i j (nm names i) (nm names j) longer st e =
  inr (mk_state (edges_all st ++ [row_of fs names i j e])
                (alter S j (alter S i (node_num_edges st)))).
Proof.
  intros He Hi Hj. unfold scan_step. rewrite decide_True by done.
  by rewrite (loc_perc_elem _ Hi), (loc_perc_elem _ Hj).
Qed.

Lemma scan_step_miss i j node_i node_j longer st e :
  e ∉ longer → scan_step fs i j node_i node_j longer st e = inr st.
Proof. intros He. unfold scan_step. by rewrite decide_False. Qed.

Lemma scan_pure names i j longer shorter st :
  (∀ e, e ∈ shorter → e ∈ longer →
    (nm names i, e) ∈ fkey <$> fs ∧ (nm names j, e) ∈ fkey <$> fs) →
  fold_result (scan_step fs i j (nm names i) (nm names j) longer) shorter st =
  inr (mk_state (edges_all st ++ (row_of fs names i j <$> filter (λ e, e ∈ longer) shorter))
                (bump i j (length (filter (λ e, e ∈ longer) shorter)) (node_num_edges st))).
Proof.
  revert st. induction shorter as [|e sh IH]; intros st Hin; cbn [fold_result].
  - by rewrite app_nil_r; destruct st.
  - assert (∀ e', e' ∈ sh → e' ∈ longer →
      (nm names i, e') ∈ fkey <$> fs ∧ (nm names j, e') ∈ fkey <$> fs) as Hin'
      by (intros; apply Hin; [by right|done]).
    rewrite filter_cons. destruct (decide (e ∈ longer)) as [He|He].
    + destruct (Hin e ltac:(by left) He) as [Hi Hj].
      rewrite scan_step_hit by done. simpl. rewrite IH by done. simpl.
      rewrite <-app_assoc, bump_S. done.
    + rewrite scan_step_miss by done. simpl. by rewrite IH.
Qed.

Lemma pair_step_pure names i j st :
  pair_step fs names i st j =
  inr (mk_state (edges_all st ++ pair_rows fs names i j)
                (bump i j (length (pair_rows fs names i j)) (node_num_edges st))).
Proof.
  unfold pair_step, pair_rows, shared. fold (nm names i) (nm names j).
  pose proof (choose_driver_shared _ _ (node_edges_sorted (nm names i))
                                       (node_edges_sorted (nm names j))) as Hdrv.
  destruct (choose_driver _ _) as [sh lo] eqn:Hc.
  rewrite scan_pure, Hdrv, length_fmap; [done|].
  intros e Hsh Hlo. rewrite <-!elem_of_node_edges.
  unfold choose_driver in Hc. case_decide; simplify_eq; auto.
Qed.

Lemma find_edges_pure names :
  find_edges fs names =
  inr (foldl (λ st i, foldl (λ st j,
         mk_state (edges_all st ++ pair_rows fs names i j)
                  (bump i j (length (pair_rows fs names i j)) (node_num_edges st)))
         st (pairs_from (length names) i))
       (mk_state [] (replicate (length names) 0)) (seq 0 (length names))).
Proof.
  unfold find_edges. apply fold_result_pure. intros st i _.
  apply fold_result_pure. intros st' j _. apply pair_step_pure.
Qed.
Definition loop_body (names : list string) (i : nat) (st : loop_state) (j : nat) : loop_state :=
  mk_state (edges_all st ++ pair_rows fs names i j)
           (bump i j (length (pair_rows fs names i j)) (node_num_edges st)).

Lemma edges_all_inner names i js st :
  edges_all (foldl (loop_body names i) st js) = edges_all st ++ (js ≫= pair_rows fs names i).
Proof.
  revert st. induction js as [|j js IH]; intros st; simpl; [by rewrite app_nil_r|].
  rewrite IH. simpl. by rewrite app_assoc.
Qed.

Lemma edges_all_outer names idx st :
  edges_all (foldl (λ st i, foldl (loop_body names i) st (pairs_from (length names) i)) st idx) =
  edges_all st ++ (idx ≫= λ i, pairs_from (length names) i ≫= pair_rows fs names i).
Proof.
  revert st. induction idx as [|i idx IH]; intros st; simpl; [by rewrite app_nil_r|].
  rewrite IH, edges_all_inner. by rewrite app_assoc.
Qed.

Lemma elem_of_pair_rows names i j r :
  r ∈ pair_rows fs names i j ↔ ∃ e, r = row_of fs names i j e ∧
    (nm names i, e) ∈ fkey <$> fs ∧ (nm names j, e) ∈ fkey <$> fs.
Proof.
  unfold pair_rows, shared. rewrite list_elem_of_fmap.
  setoid_rewrite list_elem_of_filter. setoid_rewrite elem_of_node_edges. naive_solver.
Qed.

Lemma node_names_sorted : StronglySorted key_lt (node_names fs).
Proof. apply sort_unique_sorted. Qed.

Lemma elem_of_node_names n : n ∈ node_names fs ↔ ∃ e, (n, e) ∈ fkey <$> fs.
Proof.
  unfold node_names. rewrite elem_of_sort_unique, list_elem_of_fmap.
  setoid_rewrite list_elem_of_fmap. split.
  - intros (r & -> & Hr). exists (fkey r).2. exists r. by destruct (fkey r).
  - intros (e & r & Hk & Hr). exists r. by rewrite <-Hk.
Qed.
End LoopLemmas.

(** ** Properties of the loop *)

Lemma find_edges_overlap fs :
  ∃ st, find_edges fs (node_names fs) = inr st ∧
        edges_all st = overlap_rows fs (node_names fs).
Proof.
  eexists. split; [apply find_edges_pure|].
  rewrite (edges_all_outer fs (node_names fs) _ (mk_state [] _)). done.
Qed.

Lemma overlap_rows_iff fs r :
  r ∈ overlap_rows fs (node_names fs) ↔
  node1 r <ₖ node2 r ∧
  (node1 r, edge r) ∈ fkey <$> fs ∧ (node2 r, edge r) ∈ fkey <$> fs ∧
  weight r = ((1 # 2) * (perc_of fs (node1 r, edge r) + perc_of fs (node2 r, edge r)))%Q.
Proof.
  unfold overlap_rows. rewrite list_elem_of_bind. setoid_rewrite list_elem_of_bind.
  setoid_rewrite elem_of_pair_rows. unfold pairs_from. setoid_rewrite elem_of_seq. split.
  - intros (i & (j & (e & -> & Hi & Hj) & Hj1 & Hj2) & _ & Hi2). simpl.
    assert (is_Some (node_names fs !! i)) as [a Ha] by (apply lookup_lt_is_Some; lia).
    assert (is_Some (node_names fs !! j)) as [b Hb] by (apply lookup_lt_is_Some; lia).
    unfold nm in *. rewrite Ha, Hb in *. simpl in *.
    split; [|done]. apply (StronglySorted_lookup_lt _ i j a b (node_names_sorted fs) Ha Hb). lia.
  - destruct r as [a b e w]; simpl. intros (Hab & Ha & Hb & ->).
    destruct (list_elem_of_lookup_1 (node_names fs) a) as [i Hi];
      [apply elem_of_node_names; eauto|].
    destruct (list_elem_of_lookup_1 (node_names fs) b) as [j Hj];
      [apply elem_of_node_names; eauto|].
    pose proof (proj2 (StronglySorted_lookup_lt _ i j a b (node_names_sorted fs) Hi Hj) Hab).
    pose proof (lookup_lt_Some _ _ _ Hj).
    exists i. split; [|lia]. exists j. split; [|lia].
    exists e. unfold row_of, nm. rewrite Hi, Hj. done.
Qed.

(** C7: The double loop never raises, and whichever list it walks (the
    code walks the longer one) it emits exactly the reference rows: for
    each pair i < j, one row per edge name of node i that node j also
    has, in sorted order. *)
Theorem find_edges_refines fs :
  ∃ st, find_edges fs (node_names fs) = inr st ∧
        edges_all st = overlap_rows fs (node_names fs).
Proof. apply find_edges_overlap. Qed.

(** C8: The double loop emits a row exactly for two nodes a < b (in
    string order) that both kept a hit on the same edge name.  The row's
    weight is the mean of the two ratios. *)
Theorem elem_of_find_edges fs st r :
  find_edges fs (node_names fs) = inr st →
  r ∈ edges_all st ↔
  node1 r <ₖ node2 r ∧
  (node1 r, edge r) ∈ fkey <$> fs ∧ (node2 r, edge r) ∈ fkey <$> fs ∧
  weight r = ((1 # 2) * (perc_of fs (node1 r, edge r) + perc_of fs (node2 r, edge r)))%Q.
Proof.
  intros Hst. destruct (find_edges_overlap fs) as (st' & Hst' & Hrows).
  rewrite Hst in Hst'. injection Hst' as <-. rewrite Hrows. apply overlap_rows_iff.
Qed.

(** ** The per-node counters *)

(** The number of rows that mention node [x]. *)
Definition mention_count (x : string) (rows : list edge_row) : nat :=
  length (filter (λ r, node1 r = x ∨ node2 r = x) rows).

Section Counters.
Context (fs : list frow).

Lemma lookup_bump i j c cs k :
  i ≠ j →
  bump i j c cs !! k =
  (λ x, x + (if decide (k = i) then c else 0) + (if decide (k = j) then c else 0)) <$> cs !! k.
Proof.
  intros Hij. unfold bump. induction c as [|c IH]; simpl.
  - destruct (cs !! k); simpl; repeat case_decide; (done || f_equal; lia).
  - destruct (decide (k = j)) as [->|Hkj];
      [rewrite list_lookup_alter, list_lookup_alter_ne by done
      |rewrite list_lookup_alter_ne by done; destruct (decide (k = i)) as [->|Hki];
        [rewrite list_lookup_alter|rewrite list_lookup_alter_ne by done]];
      rewrite IH; destruct (cs !! _); simpl; repeat case_decide; (done || f_equal; lia).
Qed.

Lemma length_bump i j c cs : length (bump i j c cs) = length cs.
Proof. unfold bump. induction c; simpl; [done|by rewrite !length_alter]. Qed.

Lemma mention_count_app x rows1 rows2 :
  mention_count x (rows1 ++ rows2) = mention_count x rows1 + mention_count x rows2.
Proof. unfold mention_count. by rewrite filter_app, length_app. Qed.

Lemma mention_count_uniform x a b rows :
  Forall (λ r, node1 r = a ∧ node2 r = b) rows →
  mention_count x rows = if decide (a = x ∨ b = x) then length rows else 0.
Proof.
  unfold mention_count. induction 1 as [|r rows [Ha Hb] _ IH]; simpl; [by case_decide|].
  rewrite filter_cons, Ha, Hb. case_decide; simpl; rewrite IH; by repeat case_decide.
Qed.

Lemma nm_inj names a b :
  NoDup names → a < length names → b < length names → nm names a = nm names b → a = b.
Proof.
  intros Hnd Ha Hb Hab. unfold nm in Hab.
  destruct (lookup_lt_is_Some_2 names a Ha) as [x Hx].
  destruct (lookup_lt_is_Some_2 names b Hb) as [y Hy]. rewrite Hx, Hy in Hab.
  simpl in Hab. subst. by eapply NoDup_lookup.
Qed.

Lemma mention_count_pair_rows names i j k :
  NoDup names → i < j → j < length names → k < length names →
  mention_count (nm names k) (pair_rows fs names i j) =
  (if decide (k = i) then length (pair_rows fs names i j) else 0) +
  (if decide (k = j) then length (pair_rows fs names i j) else 0).
Proof.
  intros Hnd Hij Hj Hk.
  rewrite (mention_count_uniform _ (nm names i) (nm names j)).
  2:{ apply Forall_forall. intros r (e & -> & _)%elem_of_pair_rows. done. }
  pose proof (nm_inj names i k Hnd ltac:(lia) Hk).
  pose proof (nm_inj names j k Hnd Hj Hk).
  repeat case_decide; subst; naive_solver lia.
Qed.

Definition counters_ok (names : list string) (st : loop_state) : Prop :=
  length (node_num_edges st) = length names ∧
  ∀ k, k < length names →
    node_num_edges st !! k = Some (mention_count (nm names k) (edges_all st)).

Lemma counters_ok_step names i j st :
  NoDup names → i < j → j < length names →
  counters_ok names st → counters_ok names (loop_body fs names i st j).
Proof.
  intros Hnd Hij Hj [Hlen Hcnt]. unfold loop_body. split; simpl; [by rewrite length_bump|].
  intros k Hk. rewrite lookup_bump by lia. rewrite Hcnt by done. simpl.
  rewrite mention_count_app, mention_count_pair_rows by done. f_equal. lia.
Qed.
Lemma counters_ok_find_edges names st :
  NoDup names → find_edges fs names = inr st → counters_ok names st.
Proof.
  intros Hnd. rewrite find_edges_pure. intros [= <-].
  apply foldl_invariant.
  - split; simpl; [by rewrite length_replicate|]. intros k Hk.
    by rewrite lookup_replicate_2 by done.
  - intros st' i Hi Hok. apply elem_of_seq in Hi.
    apply foldl_invariant; [done|]. intros st'' j Hj Hok'.
    unfold pairs_from in Hj. apply elem_of_seq in Hj.
    apply counters_ok_step; [done|lia|lia|done].
Qed.
End Counters.

(** C9: After the loop, [node_num_edges[k]] is the number of emitted rows
    that mention node k. *)
Theorem find_edges_counters fs st :
  find_edges fs (node_names fs) = inr st →
  ∀ k n, node_names fs !! k = Some n →
    node_num_edges st !! k = Some (mention_count n (edges_all st)).
Proof.
  intros Hst k n Hk. destruct (counters_ok_find_edges fs _ st (NoDup_sort_unique _) Hst)
    as [_ Hcnt].
  rewrite Hcnt by (by eapply lookup_lt_Some). unfold nm. by rewrite Hk at 1.
Qed.

(** ** The kept nodes and the whole stage *)

Section Kept.
Context (fs : list frow).

Lemma elem_of_kept_names names counts x :
  x ∈ kept_names names counts ↔
  ∃ k c, names !! k = Some x ∧ counts !! k = Some c ∧ 0 < c.
Proof.
  unfold kept_names. rewrite list_elem_of_fmap. split.
  - intros ([y c] & -> & [Hc Hin]%list_elem_of_filter).
    apply list_elem_of_lookup in Hin as [k Hk].
    apply lookup_zip_with_Some in Hk as (? & ? & [= <- <-] & ? & ?). simpl in *. eauto.
  - intros (k & c & Hx & Hc & Hpos). exists (x, c). split; [done|].
    apply list_elem_of_filter. split; [done|]. eapply list_elem_of_lookup_2.
    apply lookup_zip_with_Some. eauto.
Qed.

Lemma kept_names_sublist names counts : kept_names names counts `sublist_of` names.
Proof.
  unfold kept_names. revert counts.
  induction names as [|x names IH]; intros [|c counts]; simpl;
    [constructor|constructor|apply sublist_nil_l|].
  rewrite filter_cons. case_decide; simpl; [by apply sublist_skip|by apply sublist_cons].
Qed.

(** The loop's result, whichever way [build_overlap] succeeded. *)
Lemma find_edges_result st :
  find_edges fs (node_names fs) = inr st →
  edges_all st = overlap_rows fs (node_names fs) ∧ counters_ok (node_names fs) st.
Proof.
  intros Hst. destruct (find_edges_overlap fs) as (st' & Hst' & Hrows).
  rewrite Hst in Hst'. injection Hst' as <-. split; [done|].
  by apply (counters_ok_find_edges fs); [apply NoDup_sort_unique|].
Qed.

Lemma mentioned_iff x :
  (∃ r, r ∈ overlap_rows fs (node_names fs) ∧ (node1 r = x ∨ node2 r = x)) ↔
  ∃ m e, m ≠ x ∧ (x, e) ∈ fkey <$> fs ∧ (m, e) ∈ fkey <$> fs.
Proof.
  setoid_rewrite overlap_rows_iff. split.
  - intros (r & (Hlt & H1 & H2 & _) & [<-|<-]).
    + exists (node2 r), (edge r). split; [|done]. intros Heq. rewrite Heq in Hlt.
      by apply (irreflexivity key_lt (node1 r)).
    + exists (node1 r), (edge r). split; [|done]. intros Heq. rewrite Heq in Hlt.
      by apply (irreflexivity key_lt (node2 r)).
  - intros (m & e & Hne & Hx & Hm).
    destruct (key_lt_trichotomy x m) as [Hlt|[?|Hlt]]; [|done|].
    + exists (mk_row x m e ((1 # 2) * (perc_of fs (x, e) + perc_of fs (m, e)))%Q).
      simpl. by split_and!; try left.
    + exists (mk_row m x e ((1 # 2) * (perc_of fs (m, e) + perc_of fs (x, e)))%Q).
      simpl. by split_and!; try right.
Qed.

Lemma build_overlap_inv ov :
  build_overlap fs = inr ov →
  ∃ st, find_edges fs (node_names fs) = inr st ∧
    ov_names ov = kept_names (node_names fs) (node_num_edges st) ∧
    mapM (rename (ov_names ov)) (merge_rows (edges_all st)) = inr (ov_edges ov).
Proof.
  unfold build_overlap. destruct (find_edges fs (node_names fs)) as [e|st]; [done|].
  simpl. destruct (mapM _ _) as [e|es] eqn:Hm; [done|]. simpl. intros [= <-].
  simpl. eauto.
Qed.

Lemma elem_of_kept x st :
  find_edges fs (node_names fs) = inr st →
  x ∈ kept_names (node_names fs) (node_num_edges st) ↔
  ∃ m e, m ≠ x ∧ (x, e) ∈ fkey <$> fs ∧ (m, e) ∈ fkey <$> fs.
Proof.
  intros Hst. destruct (find_edges_result st Hst) as [Hrows [_ Hcnt]].
  rewrite elem_of_kept_names, <-mentioned_iff, <-Hrows. split.
  - intros (k & c & Hk & Hc & Hpos).
    rewrite Hcnt in Hc by (by eapply lookup_lt_Some). unfold nm in Hc.
    rewrite Hk in Hc. injection Hc as <-.
    by apply length_filter_pos in Hpos.
  - intros Hm. assert (x ∈ node_names fs) as [k Hk]%list_elem_of_lookup.
    { apply elem_of_node_names. rewrite Hrows in Hm.
      destruct Hm as (r & (_ & H1 & H2 & _)%overlap_rows_iff & [<-|<-]); eauto. }
    exists k, (mention_count x (edges_all st)). split; [done|].
    split; [rewrite Hcnt by (by eapply lookup_lt_Some); unfold nm; by rewrite Hk|].
    by apply length_filter_pos.
Qed.
End Kept.

(** C10: A node is kept exactly when another node kept a hit on one of
    its edge names; a node sharing nothing is dropped (Scenario C). *)
Theorem build_overlap_names fs ov x :
  build_overlap fs = inr ov →
  x ∈ ov_names ov ↔ ∃ m e, m ≠ x ∧ (x, e) ∈ fkey <$> fs ∧ (m, e) ∈ fkey <$> fs.
Proof.
  intros (st & Hst & -> & _)%build_overlap_inv. by apply elem_of_kept.
Qed.

(** ** The merge of the rows of one pair *)

Section Merge.
Context (fs : list frow).

Lemma elem_of_merge_rows rows p w :
  (p, w) ∈ merge_rows rows ↔
  (∃ r, r ∈ rows ∧ (node1 r, node2 r) = p) ∧ w = pair_weight rows p.
Proof.
  unfold merge_rows. rewrite list_elem_of_fmap.
  setoid_rewrite elem_of_sort_unique. setoid_rewrite list_elem_of_fmap. naive_solver.
Qed.

Lemma filter_pair_rows names i j p :
  filter (λ r, (node1 r, node2 r) = p) (pair_rows fs names i j) =
  if decide ((nm names i, nm names j) = p) then pair_rows fs names i j else [].
Proof.
  unfold pair_rows. induction (shared fs names i j) as [|e es IH];
    [simpl; by case_decide|]. rewrite fmap_cons, filter_cons, IH. simpl. by repeat case_decide.
Qed.

(** The rows of one pair of the reference are that pair's block. *)
Lemma pair_weight_overlap i0 j0 :
  let names := node_names fs in
  i0 < j0 → j0 < length names →
  pair_weight (overlap_rows fs names) (nm names i0, nm names j0) =
  qsum (weight <$> pair_rows fs names i0 j0).
Proof.
  intros names Hij Hj. assert (NoDup names) as Hnd by apply NoDup_sort_unique.
  unfold pair_weight, overlap_rows. rewrite filter_bind.
  rewrite (bind_single _ _ i0); [|apply NoDup_seq|apply elem_of_seq; lia|].
  - unfold pairs_from. rewrite filter_bind.
    rewrite (bind_single _ _ j0); [|apply NoDup_seq|apply elem_of_seq; lia|].
    + rewrite filter_pair_rows. by rewrite decide_True.
    + intros j Hjin Hne. apply elem_of_seq in Hjin. rewrite filter_pair_rows.
      case_decide as Heq; [|done]. injection Heq as Heq.
      apply nm_inj in Heq; [done|done|lia|lia].
  - intros i Hiin Hne. apply elem_of_seq in Hiin. rewrite filter_bind. apply bind_nil.
    intros j Hjin. unfold pairs_from in Hjin. apply elem_of_seq in Hjin.
    rewrite filter_pair_rows. case_decide as Heq; [|done].
    injection Heq as Heq _. apply nm_inj in Heq; [done|done|lia|lia].
Qed.

Lemma rows_kept st r :
  find_edges fs (node_names fs) = inr st → r ∈ edges_all st →
  node1 r ∈ kept_names (node_names fs) (node_num_edges st) ∧
  node2 r ∈ kept_names (node_names fs) (node_num_edges st).
Proof.
  intros Hst Hr. destruct (find_edges_result fs st Hst) as [Hrows _].
  rewrite Hrows in Hr. rewrite !(elem_of_kept fs _ st Hst), <-!mentioned_iff.
  split; exists r; auto.
Qed.
End Merge.

Lemma ov_edges_spec fs ov a b w :
  build_overlap fs = inr ov → (a, b, w) ∈ ov_edges ov →
  ∃ x y, ov_names ov !! a = Some x ∧ ov_names ov !! b = Some y ∧ a < b ∧
    w = qsum ((λ e, (1 # 2) * (perc_of fs (x, e) + perc_of fs (y, e)))%Q <$>
              filter (λ e, e ∈ node_edges fs y) (node_edges fs x)).
Proof.
  intros (st & Hst & Hnames & Hm)%build_overlap_inv Hin.
  apply mapM_inr_inv in Hm. apply list_elem_of_lookup in Hin as [k Hk].
  destruct (Forall2_lookup_r _ _ _ _ _ Hm Hk) as ([[x y] w'] & Hk' & Hren).
  apply list_elem_of_lookup_2 in Hk'.
  apply elem_of_merge_rows in Hk' as [(r & Hr & Hxy) ->].
  destruct (find_edges_result fs st Hst) as [Hrows _].
  pose proof Hr as Hr'. rewrite Hrows in Hr'.
  apply overlap_rows_iff in Hr' as (Hlt & H1 & H2 & Hw).
  injection Hxy as <- <-.
  unfold rename in Hren. simpl in Hren.
  destruct (py_index _ (node1 r)) as [|a'] eqn:Ha; [done|]. simpl in Hren.
  destruct (py_index _ (node2 r)) as [|b'] eqn:Hb; [done|]. simpl in Hren.
  injection Hren as -> -> <-.
  apply py_index_lookup in Ha, Hb.
  exists (node1 r), (node2 r). split; [done|]. split; [done|]. split.
  { apply (StronglySorted_lookup_lt (ov_names ov) a b (node1 r) (node2 r)); [|done|done|done].
    rewrite Hnames. eapply StronglySorted_sublist;
      [apply kept_names_sublist|apply node_names_sorted]. }
  destruct (list_elem_of_lookup_1 (node_names fs) (node1 r)) as [i0 Hi0];
    [apply elem_of_node_names; eauto|].
  destruct (list_elem_of_lookup_1 (node_names fs) (node2 r)) as [j0 Hj0];
    [apply elem_of_node_names; eauto|].
  pose proof (proj2 (StronglySorted_lookup_lt _ i0 j0 _ _ (node_names_sorted fs) Hi0 Hj0) Hlt).
  pose proof (lookup_lt_Some _ _ _ Hj0).
  assert (nm (node_names fs) i0 = node1 r) as Hn1 by (unfold nm; by rewrite Hi0).
  assert (nm (node_names fs) j0 = node2 r) as Hn2 by (unfold nm; by rewrite Hj0).
  rewrite Hrows, <-Hn1, <-Hn2, pair_weight_overlap by done.
  unfold pair_rows, shared. rewrite <-list_fmap_compose. done.
Qed.

(** C11: Every merged edge joins two kept nodes x < y by their indices
    a < b, and its weight is the sum, over the edge names both nodes
    kept, of the mean of their two ratios. *)
Theorem build_overlap_edges fs ov a b w :
  build_overlap fs = inr ov → (a, b, w) ∈ ov_edges ov →
  ∃ x y, ov_names ov !! a = Some x ∧ ov_names ov !! b = Some y ∧ a < b ∧
    w = qsum ((λ e, (1 # 2) * (perc_of fs (x, e) + perc_of fs (y, e)))%Q <$>
              filter (λ e, e ∈ node_edges fs y) (node_edges fs x)).
Proof. apply ov_edges_spec. Qed.

Lemma build_overlap_ok fs : ∃ ov, build_overlap fs = inr ov.
Proof.
  destruct (find_edges_overlap fs) as (st & Hst & _).
  unfold build_overlap. rewrite Hst. simpl.
  destruct (mapM_inr (rename (kept_names (node_names fs) (node_num_edges st)))
                     (merge_rows (edges_all st))) as (ys & Hys & _).
  - intros [[p1 p2] w] Hx. apply elem_of_merge_rows in Hx as [(r & Hr & Hp) _].
    injection Hp as <- <-. destruct (rows_kept fs st r Hst Hr) as [H1 H2].
    destruct (py_index_elem_of _ _ H1) as (i & Hi & _).
    destruct (py_index_elem_of _ _ H2) as (j & Hj & _).
    unfold rename. simpl. rewrite Hi. simpl. rewrite Hj. simpl. eauto.
  - rewrite Hys. simpl. eauto.
Qed.

(** Lines 38-93 never raise: the [blast.loc] lookups always find
    their row and [node_names.index] always finds its node. *)
Theorem build_overlap_total fs : ∃ ov, build_overlap fs = inr ov.
Proof. apply build_overlap_ok. Qed.

(** The merged edges join distinct pairs of indices. *)
Lemma ov_pairs_NoDup fs ov :
  build_overlap fs = inr ov → NoDup ((λ e : nat * nat * Q, e.1) <$> ov_edges ov).
Proof.
  intros (st & _ & Hnames & Hm)%build_overlap_inv. apply mapM_inr_inv in Hm.
  apply (Forall2_NoDup_keys _ (λ e : string * string * Q, e.1) _ _ _ Hm).
  - intros [[x1 x2] w] [[a b] v] [[x1' x2'] w'] [[a' b'] v'].
    unfold rename. simpl.
    destruct (py_index _ x1) eqn:H1; [done|]. destruct (py_index _ x2) eqn:H2; [done|].
    destruct (py_index _ x1') eqn:H1'; [done|]. destruct (py_index _ x2') eqn:H2'; [done|].
    simpl. intros [= <- <- _] [= <- <- _] [= -> ->].
    apply py_index_lookup in H1, H2, H1', H2'. congruence.
  - unfold merge_rows. rewrite <-list_fmap_compose.
    rewrite (list_fmap_ext _ (λ p, p)); [rewrite fmap_id_lam; apply NoDup_sort_unique|done].
Qed.

(** ** Witnesses

    Scenario A of the spec: a and b both keep target t1, a with ratio 1
    and b with ratio 0.95 (b's best hit is t2 at 100); c keeps t2 too,
    and d shares nothing. *)
Definition ex_fs : list frow :=
  match filter_hits Cqacc Csacc
    [mk_hit "a" "t1" 100 0 "s"; mk_hit "b" "t1" 95 0 "s"; mk_hit "b" "t2" 100 0 "s";
     mk_hit "c" "t2" 100 0 "s"; mk_hit "d" "t9" 7 0 "s"] with
  | inr o => o | inl _ => [] end.

Definition ex_ov : overlap :=
  match build_overlap ex_fs with inr o => o | inl _ => mk_overlap [] [] end.

Lemma ex_ov_eq : build_overlap ex_fs = inr ex_ov.
Proof. vm_compute. reflexivity. Qed.

Definition ex_st : loop_state :=
  match find_edges ex_fs (node_names ex_fs) with inr st => st | inl _ => mk_state [] [] end.

(** The first row the loop emits on Scenario A joins a and b, which both
    kept a hit on t1. *)
Lemma elem_of_find_edges_witness :
  ∃ r, r ∈ edges_all ex_st ∧ node1 r <ₖ node2 r ∧ (node1 r, edge r) ∈ fkey <$> ex_fs.
Proof.
  assert (find_edges ex_fs (node_names ex_fs) = inr ex_st) as Hst by (vm_compute; reflexivity).
  assert (∃ r rs, edges_all ex_st = r :: rs) as (r & rs & E) by (vm_compute; eauto).
  assert (r ∈ edges_all ex_st) as Hr by (rewrite E; left).
  destruct (proj1 (elem_of_find_edges ex_fs ex_st r Hst) Hr) as (Hlt & Hin & _).
  exists r. split; [exact Hr|split; [exact Hlt|exact Hin]].
Defined.

Lemma find_edges_counters_witness :
  ∃ st, find_edges ex_fs (node_names ex_fs) = inr st ∧
        node_num_edges st !! 1 = Some (mention_count "b" (edges_all st)).
Proof.
  eexists. split; [vm_compute; reflexivity|].
  apply (find_edges_counters ex_fs); [vm_compute; reflexivity|vm_compute; reflexivity].
Defined.

(** Scenario C: d shares no target and is not kept. *)
Lemma build_overlap_names_witness : "d" ∉ ov_names ex_ov.
Proof.
  rewrite (build_overlap_names ex_fs ex_ov "d" ex_ov_eq).
  intros (m & e & Hne & Hd & Hm).
  assert (fkey <$> ex_fs = [("a", "t1"); ("b", "t1"); ("b", "t2"); ("c", "t2"); ("d", "t9")])
    as Hk by (vm_compute; reflexivity).
  rewrite Hk in Hd, Hm. apply list_elem_of_In in Hd, Hm. simpl in Hd, Hm.
  destruct Hd as [Hd|[Hd|[Hd|[Hd|[Hd|[]]]]]]; try discriminate Hd.
  injection Hd as <-.
  destruct Hm as [Hm|[Hm|[Hm|[Hm|[Hm|[]]]]]]; try discriminate Hm.
  injection Hm as <-. by apply Hne.
Defined.

(** Scenario A: the edge a-b weighs (1 + 0.95) / 2 = 0.975. *)
Lemma build_overlap_edges_witness :
  ∃ w, (0, 1, w) ∈ ov_edges ex_ov ∧ w == 975 # 1000.
Proof.
  eexists. split; [vm_compute; left|].
  destruct (build_overlap_edges ex_fs ex_ov 0 1 _ ex_ov_eq ltac:(vm_compute; left))
    as (x & y & Hx & Hy & _ & ->).
  vm_compute in Hx, Hy. injection Hx as <-. injection Hy as <-.
  vm_compute. reflexivity.
Defined.

End OverlapEdges.
