(* ===== verification/Graph.v ===== *)
(** * Graph: the igraph graph, its assembly and its components

    Models lines 98-107 and 112-118 of src/src/blast_to_graph.py: the
    igraph graph built from the kept names and merged edges (vertex
    weight 1), [graph.connected_components(mode='weak')] and
    [graph.subgraph(component)].  The igraph primitives are written out
    from their documented behaviour: [neighbors] lists the other end of
    every incident edge in increasing order, the components are listed
    by their least vertex with their vertices in increasing order, and an
    induced subgraph keeps vertex and edge order. *)

From S2P Require Import Prelude HitFilter OverlapEdges.

Module Graph.
Import OverlapEdges.

(** Vertex attributes: [name], [weight], [subgraph], [x], [y],
    [community].  An attribute igraph has not set is [None]. *)
Record vertex := mk_vertex {
  v_name : string;
  v_weight : nat;
  v_subgraph : option nat;
  v_x : option Q;
  v_y : option Q;
  v_community : option nat
}.

(** Edge endpoints and attributes: [weight], [subgraph], [community]. *)
Record edge := mk_edge {
  e_src : nat;
  e_dst : nat;
  e_weight : Q;
  e_subgraph : option nat;
  e_community : option nat
}.

Record graph := mk_graph {
  vs : list vertex;
  es : list edge
}.

Definition nv (g : graph) : nat := length (vs g).

(** Lines 98-107. *)
Definition assemble (ov : overlap) : graph :=
  mk_graph ((λ n, mk_vertex n 1 None None None None) <$> ov_names ov)
           ((λ '(a, b, w), mk_edge a b w None None) <$> ov_edges ov).

(** [g.neighbors(v)]: the other end of each incident edge, sorted; a
    loop contributes [v] twice. *)
Definition incident_ends (v : nat) (e : edge) : list nat :=
  (if decide (e_src e = v) then [e_dst e] else []) ++
  (if decide (e_dst e = v) then [e_src e] else []).

Definition neighbors (g : graph) (v : nat) : list nat :=
  merge_sort (≤) (es g ≫= incident_ends v).

(** ** Weak components

    One breadth-first layer: the set and its neighbours, as a sorted
    duplicate-free list. *)
Definition expand (g : graph) (S : list nat) : list nat :=
  sort_unique (S ++ (S ≫= neighbors g)).

(** Layers until nothing new is reached, at most [fuel] of them. *)
Fixpoint closure (g : graph) (fuel : nat) (S : list nat) : list nat :=
  match fuel with
  | 0 => S
  | S fuel' =>
      let S' := expand g S in
      if decide (length S' = length S) then S else closure g fuel' S'
  end.

(** The component of [v]: [nv g] layers always suffice. *)
Definition component_of (g : graph) (v : nat) : list nat :=
  closure g (nv g) (sort_unique [v]).

(** [graph.connected_components(mode='weak')]: a search from every vertex
    not yet reached, in increasing order. *)
Definition connected_components (g : graph) : list (list nat) :=
  foldl (λ comps v, if decide (v ∈ concat comps) then comps
                    else comps ++ [component_of g v]) [] (seq 0 (nv g)).

(** [graph.subgraph(component)]: the vertices of [c] in the order of [c],
    the edges with both ends in [c] renumbered by position. *)
Definition position (c : list nat) (v : nat) : nat :=
  default 0 (fst <$> list_find (λ u, u = v) c).

Definition subgraph (g : graph) (c : list nat) : graph :=
  mk_graph (omap (λ v, vs g !! v) c)
           ((λ e, mk_edge (position c (e_src e)) (position c (e_dst e))
                          (e_weight e) (e_subgraph e) (e_community e)) <$>
            filter (λ e, e_src e ∈ c ∧ e_dst e ∈ c) (es g)).

(** ** Well-formed graphs and reachability *)

(** Every edge joins two existing vertices. *)
Definition wf_graph (g : graph) : Prop :=
  ∀ e, e ∈ es g → e_src e < nv g ∧ e_dst e < nv g.

Inductive reachable (g : graph) (u : nat) : nat → Prop :=
  | reach_refl : reachable g u u
  | reach_step v w : reachable g u v → w ∈ neighbors g v → reachable g u w.

Lemma elem_of_neighbors g v w :
  w ∈ neighbors g v ↔
  ∃ e, e ∈ es g ∧ ((e_src e = v ∧ e_dst e = w) ∨ (e_dst e = v ∧ e_src e = w)).
Proof.
  unfold neighbors. rewrite (merge_sort_Permutation _ _), list_elem_of_bind.
  unfold incident_ends. setoid_rewrite elem_of_app.
  split.
  - intros (e & [Hw|Hw] & He); exists e; split; [done| |done|];
      case_decide; [apply list_elem_of_singleton in Hw; auto|by apply not_elem_of_nil in Hw|
                    apply list_elem_of_singleton in Hw; auto|by apply not_elem_of_nil in Hw].
  - intros (e & He & [[Hs Hd]|[Hd Hs]]); exists e; split; [|done| |done].
    + left. rewrite decide_True by done. by apply list_elem_of_singleton.
    + right. rewrite decide_True by done. by apply list_elem_of_singleton.
Qed.

Lemma neighbors_sym g v w : w ∈ neighbors g v → v ∈ neighbors g w.
Proof. rewrite !elem_of_neighbors. naive_solver. Qed.

Lemma reachable_trans g u v w : reachable g u v → reachable g v w → reachable g u w.
Proof. intros Huv Hvw. induction Hvw; [done|]. by eapply reach_step. Qed.

Lemma reachable_sym g u v : reachable g u v → reachable g v u.
Proof.
  induction 1 as [|v w _ IH Hw]; [constructor|].
  eapply reachable_trans; [|exact IH]. eapply reach_step; [constructor|].
  by apply neighbors_sym.
Qed.

Lemma elem_of_expand g S x :
  x ∈ expand g S ↔ x ∈ S ∨ ∃ v, v ∈ S ∧ x ∈ neighbors g v.
Proof.
  unfold expand. rewrite elem_of_sort_unique, elem_of_app, list_elem_of_bind.
  naive_solver.
Qed.

Section Closure.
Context (g : graph).
Hypothesis Hwf : wf_graph g.

Lemma neighbors_range v w : w ∈ neighbors g v → w < nv g.
Proof. intros (e & He & [[_ <-]|[_ <-]])%elem_of_neighbors; by apply Hwf. Qed.

Lemma closure_sound u fuel S :
  (∀ x, x ∈ S → reachable g u x) → ∀ x, x ∈ closure g fuel S → reachable g u x.
Proof.
  revert S. induction fuel as [|fuel IH]; intros S HS; simpl; [done|].
  case_decide; [done|]. apply IH. intros x [Hx|(v & Hv & Hx)]%elem_of_expand; [by auto|].
  eapply reach_step; [by apply HS|done].
Qed.

Lemma closure_incl fuel S x : x ∈ S → x ∈ closure g fuel S.
Proof.
  revert S. induction fuel as [|fuel IH]; intros S Hx; simpl; [done|].
  case_decide; [done|]. apply IH, elem_of_expand. by left.
Qed.

(** Enough fuel: a set of [k] vertices with [nv g + 1 ≤ k + fuel] grows
    to a set closed under [neighbors]. *)
Lemma closure_closed fuel S :
  NoDup S → (∀ x, x ∈ S → x < nv g) → nv g + 1 ≤ length S + fuel →
  ∀ x y, x ∈ closure g fuel S → y ∈ neighbors g x → y ∈ closure g fuel S.
Proof.
  revert S. induction fuel as [|fuel IH]; intros S Hnd Hrange Hlen.
  { pose proof (NoDup_seq_bound S (nv g) Hnd Hrange). lia. }
  assert (S ⊆ expand g S) as Hsub by (intros z Hz; apply elem_of_expand; by left).
  assert (NoDup (expand g S)) as Hnd' by apply NoDup_sort_unique.
  simpl. case_decide as Heq.
  - intros x y Hx Hy. apply (NoDup_subseteq_length_eq S (expand g S)); [done|lia|done|].
    apply elem_of_expand. eauto.
  - apply IH; [done| |].
    + intros z [Hz|(v & Hv & Hz)]%elem_of_expand; [by auto|]. by eapply neighbors_range.
    + pose proof (NoDup_subseteq_length S (expand g S) Hnd Hsub). lia.
Qed.
End Closure.

(** ** Properties of the components *)

Lemma component_of_iff g v u :
  wf_graph g → v < nv g → u ∈ component_of g v ↔ reachable g v u.
Proof.
  intros Hwf Hv. unfold component_of. split.
  - apply closure_sound. intros x Hx. rewrite elem_of_sort_unique in Hx.
    apply list_elem_of_singleton in Hx as ->. constructor.
  - induction 1 as [|w x _ IH Hx].
    + apply closure_incl. rewrite elem_of_sort_unique. by left.
    + eapply closure_closed; [done|apply NoDup_sort_unique| |simpl; lia|done|done].
      intros z Hz. rewrite elem_of_sort_unique in Hz. by apply list_elem_of_singleton in Hz as ->.
Qed.

(** C13: With [nv g] layers of fuel the search from [v] reaches exactly
    the vertices reachable from [v]: the fuel never runs out first. *)
Theorem component_of_reachable g v u :
  wf_graph g → v < nv g → u ∈ component_of g v ↔ reachable g v u.
Proof. apply component_of_iff. Qed.

Section Components.
Context (g : graph).
Hypothesis Hwf : wf_graph g.

Definition cc_step (comps : list (list nat)) (v : nat) : list (list nat) :=
  if decide (v ∈ concat comps) then comps else comps ++ [component_of g v].

Lemma reachable_range v u : v < nv g → reachable g v u → u < nv g.
Proof. intros Hv. induction 1; [done|]. by eapply neighbors_range. Qed.

Lemma closure_NoDup fuel S : NoDup S → NoDup (closure g fuel S).
Proof.
  revert S. induction fuel as [|fuel IH]; intros S Hnd; simpl; [done|].
  case_decide; [done|]. apply IH, NoDup_sort_unique.
Qed.

Lemma cc_step_mono comps v x : x ∈ concat comps → x ∈ concat (cc_step comps v).
Proof.
  unfold cc_step. case_decide; [done|]. rewrite concat_app, elem_of_app. by left.
Qed.

Lemma cc_step_covers comps v : v < nv g → v ∈ concat (cc_step comps v).
Proof.
  intros Hv. unfold cc_step. case_decide; [done|].
  rewrite concat_app, elem_of_app. right. simpl. rewrite app_nil_r.
  by apply component_of_iff; [|done|constructor].
Qed.

Lemma foldl_cc_covers l comps x :
  (∀ v, v ∈ l → v < nv g) →
  (x ∈ concat comps ∨ x ∈ l) → x ∈ concat (foldl cc_step comps l).
Proof.
  revert comps. induction l as [|v l IH]; intros comps Hl Hx; simpl.
  - destruct Hx as [?|?%not_elem_of_nil]; done.
  - apply IH; [intros; apply Hl; by right|].
    destruct Hx as [Hx|[->|Hx]%elem_of_cons].
    + left. by apply cc_step_mono.
    + left. apply cc_step_covers, Hl. by left.
    + by right.
Qed.

(** What the fold keeps true: each listed component is the component of
    one of its vertices, and no vertex is listed twice. *)
Definition cc_inv (comps : list (list nat)) : Prop :=
  (∀ c, c ∈ comps → ∃ v, v < nv g ∧ c = component_of g v) ∧ NoDup (concat comps).

Lemma cc_inv_step comps v : v < nv g → cc_inv comps → cc_inv (cc_step comps v).
Proof.
  intros Hv [Hcomp Hnd]. unfold cc_step. case_decide as Hin; [done|]. split.
  - intros c [Hc|Hc%list_elem_of_singleton]%elem_of_app; [by apply Hcomp|]. eauto.
  - rewrite concat_app. simpl. rewrite app_nil_r. apply NoDup_app. split; [done|].
    split; [|apply closure_NoDup, NoDup_sort_unique].
    intros x Hx Hx'. apply Hin. apply elem_of_concat in Hx as (c & Hxc & Hc).
    destruct (Hcomp c Hc) as (w & Hw & ->).
    apply elem_of_concat. exists (component_of g w). split; [|done].
    apply component_of_iff in Hxc; [|done|done].
    apply component_of_iff in Hx'; [|done|done].
    apply component_of_iff; [done|done|].
    eapply reachable_trans; [exact Hxc|]. by apply reachable_sym.
Qed.

Lemma cc_inv_components : cc_inv (connected_components g).
Proof.
  unfold connected_components. apply foldl_invariant.
  - split; [by intros ? ?%not_elem_of_nil|constructor].
  - intros comps v Hv Hinv. apply elem_of_seq in Hv. by apply cc_inv_step; [lia|].
Qed.
End Components.

Lemma cc_partition g :
  wf_graph g →
  (∀ v, v < nv g ↔ v ∈ concat (connected_components g)) ∧
  NoDup (concat (connected_components g)).
Proof.
  intros Hwf. destruct (cc_inv_components g Hwf) as [Hcomp Hnd]. split; [|done].
  intros v. split.
  - intros Hv. apply foldl_cc_covers; [done| |].
    + intros u Hu. apply elem_of_seq in Hu. lia.
    + right. apply elem_of_seq. lia.
  - intros (c & Hvc & Hc)%elem_of_concat. destruct (Hcomp c Hc) as (w & Hw & ->).
    apply component_of_iff in Hvc; [|done|done]. by eapply reachable_range.
Qed.

(** C14: The components partition the vertices: every vertex lies in one
    component, no vertex in two, and no component holds a non-vertex. *)
Theorem connected_components_partition g :
  wf_graph g →
  (∀ v, v < nv g ↔ v ∈ concat (connected_components g)) ∧
  NoDup (concat (connected_components g)).
Proof. apply cc_partition. Qed.

(** C15: An edge never leaves a component: its two ends lie in the same
    components. *)
Theorem connected_components_closed g c e :
  wf_graph g → c ∈ connected_components g → e ∈ es g →
  e_src e ∈ c ↔ e_dst e ∈ c.
Proof.
  intros Hwf Hc He. destruct (cc_inv_components g Hwf) as [Hcomp _].
  destruct (Hcomp c Hc) as (w & Hw & ->).
  rewrite !component_of_iff by done.
  assert (e_dst e ∈ neighbors g (e_src e)) as Hn by (apply elem_of_neighbors; eauto).
  split; intros Hr; [by eapply reach_step|].
  eapply reach_step; [exact Hr|]. by apply neighbors_sym.
Qed.

(** ** Simple graphs *)

(** A vertex with no loop and no parallel edge. *)
Definition simple_at (g : graph) (v : nat) : Prop :=
  NoDup (neighbors g v) ∧ v ∉ neighbors g v.

Lemma elem_of_incident_ends v e w :
  w ∈ incident_ends v e ↔ (e_src e = v ∧ e_dst e = w) ∨ (e_dst e = v ∧ e_src e = w).
Proof.
  unfold incident_ends. rewrite elem_of_app.
  repeat case_decide; rewrite ?list_elem_of_singleton; set_solver.
Qed.

(** A graph whose edges run from the lesser end to the greater one and
    join distinct pairs has no loop and no parallel edge. *)
Lemma simple_of_edges g :
  (∀ e, e ∈ es g → e_src e < e_dst e) → NoDup ((λ e, (e_src e, e_dst e)) <$> es g) →
  ∀ v, simple_at g v.
Proof.
  intros Hlt Hnd v. split.
  - unfold neighbors. rewrite (merge_sort_Permutation _ _).
    revert Hlt Hnd. generalize (es g) as l.
    induction l as [|e l IH]; intros Hlt Hnd; [constructor|].
    rewrite bind_cons. rewrite fmap_cons in Hnd. apply NoDup_cons in Hnd as [He Hnd].
    pose proof (Hlt e ltac:(by left)) as Hle.
    apply NoDup_app. split; [|split].
    + unfold incident_ends. repeat case_decide; simpl; try lia; repeat constructor; set_solver.
    + intros w Hw1 (e' & Hw2 & He')%list_elem_of_bind. apply He.
      pose proof (Hlt e' ltac:(by right)) as Hle'.
      apply elem_of_incident_ends in Hw1, Hw2. apply list_elem_of_fmap. exists e'.
      split; [|done]. f_equal; lia.
    + apply IH; [intros x Hx; apply Hlt; by right|done].
  - intros (e & He & Hends)%elem_of_neighbors. specialize (Hlt e He). lia.
Qed.

(** ** The assembled graph *)

Section Assembly.
Context (fs : list HitFilter.frow).

Lemma ov_names_NoDup ov : build_overlap fs = inr ov → NoDup (ov_names ov).
Proof.
  intros (st & _ & -> & _)%build_overlap_inv. apply StronglySorted_lt_NoDup.
  eapply StronglySorted_sublist; [apply kept_names_sublist|apply node_names_sorted].
Qed.

(** Every kept node is an end of some merged edge. *)
Lemma kept_has_edge ov x :
  build_overlap fs = inr ov → x ∈ ov_names ov →
  ∃ a b w, (a, b, w) ∈ ov_edges ov ∧
    (ov_names ov !! a = Some x ∨ ov_names ov !! b = Some x).
Proof.
  intros Hov Hx. pose proof Hov as (st & Hst & Hnames & Hm)%build_overlap_inv.
  destruct (find_edges_result fs st Hst) as [Hrows _].
  pose proof Hx as Hx'. rewrite Hnames, (elem_of_kept fs x st Hst), <-mentioned_iff in Hx'.
  destruct Hx' as (r & Hr & Hrx). rewrite <-Hrows in Hr.
  assert (((node1 r, node2 r), pair_weight (edges_all st) (node1 r, node2 r)) ∈
          merge_rows (edges_all st)) as [i Hi]%list_elem_of_lookup
    by (apply elem_of_merge_rows; eauto).
  apply mapM_inr_inv in Hm.
  destruct (Forall2_lookup_l _ _ _ _ _ Hm Hi) as ([[a b] w] & Hy & Hren).
  unfold rename in Hren. simpl in Hren.
  destruct (py_index _ (node1 r)) as [|a'] eqn:Ha; [done|]. simpl in Hren.
  destruct (py_index _ (node2 r)) as [|b'] eqn:Hb; [done|]. simpl in Hren.
  injection Hren as -> -> _. apply py_index_lookup in Ha, Hb.
  exists a, b, w. split; [by eapply list_elem_of_lookup_2|].
  destruct Hrx as [<-|<-]; auto.
Qed.
End Assembly.

Lemma assemble_ok fs ov :
  build_overlap fs = inr ov →
  wf_graph (assemble ov) ∧ ∀ e, e ∈ es (assemble ov) → e_src e < e_dst e.
Proof.
  intros Hov.
  assert (∀ e, e ∈ es (assemble ov) → e_src e < e_dst e < nv (assemble ov)) as Hall.
  { intros e (([a b] & w) & -> & Hin)%list_elem_of_fmap. simpl.
    destruct (ov_edges_spec fs ov a b w Hov Hin) as (x & y & Hx & Hy & Hab & _).
    unfold nv, assemble. simpl. rewrite length_fmap.
    split; [done|]. by eapply lookup_lt_Some. }
  split; [|intros e He; apply Hall, He].
  intros e He. specialize (Hall e He). lia.
Qed.

(** C16: The assembled graph is well formed and every edge runs from the
    smaller index to the larger, so it has no loop. *)
Theorem assemble_wf fs ov :
  build_overlap fs = inr ov →
  wf_graph (assemble ov) ∧ ∀ e, e ∈ es (assemble ov) → e_src e < e_dst e.
Proof. apply assemble_ok. Qed.

Lemma assemble_neighbors fs ov v :
  build_overlap fs = inr ov → v < nv (assemble ov) → neighbors (assemble ov) v ≠ [].
Proof.
  intros Hov Hv. unfold nv, assemble in Hv. simpl in Hv. rewrite length_fmap in Hv.
  destruct (lookup_lt_is_Some_2 _ _ Hv) as [x Hx].
  destruct (kept_has_edge fs ov x Hov) as (a & b & w & Hin & Hab);
    [by eapply list_elem_of_lookup_2|].
  pose proof (ov_names_NoDup fs ov Hov) as Hnd.
  intros Hnil.
  assert (mk_edge a b w None None ∈ es (assemble ov)) as He.
  { apply list_elem_of_fmap. by exists (a, b, w). }
  destruct Hab as [Ha|Hb].
  - assert (a = v) as -> by (eapply NoDup_lookup; eauto).
    assert (b ∈ neighbors (assemble ov) v) as Hn by (apply elem_of_neighbors; eexists; eauto).
    rewrite Hnil in Hn. by apply not_elem_of_nil in Hn.
  - assert (b = v) as -> by (eapply NoDup_lookup; eauto).
    assert (a ∈ neighbors (assemble ov) v) as Hn.
    { apply elem_of_neighbors. exists (mk_edge a v w None None). simpl. eauto. }
    rewrite Hnil in Hn. by apply not_elem_of_nil in Hn.
Qed.

(** No vertex of the assembled graph is isolated, so the neighbour
    list the contraction reads (line 139) is never empty (Scenario E). *)
Theorem assemble_no_isolated fs ov v :
  build_overlap fs = inr ov → v < nv (assemble ov) → neighbors (assemble ov) v ≠ [].
Proof. apply assemble_neighbors. Qed.

Lemma assemble_pairs_NoDup fs ov :
  build_overlap fs = inr ov → NoDup ((λ e, (e_src e, e_dst e)) <$> es (assemble ov)).
Proof.
  intros Hov. cbn [assemble es]. rewrite <-list_fmap_compose.
  rewrite (list_fmap_ext _ (λ e : nat * nat * Q, e.1)); [by eapply ov_pairs_NoDup|].
  by intros _ [[a b] w] _.
Qed.

(** The assembled graph has no loop and no parallel edge. *)
Lemma assemble_simple fs ov : build_overlap fs = inr ov → ∀ v, simple_at (assemble ov) v.
Proof.
  intros Hov. apply simple_of_edges; [apply (assemble_ok fs ov Hov)|].
  by eapply assemble_pairs_NoDup.
Qed.

Lemma closure_sorted g fuel S : StronglySorted key_lt S → StronglySorted key_lt (closure g fuel S).
Proof.
  revert S. induction fuel as [|fuel IH]; intros S Hs; simpl; [done|].
  case_decide; [done|]. apply IH, sort_unique_sorted.
Qed.

(** ** Witnesses *)

(** Two components, {0, 1, 2} and {3, 4, 5}; the edge 5-3 is stored
    backwards. *)
Definition ex_g : graph :=
  mk_graph (replicate 6 (mk_vertex "" 1 None None None None))
    [mk_edge 0 1 1 None None; mk_edge 1 2 1 None None;
     mk_edge 3 4 1 None None; mk_edge 5 3 1 None None].

Lemma ex_g_wf : wf_graph ex_g.
Proof.
  intros e He. apply list_elem_of_In in He. simpl in He.
  unfold nv; simpl. intuition (subst; simpl; lia).
Qed.

(** 2 is reachable from 0, found by running the search. *)
Lemma component_of_reachable_witness : reachable ex_g 0 2.
Proof.
  apply (component_of_reachable ex_g 0 2 ex_g_wf); [vm_compute; lia|].
  vm_compute. right. right. left.
Defined.

Lemma connected_components_partition_witness :
  (5 < nv ex_g ↔ 5 ∈ concat (connected_components ex_g)) ∧
  NoDup (concat (connected_components ex_g)).
Proof.
  destruct (connected_components_partition ex_g ex_g_wf) as [Hcov Hnd].
  split; [apply Hcov|exact Hnd].
Defined.

Lemma connected_components_closed_witness : 5 ∈ [3; 4; 5] ↔ 3 ∈ [3; 4; 5].
Proof.
  apply (connected_components_closed ex_g [3; 4; 5] (mk_edge 5 3 1 None None) ex_g_wf).
  - vm_compute. right. left.
  - apply list_elem_of_In. simpl. tauto.
Defined.

Lemma assemble_wf_witness :
  wf_graph (assemble OverlapEdges.ex_ov) ∧
  Forall (λ e, e_src e < e_dst e) (es (assemble OverlapEdges.ex_ov)).
Proof.
  destruct (assemble_wf OverlapEdges.ex_fs OverlapEdges.ex_ov OverlapEdges.ex_ov_eq)
    as [Hwf Hlt].
  split; [exact Hwf|]. apply Forall_forall, Hlt.
Defined.

Lemma assemble_no_isolated_witness : neighbors (assemble OverlapEdges.ex_ov) 2 ≠ [].
Proof.
  apply (assemble_no_isolated OverlapEdges.ex_fs OverlapEdges.ex_ov 2 OverlapEdges.ex_ov_eq).
  vm_compute. lia.
Defined.

End Graph.
