(* ===== verification/GroupKey.v ===== *)
(** * GroupKey: the string key of an equivalence group

    Models line 152 of src/src/blast_to_graph.py,
    [group_name = str(community) + "|" + ",".join(map(str, neighbors))],
    with Python's [str] of an int as stdpp's decimal [pretty] and of an
    unset attribute as "None".  The key is a faithful stand-in for the
    pair (community, neighbours) only because the encoding is injective;
    [group_name_inj] proves it, and the contraction relies on it. *)

From S2P Require Import Prelude.
From Stdlib Require Import Ascii.

Module GroupKey.

(** [str(x)] for an igraph attribute that is an int or unset. *)
Definition py_str_opt (c : option nat) : string :=
  match c with None => "None" | Some k => pretty k end.

(** [",".join(map(str, neighbors))] *)
Definition join_ints (l : list nat) : string := String.concat "," (pretty <$> l).

(** Line 152. *)
Definition group_name (community : option nat) (neighbors : list nat) : string :=
  py_str_opt community +:+ "|" +:+ join_ints neighbors.

(** ** Characters of the encoding *)

Fixpoint str_all (P : Ascii.ascii → Prop) (s : string) : Prop :=
  match s with EmptyString => True | String c s' => P c ∧ str_all P s' end.

Definition is_digit (c : Ascii.ascii) : Prop := (48 ≤ Ascii.N_of_ascii c ≤ 57)%N.

Lemma str_all_app P s t : str_all P (s +:+ t) ↔ str_all P s ∧ str_all P t.
Proof. induction s as [|c s IH]; simpl; [tauto|]. rewrite IH. tauto. Qed.

Lemma pretty_N_char_digit d : is_digit (pretty_N_char d).
Proof. unfold is_digit, pretty_N_char. repeat case_match; vm_compute; split; discriminate. Qed.

Lemma pretty_N_go_digits x s : str_all is_digit s → str_all is_digit (pretty_N_go x s).
Proof.
  revert s. induction (N.lt_wf_0 x) as [x _ IH]; intros s Hs.
  destruct (decide (x = 0)%N) as [->|Hx]; [by rewrite pretty_N_go_0|].
  rewrite pretty_N_go_step by lia. apply IH; [apply N.div_lt; lia|].
  split; [apply pretty_N_char_digit|done].
Qed.

Lemma pretty_digits (n : nat) : str_all is_digit (pretty n).
Proof.
  change (pretty n) with (pretty (N.of_nat n)). unfold pretty, pretty_N.
  destruct (decide (N.of_nat n = 0%N)); [vm_compute; split; [split; discriminate|done]|].
  by apply pretty_N_go_digits.
Qed.

Lemma pretty_nonempty (n : nat) : pretty n ≠ "".
Proof.
  change (pretty n) with (pretty (N.of_nat n)). unfold pretty, pretty_N.
  destruct (decide (N.of_nat n = 0%N)); [done|].
  rewrite pretty_N_go_step by lia. intros Hc.
  (* [pretty_N_go] only adds characters in front *)
  assert (∀ x s, s ≠ "" → pretty_N_go x s ≠ "") as Hne.
  { intros x. induction (N.lt_wf_0 x) as [x _ IH]; intros s Hs.
    destruct (decide (x = 0)%N) as [->|Hx]; [by rewrite pretty_N_go_0|].
    rewrite pretty_N_go_step by lia. apply IH; [apply N.div_lt; lia|done]. }
  eapply Hne; [|exact Hc]. done.
Qed.

(** ** Splitting at a separator *)

Lemma str_app_nil_r (s : string) : s +:+ "" = s.
Proof. induction s as [|c s IH]; [done|]. change (String c (s +:+ "") = String c s). by rewrite IH. Qed.

Lemma split_at_sep (c : Ascii.ascii) s1 s2 t1 t2 :
  str_all (λ d, d ≠ c) s1 → str_all (λ d, d ≠ c) s2 →
  s1 +:+ String c t1 = s2 +:+ String c t2 → s1 = s2 ∧ t1 = t2.
Proof.
  revert s2. induction s1 as [|d s1 IH]; intros [|e s2] H1 H2 Heq; simpl in *.
  - by injection Heq.
  - injection Heq as -> _. by destruct H2.
  - injection Heq as -> _. by destruct H1.
  - injection Heq as -> Heq. destruct (IH s2 (proj2 H1) (proj2 H2) Heq) as [-> ->]. done.
Qed.

Lemma digit_not_comma c : is_digit c → c ≠ ","%char.
Proof. intros Hd ->. vm_compute in Hd. destruct Hd as [H _]. by apply H. Qed.

Lemma digit_not_bar c : is_digit c → c ≠ "|"%char.
Proof. intros Hd ->. vm_compute in Hd. destruct Hd as [_ H]. by apply H. Qed.

Lemma str_all_impl (P Q : Ascii.ascii → Prop) s :
  (∀ c, P c → Q c) → str_all P s → str_all Q s.
Proof. intros HPQ. induction s; simpl; naive_solver. Qed.

Lemma join_ints_no_bar l : str_all (λ d, d ≠ "|"%char) (join_ints l).
Proof.
  unfold join_ints. induction l as [|x [|y l] IH]; simpl; [done| |].
  - eapply str_all_impl, pretty_digits. apply digit_not_bar.
  - apply str_all_app. split; [eapply str_all_impl, pretty_digits; apply digit_not_bar|].
    simpl. split; [done|]. apply IH.
Qed.

Lemma join_ints_inj l1 l2 : join_ints l1 = join_ints l2 → l1 = l2.
Proof.
  unfold join_ints. revert l2.
  induction l1 as [|x l1 IH]; intros [|y l2]; simpl; [done| | |].
  - intros Hc. destruct l2; [|destruct (pretty y); done]. by destruct (pretty_nonempty y).
  - intros Hc. destruct l1; [|destruct (pretty x); done]. by destruct (pretty_nonempty x).
  - assert (str_all (λ d, d ≠ ","%char) (pretty x)) as Hx
      by (eapply str_all_impl, pretty_digits; apply digit_not_comma).
    assert (str_all (λ d, d ≠ ","%char) (pretty y)) as Hy
      by (eapply str_all_impl, pretty_digits; apply digit_not_comma).
    destruct l1 as [|x' l1], l2 as [|y' l2]; simpl.
    + by intros ->%(inj pretty).
    + intros Heq. exfalso. rewrite <-(str_app_nil_r (pretty x)) in Heq.
      revert Heq Hx. generalize (pretty x). clear. intros s Heq Hs.
      assert (str_all (λ d, d ≠ ","%char) (s +:+ "")) as Hs' by (by rewrite str_app_nil_r).
      rewrite Heq in Hs'. apply str_all_app in Hs' as [_ [Hc _]]. done.
    + intros Heq. exfalso.
      assert (str_all (λ d, d ≠ ","%char) (pretty y)) as Hs by done. rewrite <-Heq in Hs.
      apply str_all_app in Hs as [_ [Hc _]]. done.
    + intros Heq. apply (split_at_sep ","%char _ _ _ _ Hx Hy) in Heq as [Hxy Hrest].
      apply (inj pretty) in Hxy as ->. f_equal. by apply (IH (y' :: l2)).
Qed.

Lemma py_str_opt_inj c1 c2 : py_str_opt c1 = py_str_opt c2 → c1 = c2.
Proof.
  destruct c1 as [k1|], c2 as [k2|]; simpl.
  - by intros ->%(inj pretty).
  - intros Heq. pose proof (pretty_digits k1) as Hd. rewrite Heq in Hd.
    vm_compute in Hd. destruct Hd as [[_ H] _]. by destruct H.
  - intros Heq. pose proof (pretty_digits k2) as Hd. rewrite <-Heq in Hd.
    vm_compute in Hd. destruct Hd as [[_ H] _]. by destruct H.
  - done.
Qed.

Lemma py_str_opt_no_bar c : str_all (λ d, d ≠ "|"%char) (py_str_opt c).
Proof.
  destruct c as [k|]; simpl; [|repeat split; discriminate].
  eapply str_all_impl, pretty_digits. apply digit_not_bar.
Qed.

Lemma group_name_eq c1 l1 c2 l2 :
  group_name c1 l1 = group_name c2 l2 ↔ c1 = c2 ∧ l1 = l2.
Proof.
  split; [|by intros [-> ->]].
  unfold group_name. intros Heq.
  apply (split_at_sep "|"%char _ _ _ _ (py_str_opt_no_bar c1) (py_str_opt_no_bar c2)) in Heq
    as [Hc Hl].
  split; [by apply py_str_opt_inj|by apply join_ints_inj].
Qed.

(** ** Property *)

(** C18: The key determines the community and the neighbour list: two
    vertices get the same [group_name] exactly when both agree, so the
    string key of line 152 loses nothing of the pair it encodes. *)
Theorem group_name_inj c1 l1 c2 l2 :
  group_name c1 l1 = group_name c2 l2 ↔ c1 = c2 ∧ l1 = l2.
Proof. apply group_name_eq. Qed.

End GroupKey.
