(* ===== verification/Contraction.v ===== *)
(** * Contraction: equivalence groups and vertex contraction of a component

    Models lines 132-181 of src/src/blast_to_graph.py, the part of the
    per-component loop that runs after layout and community detection:
    the self-inclusive neighbour list of each vertex (lines 137-149), its
    group key (line 152, [GroupKey.group_name]), the insertion-ordered
    dict [node_groups] (lines 154-156), the [membership] list that sends
    every vertex to the least index of its group (lines 133-135 and
    159-162), igraph's [contract_vertices] with the combine rules of
    lines 165-172, [simplify] with those of lines 175-179, and the step
    [contract_component] that chains them.

    The igraph primitives are written out from their documented
    behaviour: [contract_vertices] creates [max(membership)+1] vertices,
    vertex [k] combining the attributes of the vertices mapped to [k] in
    index order (an empty group gives the empty sum 0, an unset mean and
    an unset "first"); every edge keeps its attributes with its ends
    renamed.  [simplify] drops loops and merges the parallel edges, listed
    in the order of igraph's stored (greater, lesser) end pairs and read
    back as (lesser, greater).  A float is an exact rational;
    a mean that igraph would return as NaN is [None]. *)

From S2P Require Import Prelude HitFilter OverlapEdges Graph GroupKey.

Module Contraction.
Import Graph GroupKey.

(** ** The self-inclusive neighbour list, lines 137-149 *)

(** The [for i, neighbor in enumerate(neighbors)] loop of lines 145-149:
    insert before the first greater neighbour and [break]; a list with no
    greater neighbour is left as it is. *)
Fixpoint insert_before (node : nat) (l : list nat) : list nat :=
  match l with
  | [] => []
  | x :: l' => if decide (node < x) then node :: x :: l' else x :: insert_before node l'
  end.

(** Lines 142-149: [neighbors[-1]] raises [IndexError] on a vertex
    without neighbours. *)
Definition insert_self (node : nat) (nbrs : list nat) : result (list nat) :=
  match last nbrs with
  | None => throw IndexError
  | Some x => if decide (x < node) then mret (nbrs ++ [node])
              else mret (insert_before node nbrs)
  end.

(** Lines 139-152: the group key of [node]. *)
Definition node_key (g : graph) (node : nat) : result string :=
  nbrs ← insert_self node (neighbors g node);
  mret (group_name (mjoin (v_community <$> vs g !! node)) nbrs).

(** ** The dict [node_groups], lines 132-156 *)

(** [if k not in d: d[k] = []] then [d[k].append(v)] on a dict kept as
    an association list in insertion order. *)
Fixpoint dict_append {V} (k : string) (v : V) (d : list (string * list V)) :
    list (string * list V) :=
  match d with
  | [] => [(k, [v])]
  | (k', grp) :: d' => if decide (k = k') then (k', grp ++ [v]) :: d'
                       else (k', grp) :: dict_append k v d'
  end.

(** Lines 137-156: the loop over [subgraph.vs.indices]. *)
Definition group_nodes (g : graph) : result (list (string * list nat)) :=
  fold_result (λ d node, k ← node_key g node; mret (dict_append k node d))
              (seq 0 (nv g)) [].

(** [d[k]], or [[]] for a key that is absent. *)
Fixpoint dict_get {V} (k : string) (d : list (string * list V)) : list V :=
  match d with
  | [] => []
  | (k', grp) :: d' => if decide (k = k') then grp else dict_get k d'
  end.

(** ** The list [membership], lines 135 and 159-162 *)

(** Python's [min] of a list of ints. *)
Definition py_min (l : list nat) : result nat :=
  match l with
  | [] => throw (ValueError "min() arg is an empty sequence")
  | x :: l' => mret (foldl Nat.min x l')
  end.

(** [l[i] = x], which raises [IndexError] out of range. *)
Definition py_setitem {A} (l : list A) (i : nat) (x : A) : result (list A) :=
  if decide (i < length l) then mret (<[i:=x]> l) else throw IndexError.

(** Lines 160-162, the body for one group. *)
Definition assign_group (m : list nat) (grp : list nat) : result (list nat) :=
  min_idx ← py_min grp;
  fold_result (λ m i, py_setitem m i min_idx) grp m.

(** Lines 135 and 159-162. *)
Definition membership (n : nat) (d : list (string * list nat)) : result (list nat) :=
  fold_result (λ m p, assign_group m p.2) d (seq 0 n).

(** ** igraph's [contract_vertices], lines 165-172 *)

(** The vertices [contract_vertices] sends to [k], in index order. *)
Definition members (m : list nat) (k : nat) : list nat :=
  filter (λ i, m !! i = Some k) (seq 0 (length m)).

(** ["first"]: the value of the first vertex, unset for no vertex. *)
Definition first_opt (l : list (option nat)) : option nat := mjoin (head l).

(** ["mean"] of floats; the mean of nothing is NaN in igraph. *)
Definition mean_opt (l : list (option Q)) : option Q :=
  match mapM id l with
  | Some [] | None => None
  | Some qs => Some (qsum qs / (Z.of_nat (length qs) # 1))%Q
  end.

(** One contracted vertex from the vertices [idx]. *)
Definition combine (g : graph) (idx : list nat) : vertex :=
  let mem := omap (λ i, vs g !! i) idx in
  mk_vertex (String.concat "," (merge_sort key_le (v_name <$> mem)))
            (sum_list (v_weight <$> mem))
            (first_opt (v_subgraph <$> mem))
            (mean_opt (v_x <$> mem)) (mean_opt (v_y <$> mem))
            (first_opt (v_community <$> mem)).

(** [max(membership) + 1] vertices. *)
Definition new_count (m : list nat) : nat :=
  match m with [] => 0 | _ => S (max_list m) end.

Definition contract_vertices (g : graph) (m : list nat) : graph :=
  mk_graph ((λ k, combine g (members m k)) <$> seq 0 (new_count m))
           ((λ e, mk_edge (default 0 (m !! e_src e)) (default 0 (m !! e_dst e))
                          (e_weight e) (e_subgraph e) (e_community e)) <$> es g).

(** ** igraph's [simplify], lines 175-179 *)

(** igraph keeps an undirected edge as the pair (greater end, lesser
    end) and [simplify] emits the merged edges in the order of these
    pairs; Python reads an edge back as (lesser, greater). *)
Definition ends (e : edge) : nat * nat :=
  (Nat.max (e_src e) (e_dst e), Nat.min (e_src e) (e_dst e)).

Definition simplify (g : graph) : graph :=
  let es' := filter (λ e, e_src e ≠ e_dst e) (es g) in
  mk_graph (vs g)
    ((λ k, let grp := filter (λ e, ends e = k) es' in
           mk_edge k.2 k.1 (qsum (e_weight <$> grp))
                   (first_opt (e_subgraph <$> grp)) (first_opt (e_community <$> grp)))
     <$> sort_unique (ends <$> es')).

(** Lines 132-179 for one component. *)
Definition contract_component (g : graph) : result graph :=
  d ← group_nodes g;
  m ← membership (nv g) d;
  mret (simplify (contract_vertices g m)).

(** ** The neighbour list with the vertex inserted *)

Lemma insert_before_cons node x l :
  insert_before node (x :: l) =
  if decide (node < x) then node :: x :: l else x :: insert_before node l.
Proof. done. Qed.

Lemma elem_of_insert_before node l y :
  y ∈ insert_before node l → y = node ∨ y ∈ l.
Proof.
  induction l as [|x l IH]; simpl; [by intros ?%not_elem_of_nil|].
  case_decide; rewrite !elem_of_cons; [naive_solver|].
  intros [->|Hy]; [by right; left|]. destruct (IH Hy); [by left|by right; right].
Qed.

Lemma insert_before_complete node l y :
  (∃ x, x ∈ l ∧ node < x) → y ∈ insert_before node l ↔ y = node ∨ y ∈ l.
Proof.
  intros Hex. split; [apply elem_of_insert_before|].
  induction l as [|x l IH]; simpl.
  { destruct Hex as (? & ?%not_elem_of_nil & _). done. }
  case_decide; rewrite !elem_of_cons; [naive_solver|].
  intros [->|[->|Hy]]; [|by left|].
  - right. apply IH; [|by left]. destruct Hex as (z & [->|Hz]%elem_of_cons & Hlt); [lia|eauto].
  - right. apply IH; [|by right]. destruct Hex as (z & [->|Hz]%elem_of_cons & Hlt); [lia|eauto].
Qed.

Lemma insert_before_sorted node l :
  StronglySorted lt l → node ∉ l → StronglySorted lt (insert_before node l).
Proof.
  induction l as [|x l IH]; intros Hs Hn; [constructor|].
  apply StronglySorted_inv in Hs as [Hs Hx]. rewrite Forall_forall in Hx.
  rewrite insert_before_cons. case_decide.
  - constructor; [constructor; [done|by apply Forall_forall]|].
    constructor; [done|]. apply Forall_forall. intros y Hy. specialize (Hx y Hy). lia.
  - assert (x ≠ node) by (intros ->; apply Hn; left).
    constructor; [apply IH; [done|by intros ?; apply Hn; right]|].
    apply Forall_forall. intros y [->|Hy]%elem_of_insert_before; [lia|auto].
Qed.

Lemma StronglySorted_snoc (l : list nat) x :
  StronglySorted lt l → (∀ y, y ∈ l → y < x) → StronglySorted lt (l ++ [x]).
Proof.
  induction l as [|z l IH]; intros Hs Hlt; simpl; [repeat constructor|].
  apply StronglySorted_inv in Hs as [Hs Hz]. constructor.
  - apply IH; [done|]. intros y Hy. apply Hlt. by right.
  - apply Forall_app. split; [done|]. constructor; [apply Hlt; left|constructor].
Qed.

Lemma StronglySorted_last (l : list nat) x y :
  StronglySorted lt (l ++ [x]) → y ∈ l → y < x.
Proof.
  induction l as [|z l IH]; simpl; [by intros _ ?%not_elem_of_nil|].
  intros [Hs Hz]%StronglySorted_inv [->|Hy]%elem_of_cons; [|by apply IH].
  rewrite Forall_forall in Hz. apply Hz, elem_of_app. right. by left.
Qed.

Lemma insert_self_spec node nbrs :
  StronglySorted lt nbrs → node ∉ nbrs → nbrs ≠ [] →
  ∃ l, insert_self node nbrs = inr l ∧ StronglySorted lt l ∧
       ∀ y, y ∈ l ↔ y = node ∨ y ∈ nbrs.
Proof.
  intros Hs Hn Hne. unfold insert_self.
  destruct (last nbrs) as [x|] eqn:Hl; [|by apply last_None in Hl].
  pose proof Hl as [l' ->]%last_Some.
  assert (x ∈ l' ++ [x]) as Hx by (apply elem_of_app; right; by left).
  case_decide.
  - eexists; split; [done|]. split.
    + apply StronglySorted_snoc; [done|]. intros y [Hy|Hy%list_elem_of_singleton]%elem_of_app; [|by subst].
      pose proof (StronglySorted_last l' x y Hs Hy). lia.
    + intros y. rewrite elem_of_app, list_elem_of_singleton. tauto.
  - assert (node < x) by (assert (x ≠ node) by (intros ->; done); lia).
    eexists; split; [done|]. split; [by apply insert_before_sorted|].
    intros y. apply insert_before_complete. eauto.
Qed.

Lemma insert_self_inl node nbrs e : insert_self node nbrs = inl e ↔ nbrs = [] ∧ e = IndexError.
Proof.
  unfold insert_self. destruct (last nbrs) eqn:Hl.
  - split; [by case_decide|]. intros [-> _]. done.
  - apply last_None in Hl as ->. split; [by intros [= <-]|by intros [_ ->]].
Qed.

(** C19: On a strictly increasing neighbour list that does not hold the
    vertex itself, lines 142-149 compute the self-inclusive neighbour
    set in increasing order: the list [sort_unique (node :: nbrs)]. *)
Theorem insert_self_sorted node nbrs :
  StronglySorted lt nbrs → node ∉ nbrs → nbrs ≠ [] →
  insert_self node nbrs = inr (sort_unique (node :: nbrs)).
Proof.
  intros Hs Hn Hne. destruct (insert_self_spec node nbrs Hs Hn Hne) as (l & -> & Hl & Hel).
  f_equal. apply strongly_sorted_ext; [exact Hl|apply sort_unique_sorted|].
  intros y. rewrite elem_of_sort_unique, elem_of_cons. apply Hel.
Qed.

(** ** Keys and groups *)

Lemma node_key_inl g v e : node_key g v = inl e ↔ neighbors g v = [] ∧ e = IndexError.
Proof.
  unfold node_key. rewrite <-(insert_self_inl v).
  destruct (insert_self v (neighbors g v)); unfold mbind, result_bind, mret, result_ret; simpl;
    split; congruence.
Qed.

Lemma node_key_inr g v : (∃ k, node_key g v = inr k) ↔ neighbors g v ≠ [].
Proof.
  split.
  - intros [k Hk] Hn. assert (node_key g v = inl IndexError) as Hc by (by apply node_key_inl).
    congruence.
  - intros Hn. destruct (node_key g v) as [e|k] eqn:Hk; [|by exists k].
    apply node_key_inl in Hk as [? _]. done.
Qed.

(** The key of [v] once every key is known to exist. *)
Definition key_of (g : graph) (v : nat) : string :=
  match node_key g v with inr k => k | inl _ => "" end.

Lemma group_nodes_pure g :
  (∀ v, v < nv g → neighbors g v ≠ []) →
  group_nodes g = inr (foldl (λ d v, dict_append (key_of g v) v d) [] (seq 0 (nv g))).
Proof.
  intros Hn. apply fold_result_pure. intros d v Hv%elem_of_seq.
  destruct (proj2 (node_key_inr g v) (Hn v ltac:(lia))) as [k Hk].
  unfold key_of. rewrite Hk. done.
Qed.

(** The grouping loop of lines 137-156 raises exactly when the
    component has a vertex without neighbours ([neighbors[-1]] on an
    empty list); otherwise it returns the dict of groups. *)
Theorem group_nodes_total g :
  (∃ d, group_nodes g = inr d) ↔ ∀ v, v < nv g → neighbors g v ≠ [].
Proof.
  split; [|intros Hn; eexists; by apply group_nodes_pure].
  intros [d Hd] v Hv Hnil.
  assert (seq 0 (nv g) = seq 0 v ++ v :: seq (S v) (nv g - S v)) as Hsplit.
  { replace (nv g) with (v + S (nv g - S v)) at 1 by lia. by rewrite seq_app. }
  destruct (fold_result_inl (λ d node, k ← node_key g node; mret (dict_append k node d))
              (seq 0 v) v (seq (S v) (nv g - S v)) [] IndexError) as [e He].
  - intros s. rewrite (proj2 (node_key_inl g v IndexError)) by done. done.
  - destruct (fold_result _ (seq 0 v) []); [right|left]; eauto.
  - unfold group_nodes in Hd. rewrite Hsplit, He in Hd. done.
Qed.

(** ** The dict as a function from keys to groups *)

Lemma dict_append_cons {V : Type} k (v : V) k' grp d :
  dict_append k v ((k', grp) :: d) =
  if decide (k = k') then (k', grp ++ [v]) :: d else (k', grp) :: dict_append k v d.
Proof. done. Qed.

Lemma dict_get_cons {V : Type} k k' (grp : list V) d :
  dict_get k ((k', grp) :: d) = if decide (k = k') then grp else dict_get k d.
Proof. done. Qed.

Lemma dict_get_append {V : Type} k k' (v : V) d :
  dict_get k (dict_append k' v d) = dict_get k d ++ (if decide (k = k') then [v] else []).
Proof.
  induction d as [|[k'' grp] d IH].
  - change (dict_get k [(k', [v])] = [] ++ (if decide (k = k') then [v] else [])).
    rewrite dict_get_cons. by case_decide.
  - rewrite dict_append_cons. destruct (decide (k' = k'')) as [<-|Hne].
    + rewrite !dict_get_cons. case_decide; [done|by rewrite app_nil_r].
    + rewrite !dict_get_cons, IH. destruct (decide (k = k'')) as [->|]; [|done].
      rewrite decide_False by done. by rewrite app_nil_r.
Qed.

Lemma dict_keys_append {V : Type} k (v : V) d :
  fst <$> dict_append k v d = (fst <$> d) ++ (if decide (k ∈ fst <$> d) then [] else [k]).
Proof.
  induction d as [|[k' grp] d IH]; [done|].
  rewrite dict_append_cons, fmap_cons. simpl fst. destruct (decide (k = k')) as [<-|Hk].
  - rewrite decide_True by left. by rewrite app_nil_r.
  - rewrite fmap_cons, IH. simpl. f_equal. repeat case_decide; set_solver.
Qed.

Lemma dict_get_elem_of {V : Type} k (grp : list V) d : NoDup (fst <$> d) → (k, grp) ∈ d → dict_get k d = grp.
Proof.
  induction d as [|[k' grp'] d IH]; [by intros _ ?%not_elem_of_nil|].
  rewrite fmap_cons, dict_get_cons. intros [Hk Hnd]%NoDup_cons [Heq|Hin]%elem_of_cons.
  - simplify_eq. by rewrite decide_True.
  - rewrite decide_False; [by apply IH|]. intros <-. apply Hk.
    by apply (list_elem_of_fmap_2 fst _ (k, grp)).
Qed.

Lemma dict_get_key {V : Type} k (d : list (string * list V)) : k ∈ fst <$> d → (k, dict_get k d) ∈ d.
Proof.
  induction d as [|[k' grp] d IH]; [by intros ?%not_elem_of_nil|].
  rewrite fmap_cons, dict_get_cons. intros Hk.
  case_decide; [subst; by left|]. right. apply IH.
  apply elem_of_cons in Hk as [->|]; [done|done].
Qed.

Section Grouping.
Context {A V : Type} (f : A → string) (h : A → V).

(** The loop [for v in l: d[f(v)].append(h(v))] on an empty dict. *)
Lemma groups_spec (l : list A) :
  let D := foldl (λ d v, dict_append (f v) (h v) d) [] l in
  NoDup (fst <$> D) ∧ (∀ k, dict_get k D = h <$> filter (λ v, f v = k) l) ∧
  (∀ k, k ∈ fst <$> D ↔ ∃ v, v ∈ l ∧ f v = k).
Proof.
  induction l as [|x l IH] using rev_ind; simpl.
  { split; [constructor|]. split; [done|]. intros k. set_solver. }
  rewrite foldl_app. simpl. destruct IH as (Hnd & Hget & Hkeys).
  split; [|split].
  - rewrite dict_keys_append. case_decide; [by rewrite app_nil_r|].
    apply NoDup_app. split; [done|]. split; [set_solver|apply NoDup_singleton].
  - intros k. rewrite dict_get_append, Hget, filter_app, fmap_app. f_equal.
    rewrite filter_cons, filter_nil. by repeat case_decide.
  - intros k. rewrite dict_keys_append, elem_of_app, Hkeys.
    case_decide; setoid_rewrite elem_of_app; set_solver.
Qed.

Lemma elem_of_groups (l : list A) k grp :
  (k, grp) ∈ foldl (λ d v, dict_append (f v) (h v) d) [] l ↔
  grp = h <$> filter (λ v, f v = k) l ∧ filter (λ v, f v = k) l ≠ [].
Proof.
  destruct (groups_spec l) as (Hnd & Hget & Hkeys). simpl in *.
  set (D := foldl _ [] l) in *. split.
  - intros Hin. pose proof (dict_get_elem_of k grp D Hnd Hin) as Hg.
    rewrite Hget in Hg. split; [done|].
    destruct (proj1 (Hkeys k)) as (v & Hv & Hfv); [apply (list_elem_of_fmap_2 fst D _ Hin)|].
    intros Hnil. assert (v ∈ filter (λ u, f u = k) l) as Hf by (by apply list_elem_of_filter).
    rewrite Hnil in Hf. by apply not_elem_of_nil in Hf.
  - intros [-> Hne]. destruct (filter (λ v, f v = k) l) as [|v fl] eqn:Hfl; [done|].
    assert (v ∈ filter (λ u, f u = k) l) as [Hfv Hv]%list_elem_of_filter by (rewrite Hfl; left).
    rewrite <-Hfl, <-Hget. apply dict_get_key, Hkeys. eauto.
Qed.

End Grouping.

Lemma key_of_spec g v : neighbors g v ≠ [] → node_key g v = inr (key_of g v).
Proof.
  intros Hn. destruct (proj2 (node_key_inr g v) Hn) as [k Hk]. unfold key_of. by rewrite Hk.
Qed.

(** C21: The dict [node_groups] built by lines 137-156 has distinct keys,
    and holds under the key [k] exactly the vertices whose key is [k], in
    increasing index order, for every key some vertex has. *)
Theorem group_nodes_spec g d :
  group_nodes g = inr d →
  NoDup (fst <$> d) ∧
  ∀ k grp, (k, grp) ∈ d ↔
    grp = filter (λ v, node_key g v = inr k) (seq 0 (nv g)) ∧ grp ≠ [].
Proof.
  intros Hd. assert (∀ v, v < nv g → neighbors g v ≠ []) as Hn
    by (apply group_nodes_total; eauto).
  rewrite group_nodes_pure in Hd by done. injection Hd as <-.
  split; [apply groups_spec|]. intros k grp. rewrite elem_of_groups, fmap_id_lam.
  rewrite (filter_ext_in _ (λ v, node_key g v = inr k)).
  - split; intros [-> ?]; done.
  - intros v Hv%elem_of_seq. rewrite key_of_spec by (apply Hn; lia). split; congruence.
Qed.

(** ** The representative of a vertex *)

(** The least index below [n] whose key is the key of [i]. *)
Definition rep (n : nat) (f : nat → string) (i : nat) : nat :=
  default i (head (filter (λ j, f j = f i) (seq 0 n))).

Lemma head_filter_seq (P : nat → Prop) `{∀ x, Decision (P x)} a k r :
  head (filter P (seq a k)) = Some r ↔ a ≤ r < a + k ∧ P r ∧ ∀ j, a ≤ j < r → ¬ P j.
Proof.
  revert a. induction k as [|k IH]; intros a; simpl; [split; [done|lia]|].
  rewrite filter_cons. case_decide as Ha.
  - simpl. split; [intros [= <-]; split; [lia|]; split; [done|lia]|].
    intros (Hr & HPr & Hl). f_equal. destruct (decide (a < r)); [|lia].
    by destruct (Hl a); [lia|].
  - rewrite IH. split; intros (Hr & HPr & Hl); (split; [|split; [done|]]).
    + lia.
    + intros j Hj. destruct (decide (j = a)) as [->|]; [done|]. apply Hl. lia.
    + assert (r ≠ a) by (intros ->; done). lia.
    + intros j Hj. apply Hl. lia.
Qed.

Section Rep.
Context (n : nat) (f : nat → string).

Lemma rep_head i : i < n → head (filter (λ j, f j = f i) (seq 0 n)) = Some (rep n f i).
Proof.
  intros Hi. unfold rep. destruct (head _) eqn:Hh; [done|]. exfalso.
  assert (i ∈ filter (λ j, f j = f i) (seq 0 n)) as Hin
    by (apply list_elem_of_filter; split; [done|apply elem_of_seq; lia]).
  destruct (filter _ _); [by apply not_elem_of_nil in Hin|done].
Qed.

Lemma rep_spec i :
  i < n → rep n f i ≤ i ∧ f (rep n f i) = f i ∧ ∀ j, j < rep n f i → f j ≠ f i.
Proof.
  intros Hi. pose proof (rep_head i Hi) as (Hr & Hfr & Hl)%head_filter_seq.
  split; [|split; [done|intros j Hj; apply Hl; lia]].
  destruct (decide (rep n f i ≤ i)); [done|]. exfalso. apply (Hl i); [lia|done].
Qed.

Lemma rep_eq i j : i < n → j < n → rep n f i = rep n f j ↔ f i = f j.
Proof.
  intros Hi Hj. split.
  - intros Heq. destruct (rep_spec i Hi) as (_ & Hfi & _), (rep_spec j Hj) as (_ & Hfj & _).
    congruence.
  - intros Heq. pose proof (rep_head i Hi) as Hri. pose proof (rep_head j Hj) as Hrj.
    rewrite Heq in Hri. congruence.
Qed.

End Rep.

(** ** Setting the representatives *)

Lemma foldl_min_le x l : (∀ y, y ∈ l → x ≤ y) → foldl Nat.min x l = x.
Proof.
  revert x. induction l as [|y l IH]; intros x Hl; [done|]. simpl.
  rewrite Nat.min_l by (apply Hl; left). apply IH. intros z Hz. apply Hl. by right.
Qed.

Lemma StronglySorted_seq a k : StronglySorted lt (seq a k).
Proof.
  revert a. induction k as [|k IH]; intros a; simpl; constructor; [done|].
  apply Forall_forall. intros y Hy%elem_of_seq. lia.
Qed.

Lemma py_min_sorted x l : StronglySorted lt (x :: l) → py_min (x :: l) = inr x.
Proof.
  intros [_ Hx]%StronglySorted_inv. rewrite Forall_forall in Hx. unfold py_min.
  rewrite foldl_min_le; [done|]. intros y Hy. specialize (Hx y Hy). lia.
Qed.

Lemma foldl_insert_length (m grp : list nat) x :
  length (foldl (λ m i, <[i:=x]> m) m grp) = length m.
Proof.
  revert m. induction grp as [|i grp IH]; intros m; simpl; [done|].
  by rewrite IH, length_insert.
Qed.

Lemma foldl_insert_lookup (m grp : list nat) x j :
  j < length m →
  foldl (λ m i, <[i:=x]> m) m grp !! j = if decide (j ∈ grp) then Some x else m !! j.
Proof.
  revert m. induction grp as [|i grp IH]; intros m Hj; simpl; [done|].
  rewrite IH by (by rewrite length_insert). rewrite list_lookup_insert.
  repeat case_decide; set_solver.
Qed.

Lemma fold_setitem (m grp : list nat) x :
  (∀ i, i ∈ grp → i < length m) →
  fold_result (λ m i, py_setitem m i x) grp m = inr (foldl (λ m i, <[i:=x]> m) m grp).
Proof.
  intros Hgrp. apply (fold_result_pure_inv (λ m', length m' = length m)); [done|].
  intros m' i Hi Hlen. unfold py_setitem. rewrite decide_True by (rewrite Hlen; by apply Hgrp).
  split; [done|]. by rewrite length_insert.
Qed.

(** One group of lines 160-162 without the [min]: every member set to
    the first member. *)
Definition assign_pure (m grp : list nat) : list nat :=
  foldl (λ m i, <[i:=default 0 (head grp)]> m) m grp.

Section Membership.
Context (n : nat) (f : nat → string) (d : list (string * list nat)).
Hypothesis Hd : ∀ k grp, (k, grp) ∈ d ↔ grp = filter (λ v, f v = k) (seq 0 n) ∧ grp ≠ [].

Lemma group_range k grp i : (k, grp) ∈ d → i ∈ grp → i < n ∧ f i = k.
Proof.
  intros [-> _]%Hd [Hk Hi%elem_of_seq]%list_elem_of_filter. split; [lia|done].
Qed.

Lemma assign_group_ok m k grp :
  (k, grp) ∈ d → length m = n → assign_group m grp = inr (assign_pure m grp).
Proof.
  intros Hin Hm. pose proof Hin as [Hgrp Hne]%Hd.
  destruct grp as [|x l]; [done|]. unfold assign_group.
  rewrite py_min_sorted.
  - change (fold_result (λ m i, py_setitem m i x) (x :: l) m = inr (assign_pure m (x :: l))).
    apply fold_setitem. intros i Hi. rewrite Hm. by apply (group_range k (x :: l)).
  - rewrite Hgrp. exact (StronglySorted_filter (A:=nat) _ _ (StronglySorted_seq 0 n)).
Qed.

Lemma membership_pure :
  membership n d = inr (foldl (λ m p, assign_pure m p.2) (seq 0 n) d).
Proof.
  apply (fold_result_pure_inv (λ m, length m = n)); [apply length_seq|].
  intros m [k grp] Hin Hm. split; [by apply (assign_group_ok m k)|].
  unfold assign_pure. by rewrite foldl_insert_length.
Qed.

Lemma membership_prefix p :
  (∀ x, x ∈ p → x ∈ d) →
  let m := foldl (λ m p, assign_pure m p.2) (seq 0 n) p in
  length m = n ∧
  ∀ i, i < n → m !! i = Some (if decide (f i ∈ fst <$> p) then rep n f i else i).
Proof.
  induction p as [|[k grp] p IH] using rev_ind; intros Hp; simpl.
  { split; [apply length_seq|]. intros i Hi. by rewrite lookup_seq_lt. }
  rewrite foldl_app. simpl.
  destruct IH as [Hlen Hlook]; [intros x Hx; apply Hp, elem_of_app; by left|].
  assert ((k, grp) ∈ d) as Hin by (apply Hp, elem_of_app; right; by left).
  pose proof Hin as [Hgrp Hne]%Hd. unfold assign_pure in *.
  split; [by rewrite foldl_insert_length|]. intros i Hi.
  rewrite foldl_insert_lookup by lia.
  destruct (decide (i ∈ grp)) as [Hig|Hig].
  - apply (group_range k grp i Hin) in Hig as [_ Hk].
    rewrite decide_True; [f_equal; by rewrite Hgrp, <-Hk, rep_head|].
    rewrite fmap_app, elem_of_app, Hk. right. by left.
  - assert (f i ≠ k).
    { intros <-. apply Hig. rewrite Hgrp. apply list_elem_of_filter.
      split; [done|apply elem_of_seq; lia]. }
    rewrite Hlook by done. do 2 case_decide; try done; rewrite fmap_app in *; set_solver.
Qed.

Lemma membership_correct :
  ∃ m, membership n d = inr m ∧ length m = n ∧
       ∀ i, i < n → m !! i = Some (rep n f i).
Proof.
  eexists; split; [apply membership_pure|].
  destruct (membership_prefix d) as [Hlen Hlook]; [done|].
  split; [done|]. intros i Hi. rewrite Hlook by done. rewrite decide_True; [done|].
  apply (list_elem_of_fmap_2 fst d (f i, filter (λ v, f v = f i) (seq 0 n))), Hd.
  split; [done|]. intros Hnil.
  assert (i ∈ filter (λ v, f v = f i) (seq 0 n)) as Hin
    by (apply list_elem_of_filter; split; [done|apply elem_of_seq; lia]).
  rewrite Hnil in Hin. by apply not_elem_of_nil in Hin.
Qed.

End Membership.

(** ** Membership on a component *)

Lemma StronglySorted_le_lt (l : list nat) : StronglySorted le l → NoDup l → StronglySorted lt l.
Proof.
  induction l as [|x l IH]; [constructor|].
  intros [Hs Hx]%StronglySorted_inv [Hnx Hnd]%NoDup_cons. constructor; [by apply IH|].
  rewrite Forall_forall in *. intros y Hy. specialize (Hx y Hy).
  assert (x ≠ y) by (intros ->; done). lia.
Qed.

Lemma neighbors_sorted g v : NoDup (neighbors g v) → StronglySorted lt (neighbors g v).
Proof.
  intros Hnd. apply StronglySorted_le_lt; [|done].
  apply StronglySorted_merge_sort; [apply _|]. intros x y. lia.
Qed.

Lemma key_of_eq g i j :
  neighbors g i ≠ [] → neighbors g j ≠ [] →
  key_of g i = key_of g j ↔ node_key g i = node_key g j.
Proof. intros Hi Hj. rewrite (key_of_spec g i), (key_of_spec g j) by done. split; congruence. Qed.

(** Two vertices share a key exactly when they share a community and a
    self-inclusive neighbour set. *)
Lemma node_key_equiv g i j :
  neighbors g i ≠ [] → neighbors g j ≠ [] → simple_at g i → simple_at g j →
  node_key g i = node_key g j ↔
  mjoin (v_community <$> vs g !! i) = mjoin (v_community <$> vs g !! j) ∧
  ∀ y, y = i ∨ y ∈ neighbors g i ↔ y = j ∨ y ∈ neighbors g j.
Proof.
  intros Hi Hj [Ndi Ni] [Ndj Nj].
  destruct (insert_self_spec i _ (neighbors_sorted g i Ndi) Ni Hi) as (li & Hli & Si & Eli).
  destruct (insert_self_spec j _ (neighbors_sorted g j Ndj) Nj Hj) as (lj & Hlj & Sj & Elj).
  unfold node_key. rewrite Hli, Hlj, !bind_inr.
  transitivity (group_name (mjoin (v_community <$> vs g !! i)) li =
                group_name (mjoin (v_community <$> vs g !! j)) lj);
    [split; [by intros [=]|by intros ->]|].
  rewrite group_name_eq. apply and_iff_compat_l. split.
  - intros -> y. by rewrite <-Eli, <-Elj.
  - intros Hy. apply strongly_sorted_ext; [exact Si|exact Sj|]. intros y. by rewrite Eli, Elj.
Qed.

Lemma group_nodes_groups g d :
  group_nodes g = inr d →
  (∀ v, v < nv g → neighbors g v ≠ []) ∧
  ∀ k grp, (k, grp) ∈ d ↔ grp = filter (λ v, key_of g v = k) (seq 0 (nv g)) ∧ grp ≠ [].
Proof.
  intros Hd. assert (∀ v, v < nv g → neighbors g v ≠ []) as Hn
    by (apply group_nodes_total; eauto).
  split; [done|]. rewrite group_nodes_pure in Hd by done. injection Hd as <-.
  intros k grp. rewrite elem_of_groups, fmap_id_lam. split; intros [-> ?]; done.
Qed.

Lemma membership_of_groups g d :
  group_nodes g = inr d →
  ∃ m, membership (nv g) d = inr m ∧ length m = nv g ∧
       ∀ i, i < nv g → m !! i = Some (rep (nv g) (key_of g) i).
Proof. intros [_ Hd]%group_nodes_groups. by apply membership_correct. Qed.

(** The membership list sends every vertex to the least index of its
    group. *)
Lemma membership_rep_ok g d :
  group_nodes g = inr d →
  ∃ m, membership (nv g) d = inr m ∧ length m = nv g ∧
       ∀ i r, i < nv g → m !! i = Some r →
         r ≤ i ∧ node_key g r = node_key g i ∧ ∀ j, j < r → node_key g j ≠ node_key g i.
Proof.
  intros Hd. destruct (group_nodes_groups g d Hd) as [Hn _].
  destruct (membership_of_groups g d Hd) as (m & Hm & Hlen & Hlook).
  exists m. do 2 (split; [done|]). intros i r Hi Hr.
  rewrite Hlook in Hr by done. injection Hr as <-.
  destruct (rep_spec (nv g) (key_of g) i Hi) as (Hle & Hf & Hl).
  split; [done|]. split.
  - apply key_of_eq; [apply Hn; lia|by apply Hn|done].
  - intros j Hj. rewrite <-key_of_eq by (apply Hn; lia). by apply Hl.
Qed.

(** C22: Lines 159-162 never raise on the dict of lines 137-156, and
    send every vertex to the least index of its group: an index no
    greater than its own, with the same key, below which no vertex has
    that key. *)
Theorem membership_rep g d :
  group_nodes g = inr d →
  ∃ m, membership (nv g) d = inr m ∧ length m = nv g ∧
       ∀ i r, i < nv g → m !! i = Some r →
         r ≤ i ∧ node_key g r = node_key g i ∧ ∀ j, j < r → node_key g j ≠ node_key g i.
Proof. apply membership_rep_ok. Qed.

(** C23: Two vertices of a component without loops or parallel edges
    are merged, i.e. get the same [membership] entry, exactly when they
    have the same community and the same self-inclusive neighbour set:
    the equivalence groups of the contraction. *)
Theorem membership_equiv g d m i j :
  group_nodes g = inr d → membership (nv g) d = inr m →
  i < nv g → j < nv g → simple_at g i → simple_at g j →
  m !! i = m !! j ↔
  mjoin (v_community <$> vs g !! i) = mjoin (v_community <$> vs g !! j) ∧
  ∀ y, y = i ∨ y ∈ neighbors g i ↔ y = j ∨ y ∈ neighbors g j.
Proof.
  intros Hd Hm Hi Hj Si Sj. destruct (group_nodes_groups g d Hd) as [Hn _].
  destruct (membership_of_groups g d Hd) as (m' & Hm' & _ & Hlook).
  rewrite Hm in Hm'. injection Hm' as <-. rewrite !Hlook by done.
  rewrite <-(node_key_equiv g i j), <-(key_of_eq g i j), <-(rep_eq (nv g) (key_of g) i j)
    by auto.
  split; [by intros [=]|by intros ->].
Qed.

(** ** Contraction conserves the vertices *)

Lemma membership_length n d m : membership n d = inr m → length m = n.
Proof.
  apply (fold_result_invariant (λ m, length m = n)); [apply length_seq|].
  intros s [k grp] s' _ Hs Ha. unfold assign_group in Ha. cbn [snd] in Ha.
  destruct (py_min grp) as [e|x]; [done|]. rewrite bind_inr in Ha.
  rewrite <-Hs. revert Ha. apply (fold_result_invariant (λ t, length t = length s)); [done|].
  intros t i t' _ Ht. unfold py_setitem. case_decide; [|done].
  intros [= <-]. by rewrite length_insert.
Qed.

(** Every vertex is sent to exactly one of the new vertices. *)
Lemma members_partition m : concat (members m <$> seq 0 (new_count m)) ≡ₚ seq 0 (length m).
Proof.
  transitivity (concat ((λ k, filter (λ i, default 0 (m !! i) = k) (seq 0 (length m))) <$>
                        seq 0 (new_count m))).
  - apply Permutation_refl'. f_equal. apply list_fmap_ext. intros _ k _.
    unfold members. apply filter_ext_in. intros i Hi%elem_of_seq.
    destruct (lookup_lt_is_Some_2 m i) as [x Hx]; [lia|]. rewrite Hx. simpl. split; congruence.
  - apply concat_filter_partition; [apply NoDup_seq|]. intros i Hi%elem_of_seq.
    destruct (lookup_lt_is_Some_2 m i) as [x Hx]; [lia|]. rewrite Hx. simpl.
    apply elem_of_seq. unfold new_count. destruct m as [|y m]; [simpl in Hi; lia|].
    pose proof (max_list_elem_of_le x (y :: m) (list_elem_of_lookup_2 _ _ _ Hx)). lia.
Qed.

Lemma contract_weight g m :
  length m = nv g → sum_list (v_weight <$> vs (contract_vertices g m)) = sum_list (v_weight <$> vs g).
Proof.
  intros Hlen. cbn [contract_vertices vs]. rewrite <-list_fmap_compose.
  transitivity (sum_list ((λ l, sum_list (v_weight <$> l)) <$>
                          ((omap (λ i, vs g !! i) ∘ members m) <$> seq 0 (new_count m)))).
  { f_equal. rewrite <-list_fmap_compose. by apply list_fmap_ext. }
  rewrite sum_list_fmap_concat, list_fmap_compose, <-omap_concat, members_partition, Hlen.
  by rewrite (omap_lookup_seq (vs g)).
Qed.

Lemma contract_component_weight_eq g g' :
  contract_component g = inr g' → sum_list (v_weight <$> vs g') = sum_list (v_weight <$> vs g).
Proof.
  unfold contract_component. intros (d & _ & H)%bind_inr_inv.
  apply bind_inr_inv in H as (m & Hm & H). injection H as <-.
  apply contract_weight. by apply membership_length in Hm.
Qed.

(** C24: Contraction conserves mass: the vertex weights of a contracted
    component sum to the vertex weights of the component. *)
Theorem contract_component_weight g g' :
  contract_component g = inr g' → sum_list (v_weight <$> vs g') = sum_list (v_weight <$> vs g).
Proof. apply contract_component_weight_eq. Qed.

Lemma contract_component_ok g :
  (∃ g', contract_component g = inr g') ↔ ∀ v, v < nv g → neighbors g v ≠ [].
Proof.
  split.
  - intros [g' (d & Hd & _)%bind_inr_inv]. apply group_nodes_total. eauto.
  - intros Hn. destruct (proj2 (group_nodes_total g) Hn) as [d Hd].
    destruct (membership_of_groups g d Hd) as (m & Hm & _).
    eexists. unfold contract_component. by rewrite Hd, bind_inr, Hm, bind_inr.
Qed.

(** C20: Processing a component (lines 132-179) raises exactly when the
    component has a vertex without neighbours, at [neighbors[-1]] of
    line 142; on every other component it returns the contracted graph. *)
Theorem contract_component_total g :
  (∃ g', contract_component g = inr g') ↔ ∀ v, v < nv g → neighbors g v ≠ [].
Proof. apply contract_component_ok. Qed.

(** ** Merging the parallel edges *)

Lemma simplify_pairs g :
  (λ e, (e_src e, e_dst e)) <$> es (simplify g) =
  (λ k, (k.2, k.1)) <$> sort_unique (ends <$> filter (λ e, e_src e ≠ e_dst e) (es g)).
Proof. cbn [simplify es]. rewrite <-list_fmap_compose. by apply list_fmap_ext. Qed.

(** After [simplify] (lines 175-179) the edges of the contracted
    component are loop-free, pairwise non-parallel, each listed as
    (lesser, greater) end, and join exactly the pairs of distinct
    vertices that some edge joined before. *)
Theorem simplify_simple g :
  NoDup ((λ e, (e_src e, e_dst e)) <$> es (simplify g)) ∧
  ∀ u v, (u, v) ∈ (λ e, (e_src e, e_dst e)) <$> es (simplify g) ↔
         u < v ∧ ∃ e, e ∈ es g ∧ Nat.min (e_src e) (e_dst e) = u ∧ Nat.max (e_src e) (e_dst e) = v.
Proof.
  rewrite simplify_pairs. split.
  { apply NoDup_fmap; [intros [a b] [c d]; simpl; congruence|apply NoDup_sort_unique]. }
  intros u v. rewrite list_elem_of_fmap. setoid_rewrite elem_of_sort_unique.
  setoid_rewrite list_elem_of_fmap. setoid_rewrite list_elem_of_filter. unfold ends. split.
  - intros ([a b] & [= -> ->] & e & [= -> ->] & Hne & He). simpl. split; [lia|eauto].
  - intros (Huv & e & He & <- & <-). eexists; split; [|exists e; split; [reflexivity|]]; [done|].
    split; [lia|done].
Qed.

(** C26: [simplify] conserves the edge weight of everything but loops:
    the merged weights sum to the weights of the non-loop edges. *)
Theorem simplify_weight g :
  (qsum (e_weight <$> es (simplify g)) ==
   qsum (e_weight <$> filter (λ e, e_src e ≠ e_dst e) (es g)))%Q.
Proof.
  set (es' := filter (λ e, e_src e ≠ e_dst e) (es g)).
  cbn [simplify es]. fold es'. rewrite <-list_fmap_compose.
  match goal with |- (qsum ?X == _)%Q =>
    replace X with ((λ l, qsum (e_weight <$> l)) <$>
                    ((λ k, filter (λ e, ends e = k) es') <$> sort_unique (ends <$> es')))
      by (rewrite <-list_fmap_compose; by apply list_fmap_ext) end.
  rewrite qsum_fmap_concat, concat_filter_partition; [reflexivity|apply NoDup_sort_unique|].
  intros e He. apply elem_of_sort_unique, list_elem_of_fmap. eauto.
Qed.

(** ** Examples *)

(** A component where vertices 0 and 1 share their community and their
    self-inclusive neighbour set {0,1,2}, but 2 and 3 do not. *)
Definition ex_p : graph :=
  mk_graph ((λ n, mk_vertex n 1 (Some 0) None None (Some 0)) <$> ["q0"; "q1"; "q2"; "q3"])
           ((λ '(a, b), mk_edge a b 1 (Some 0) (Some 0)) <$> [(0, 1); (0, 2); (1, 2); (2, 3)]).

Definition ex_p_groups : list (string * list nat) :=
  match group_nodes ex_p with inr d => d | inl _ => [] end.

Definition ex_p_contracted : graph :=
  match contract_component ex_p with inr g => g | inl _ => ex_p end.

(** Scenario B: a triangle of three equivalent vertices. *)
Definition ex_tri : graph :=
  mk_graph [mk_vertex "c" 1 (Some 0) (Some 0%Q) (Some 0%Q) (Some 0);
            mk_vertex "a" 1 (Some 0) (Some 1%Q) (Some 0%Q) (Some 0);
            mk_vertex "b" 1 (Some 0) (Some 2%Q) (Some 0%Q) (Some 0)]
           ((λ '(a, b), mk_edge a b 1 (Some 0) (Some 0)) <$> [(0, 1); (0, 2); (1, 2)]).

Definition ex_tri_contracted : graph :=
  match contract_component ex_tri with inr g => g | inl _ => ex_tri end.

Lemma ex_tri_result :
  contract_component ex_tri = inr ex_tri_contracted ∧
  (v_name <$> vs ex_tri_contracted) = ["a,b,c"] ∧ es ex_tri_contracted = [].
Proof. vm_compute. split; [reflexivity|split; reflexivity]. Qed.

(** C27: Contraction leaves placeholder vertices.  [contract_vertices]
    creates [max(membership)+1] vertices, but the membership list only
    holds the least index of each group.  So every index [k] whose
    vertex has the key of a smaller vertex is sent nothing, and vertex
    [k] of the result has an empty name, weight 0 and no attributes. *)
Theorem contract_component_placeholder g g' k :
  contract_component g = inr g' → k < length (vs g') →
  (∃ j, j < k ∧ node_key g j = node_key g k) →
  vs g' !! k = Some (mk_vertex "" 0 None None None None).
Proof.
  unfold contract_component. intros Hg Hk (j & Hjk & Hkey). inv_result. subst g'.
  destruct (membership_rep_ok g x Hm) as (m & Hm' & Hlen & Hrep). rewrite Hm0 in Hm'.
  injection Hm' as <-. cbn [simplify contract_vertices vs] in *. rewrite length_fmap, length_seq in Hk.
  rewrite list_lookup_fmap, (proj2 (lookup_seq 0 (new_count x0) k k)) by lia.
  cbn [fmap option_fmap option_map]. f_equal.
  assert (members x0 k = []) as ->; [|reflexivity].
  destruct (members x0 k) as [|i l] eqn:E; [done|].
  assert (i ∈ members x0 k) as Hi by (rewrite E; left).
  apply list_elem_of_filter in Hi as [Hi Hin]. apply elem_of_seq in Hin.
  destruct (Hrep i k) as (_ & Hki & Hmin); [lia|done|].
  exfalso. apply (Hmin j Hjk). by rewrite Hkey.
Qed.

Lemma insert_self_sorted_witness : insert_self 2 [0; 1; 3] = inr (sort_unique [2; 0; 1; 3]).
Proof.
  apply insert_self_sorted; [repeat constructor; simpl; lia| |done].
  apply (bool_decide_unpack _). vm_compute. reflexivity.
Defined.

Lemma group_nodes_spec_witness : NoDup (fst <$> ex_p_groups).
Proof. apply (group_nodes_spec ex_p ex_p_groups). vm_compute. reflexivity. Defined.

Lemma membership_rep_witness : ∃ m, membership (nv ex_p) ex_p_groups = inr m ∧ length m = 4.
Proof.
  destruct (membership_rep ex_p ex_p_groups) as (m & Hm & Hlen & _);
    [vm_compute; reflexivity|].
  exists m. split; [done|]. rewrite Hlen. reflexivity.
Defined.

Lemma membership_equiv_witness :
  mjoin (v_community <$> vs ex_p !! 0) = mjoin (v_community <$> vs ex_p !! 1).
Proof.
  refine (proj1 (proj1 (membership_equiv ex_p ex_p_groups [0; 0; 2; 3] 0 1 _ _ _ _ _ _) eq_refl)).
  1-2: vm_compute; reflexivity.
  1-2: vm_compute; lia.
  all: split; apply (bool_decide_unpack _); vm_compute; reflexivity.
Defined.

Lemma contract_component_weight_witness : sum_list (v_weight <$> vs ex_tri_contracted) = 3.
Proof.
  rewrite (contract_component_weight ex_tri ex_tri_contracted); [reflexivity|].
  vm_compute. reflexivity.
Defined.

(** In the component [ex_p] vertices 0 and 1 have the same key, so
    vertex 1 of the result is a placeholder. *)
Lemma contract_component_placeholder_witness :
  vs ex_p_contracted !! 1 = Some (mk_vertex "" 0 None None None None).
Proof.
  refine (contract_component_placeholder ex_p ex_p_contracted 1 _ _ _).
  - vm_compute. reflexivity.
  - vm_compute. lia.
  - exists 0. split; [lia|vm_compute; reflexivity].
Defined.

End Contraction.
