(* ===== verification/Quotient.v ===== *)
(** * Quotient: the contracted component has no two equivalent vertices

    The specification requires of the contraction (lines 132-179 of
    src/src/blast_to_graph.py) that no two distinct contracted vertices
    of a component share a (community, self-inclusive neighbour set) key.
    This file proves it for the graph [simplify (contract_vertices g m)]
    built from the [membership] [m] of lines 133-162: vertices merged by
    the code have equal self-inclusive neighbour sets (they are twins),
    so adjacency between two groups is all or nothing, and two groups
    whose contracted vertices look alike had alike members already. *)

From S2P Require Import Prelude HitFilter OverlapEdges Graph GroupKey Contraction.

Module Quotient.
Import Graph Contraction.

(** ** Neighbours after [simplify] and [contract_vertices] *)

Lemma elem_of_neighbors_simplify g K L :
  L ∈ neighbors (simplify g) K ↔
  K ≠ L ∧ ∃ e, e ∈ es g ∧ ((e_src e = K ∧ e_dst e = L) ∨ (e_dst e = K ∧ e_src e = L)).
Proof.
  rewrite elem_of_neighbors. cbn [simplify es]. split.
  - intros (e' & (k & -> & Hk)%list_elem_of_fmap & Hends). simpl in Hends.
    apply elem_of_sort_unique, list_elem_of_fmap in Hk as (e & -> & He).
    apply list_elem_of_filter in He as [Hne He]. unfold ends in Hends. simpl in Hends.
    split; [lia|]. exists e. split; [done|]. lia.
  - intros [HKL (e & He & Hends)].
    exists (mk_edge (ends e).2 (ends e).1
              (qsum (e_weight <$> filter (λ e', ends e' = ends e)
                                   (filter (λ e', e_src e' ≠ e_dst e') (es g))))
              (first_opt (e_subgraph <$> filter (λ e', ends e' = ends e)
                                          (filter (λ e', e_src e' ≠ e_dst e') (es g))))
              (first_opt (e_community <$> filter (λ e', ends e' = ends e)
                                            (filter (λ e', e_src e' ≠ e_dst e') (es g))))).
    split.
    + apply list_elem_of_fmap. exists (ends e). split; [done|].
      apply elem_of_sort_unique, list_elem_of_fmap. exists e. split; [done|].
      apply list_elem_of_filter. split; [lia|done].
    + unfold ends. simpl. lia.
Qed.

Lemma elem_of_neighbors_contract g m K L :
  L ∈ neighbors (simplify (contract_vertices g m)) K ↔
  K ≠ L ∧ ∃ e, e ∈ es g ∧
    ((default 0 (m !! e_src e) = K ∧ default 0 (m !! e_dst e) = L) ∨
     (default 0 (m !! e_dst e) = K ∧ default 0 (m !! e_src e) = L)).
Proof.
  rewrite elem_of_neighbors_simplify. cbn [contract_vertices es]. apply and_iff_compat_l.
  split.
  - intros (e' & (e & -> & He)%list_elem_of_fmap & Hends). eauto.
  - intros (e & He & Hends). eexists; split; [apply list_elem_of_fmap; eauto|]. done.
Qed.

(** ** Twins *)

Section Twins.
Context (g : graph) (d : list (string * list nat)) (m : list nat).
Hypothesis Hwf : wf_graph g.
Hypothesis Hsimple : ∀ v, v < nv g → simple_at g v.
Hypothesis Hd : group_nodes g = inr d.
Hypothesis Hm : membership (nv g) d = inr m.

Abbreviation R := (rep (nv g) (key_of g)).

Lemma m_lookup i : i < nv g → m !! i = Some (R i).
Proof.
  destruct (membership_of_groups g d Hd) as (m' & Hm' & _ & Hlook).
  rewrite Hm in Hm'. injection Hm' as <-. apply Hlook.
Qed.

Lemma nonisolated v : v < nv g → neighbors g v ≠ [].
Proof. apply (group_nodes_groups g d Hd). Qed.

Lemma R_le i : i < nv g → R i ≤ i.
Proof. intros Hi. apply (rep_spec (nv g) (key_of g) i Hi). Qed.

Lemma R_idem i : i < nv g → R (R i) = R i.
Proof.
  intros Hi. pose proof (R_le i Hi). apply rep_eq; [lia|done|].
  apply (rep_spec (nv g) (key_of g) i Hi).
Qed.

(** Vertices of one group have the same community and the same
    self-inclusive neighbour set. *)
Lemma twins i j :
  i < nv g → j < nv g → R i = R j →
  mjoin (v_community <$> vs g !! i) = mjoin (v_community <$> vs g !! j) ∧
  ∀ y, y = i ∨ y ∈ neighbors g i ↔ y = j ∨ y ∈ neighbors g j.
Proof.
  intros Hi Hj Hij. apply node_key_equiv; auto using nonisolated.
  apply key_of_eq; auto using nonisolated. by apply (rep_eq (nv g) (key_of g)).
Qed.

(** Adjacency between two groups is all or nothing. *)
Lemma class_adjacent a b a' b' :
  a < nv g → b < nv g → a' < nv g → b' < nv g →
  R a ≠ R b → a ∈ neighbors g b → R a' = R a → R b' = R b → a' ∈ neighbors g b'.
Proof.
  intros Ha Hb Ha' Hb' Hab Hn Haa Hbb.
  destruct (twins a a' Ha Ha' (eq_sym Haa)) as [_ Ta].
  destruct (twins b b' Hb Hb' (eq_sym Hbb)) as [_ Tb].
  assert (b ∈ neighbors g a') as Hba'.
  { destruct (proj1 (Ta b) (or_intror (neighbors_sym _ _ _ Hn))) as [->|]; [congruence|done]. }
  destruct (proj1 (Tb a') (or_intror (neighbors_sym _ _ _ Hba'))) as [->|]; [congruence|done].
Qed.

Lemma contracted_adj K L :
  L ∈ neighbors (simplify (contract_vertices g m)) K ↔
  K ≠ L ∧ ∃ a b, a < nv g ∧ b < nv g ∧ R a = K ∧ R b = L ∧ b ∈ neighbors g a.
Proof.
  rewrite elem_of_neighbors_contract. apply and_iff_compat_l. split.
  - intros (e & He & Hends). destruct (Hwf e He) as [Hs Hd'].
    rewrite !m_lookup in Hends by done. simpl in Hends.
    destruct Hends as [[<- <-]|[<- <-]].
    + exists (e_src e), (e_dst e). do 4 (split; [done|]). apply elem_of_neighbors. eauto.
    + exists (e_dst e), (e_src e). do 4 (split; [done|]). apply elem_of_neighbors. eauto.
  - intros (a & b & Ha & Hb & <- & <- & (e & He & Hends)%elem_of_neighbors).
    exists e. split; [done|]. destruct Hends as [[-> ->]|[-> ->]]; rewrite !m_lookup by done; auto.
Qed.

Lemma members_head K : K < nv g → R K = K → head (members m K) = Some K.
Proof.
  intros HK HRK. unfold members. apply head_filter_seq.
  assert (length m = nv g) as Hlen by (by apply membership_length in Hm).
  split; [lia|]. split; [by rewrite m_lookup, HRK|].
  intros j [_ Hj]. rewrite m_lookup by lia. intros [= HjK].
  pose proof (R_le j ltac:(lia)). lia.
Qed.

(** The community of a contracted vertex is the one of its group's
    least vertex, which is the vertex's own index. *)
Lemma contracted_community K :
  K < nv g → R K = K →
  mjoin (v_community <$> vs (simplify (contract_vertices g m)) !! K) =
  mjoin (v_community <$> vs g !! K).
Proof.
  intros HK HRK.
  assert (K < new_count m) as HKc.
  { assert (K ∈ m) as HKm by (eapply list_elem_of_lookup_2; rewrite m_lookup, HRK; done).
    unfold new_count. destruct m as [|x m']; [by apply not_elem_of_nil in HKm|].
    pose proof (max_list_elem_of_le K (x :: m') HKm). lia. }
  cbn [simplify contract_vertices vs]. rewrite list_lookup_fmap, lookup_seq_lt by done. simpl.
  unfold combine, first_opt. simpl. pose proof (members_head K HK HRK) as Hh.
  destruct (members m K) as [|k ks]; [done|]. injection Hh as ->. simpl.
  destruct (lookup_lt_is_Some_2 (vs g) K HK) as [v ->]. done.
Qed.

Lemma half a b :
  a < nv g → b < nv g → R a = a → R b = b → a ≠ b →
  (∀ y, y = a ∨ y ∈ neighbors (simplify (contract_vertices g m)) a →
        y = b ∨ y ∈ neighbors (simplify (contract_vertices g m)) b) →
  ∀ y, y = a ∨ y ∈ neighbors g a → y = b ∨ y ∈ neighbors g b.
Proof.
  intros Ha Hb HRa HRb Hab Hsub.
  (** the groups of [a] and [b] are adjacent *)
  assert (a ∈ neighbors g b) as Hadj.
  { destruct (Hsub a (or_introl eq_refl)) as [->|Hn]; [done|].
    apply contracted_adj in Hn as (_ & a' & b' & Ha' & Hb' & Ra' & Rb' & Hn).
    apply (class_adjacent b' a'); auto; congruence. }
  intros y [->|Hy]; [by right|].
  assert (y < nv g) as Hyn by (eapply neighbors_range; eauto).
  destruct (decide (R y = a)) as [Hya|Hya].
  - right. apply (class_adjacent a b); auto; congruence.
  - destruct (Hsub (R y)) as [Hyb|Hn].
    + right. apply contracted_adj. split; [done|]. exists a, y. eauto 10.
    + destruct (twins y b Hyn Hb ltac:(congruence)) as [_ Tb].
      apply Tb. by left.
    + apply contracted_adj in Hn as (Hbn & a' & b' & Ha' & Hb' & Ra' & Rb' & Hn).
      right. apply (class_adjacent b' a'); auto; congruence.
Qed.

(** C36: No two contracted vertices of a component share a community and
    a self-inclusive neighbour set: when two vertices of a loop-free
    component without parallel edges are sent to different groups, the
    contracted vertices of their groups differ in community or in
    neighbours.  Contraction leaves no equivalent vertices behind. *)
Theorem contract_no_twins i j K1 K2 :
  i < nv g → j < nv g → m !! i = Some K1 → m !! j = Some K2 → K1 ≠ K2 →
  ¬ (mjoin (v_community <$> vs (simplify (contract_vertices g m)) !! K1) =
      mjoin (v_community <$> vs (simplify (contract_vertices g m)) !! K2) ∧
     ∀ y, y = K1 ∨ y ∈ neighbors (simplify (contract_vertices g m)) K1 ↔
          y = K2 ∨ y ∈ neighbors (simplify (contract_vertices g m)) K2).
Proof.
  intros Hi Hj HK1 HK2 HK [Hc Hn].
  rewrite m_lookup in HK1, HK2 by done. injection HK1 as <-. injection HK2 as <-.
  pose proof (R_le i Hi). pose proof (R_le j Hj).
  pose proof (R_idem i Hi) as Ri. pose proof (R_idem j Hj) as Rj.
  rewrite !contracted_community in Hc by (done || lia).
  assert (∀ y, y = R i ∨ y ∈ neighbors g (R i) ↔ y = R j ∨ y ∈ neighbors g (R j)) as Hg.
  { intros y. split; apply half; (done || lia || intros z; apply Hn). }
  apply HK. rewrite <-Ri, <-Rj. apply rep_eq; [lia|lia|].
  apply key_of_eq, node_key_equiv; auto with lia; apply nonisolated || apply Hsimple; lia.
Qed.

End Twins.

(** In [Contraction.ex_p] vertices 0 and 1 merge into 0, and 2 stays
    apart: the contracted vertices 0 and 2 differ. *)
Lemma contract_no_twins_witness :
  ¬ (mjoin (v_community <$> vs (simplify (contract_vertices ex_p [0; 0; 2; 3])) !! 0) =
      mjoin (v_community <$> vs (simplify (contract_vertices ex_p [0; 0; 2; 3])) !! 2) ∧
     ∀ y, y = 0 ∨ y ∈ neighbors (simplify (contract_vertices ex_p [0; 0; 2; 3])) 0 ↔
          y = 2 ∨ y ∈ neighbors (simplify (contract_vertices ex_p [0; 0; 2; 3])) 2).
Proof.
  refine (contract_no_twins ex_p ex_p_groups [0; 0; 2; 3] _ _ _ _ 0 2 0 2 _ _ _ _ _).
  - intros e He.
    assert (Forall (λ e, e_src e < nv ex_p ∧ e_dst e < nv ex_p) (es ex_p)) as Hf
      by (apply (bool_decide_unpack _); vm_compute; reflexivity).
    rewrite Forall_forall in Hf. by apply Hf.
  - intros v Hv. vm_compute in Hv.
    do 4 (destruct v as [|v]; [split; apply (bool_decide_unpack _); vm_compute; reflexivity|]).
    lia.
  - vm_compute. reflexivity.
  - vm_compute. reflexivity.
  - vm_compute. lia.
  - vm_compute. lia.
  - reflexivity.
  - reflexivity.
  - done.
Defined.

End Quotient.
