(* ===== verification/Pipeline.v ===== *)
(** * Pipeline: the per-component loop and the output tables

    Models lines 112-131 and 181-213 of src/src/blast_to_graph.py: for
    every weak component, in the order igraph lists them, the induced
    subgraph is tagged with its index (lines 120-121), laid out (lines
    123-125), split into communities (lines 127-129), contracted
    ([Contraction.contract_component], lines 132-179), numbered (line
    181) and appended to the node and edge tables (lines 188-213).  The
    whole of [_blast_to_graph] (lines 20-213) is [blast_to_graph_tables].

    Layout and community detection are delegated services: the class
    [Services] states the contract the code relies on (one position per
    vertex; communities that partition the vertices) and the theorems
    hold for every instance of it. *)

From S2P Require Import Prelude HitFilter OverlapEdges Graph GroupKey Contraction Quotient.

Module Pipeline.
Import Graph Contraction.

(** ** The delegated services *)

(** [subgraph.layout("kamada_kawai")] and
    [subgraph.community_fastgreedy().as_clustering()]. *)
Class Services := {
  layout : graph → list (Q * Q);
  community_fastgreedy : graph → list (list nat);
  layout_length g : length (layout g) = nv g;
  communities_cover g v : v ∈ concat (community_fastgreedy g) ↔ v < nv g;
  communities_NoDup g : NoDup (concat (community_fastgreedy g))
}.

(** ** Attributes of a component *)

Definition with_subgraph (i : nat) (v : vertex) : vertex :=
  mk_vertex (v_name v) (v_weight v) (Some i) (v_x v) (v_y v) (v_community v).

Definition e_with_subgraph (i : nat) (e : edge) : edge :=
  mk_edge (e_src e) (e_dst e) (e_weight e) (Some i) (e_community e).

(** Lines 120-121. *)
Definition tag_subgraph (i : nat) (g : graph) : graph :=
  mk_graph (with_subgraph i <$> vs g) (e_with_subgraph i <$> es g).

Definition with_position (v : vertex) (p : Q * Q) : vertex :=
  mk_vertex (v_name v) (v_weight v) (v_subgraph v) (Some p.1) (Some p.2) (v_community v).

(** Lines 124-125: an attribute list of the wrong length raises. *)
Definition set_positions (g : graph) (pos : list (Q * Q)) : result graph :=
  if decide (length pos = nv g) then mret (mk_graph (zip_with with_position (vs g) pos) (es g))
  else throw (ValueError "attribute list length must match the number of vertices").

Definition with_community (ci : nat) (v : vertex) : vertex :=
  mk_vertex (v_name v) (v_weight v) (v_subgraph v) (v_x v) (v_y v) (Some ci).

Definition e_with_community (ci : nat) (e : edge) : edge :=
  mk_edge (e_src e) (e_dst e) (e_weight e) (e_subgraph e) (Some ci).

(** Lines 128-129: [subgraph.vs[community]] raises on an index that is
    not a vertex; [es.select(_within=community)] are the edges with both
    ends in the community. *)
Definition set_community (g : graph) (ci : nat) (community : list nat) : result graph :=
  if decide (Forall (λ k, k < nv g) community) then
    mret (mk_graph (imap (λ k v, if decide (k ∈ community) then with_community ci v else v) (vs g))
                   ((λ e, if decide (e_src e ∈ community ∧ e_dst e ∈ community)
                          then e_with_community ci e else e) <$> es g))
  else throw (ValueError "vertex index out of range").

(** Lines 127-129: [for community_index, community in enumerate(...)]. *)
Definition assign_communities (g : graph) (clusters : list (list nat)) : result graph :=
  fold_result (λ g ic, set_community g ic.1 ic.2) (zip (seq 0 (length clusters)) clusters) g.

(** Lines 118-129 for the component [c] of index [i]. *)
Definition prepare `{Services} (g : graph) (i : nat) (c : list nat) : result graph :=
  let sg := tag_subgraph i (subgraph g c) in
  sg' ← set_positions sg (layout sg);
  assign_communities sg' (community_fastgreedy sg').

(** ** The output tables *)

(** A row of [nodes.tsv]. *)
Record node_row := mk_node_row {
  nr_name : string;
  nr_weight : nat;
  nr_subgraph : option nat;
  nr_x : option Q;
  nr_y : option Q;
  nr_community : option nat;
  nr_node : nat
}.

(** A row of [edges.tsv]. *)
Record edge_row := mk_edge_row {
  er_source : nat;
  er_target : nat;
  er_weight : Q;
  er_subgraph : option nat;
  er_community : option nat
}.

(** Lines 181 and 188-189: [vs["node"] = vs.indices], one row per vertex. *)
Definition node_rows (g : graph) : list node_row :=
  imap (λ k v, mk_node_row (v_name v) (v_weight v) (v_subgraph v) (v_x v) (v_y v)
                           (v_community v) k) (vs g).

(** Line 191: [get_edge_dataframe()]. *)
Definition edge_rows (g : graph) : list edge_row :=
  (λ e, mk_edge_row (e_src e) (e_dst e) (e_weight e) (e_subgraph e) (e_community e)) <$> es g.

(** Lines 205-213: the first table is taken as it is, later ones are
    concatenated. *)
Definition append_rows {A} (acc new : list A) : list A :=
  if decide (length acc = 0) then new else acc ++ new.

(** Lines 116-191 for one component. *)
Definition component_tables `{Services} (g : graph) (i : nat) (c : list nat) :
    result (list node_row * list edge_row) :=
  sg ← prepare g i c;
  cg ← contract_component sg;
  mret (node_rows cg, edge_rows cg).

(** Lines 112-213. *)
Definition process_graph `{Services} (g : graph) : result (list node_row * list edge_row) :=
  let comps := connected_components g in
  fold_result (λ acc ic, t ← component_tables g ic.1 ic.2;
                         mret (append_rows acc.1 t.1, append_rows acc.2 t.2))
              (zip (seq 0 (length comps)) comps) ([], []).

(** Lines 20-213: [_blast_to_graph]. *)
Definition blast_to_graph_tables `{Services} (nc ec : HitFilter.column) (rows : list HitFilter.hit) :
    result (list node_row * list edge_row) :=
  fs ← HitFilter.filter_hits nc ec rows;
  ov ← OverlapEdges.build_overlap fs;
  process_graph (assemble ov).

(** ** What the preparation steps keep *)

(** Two graphs agree on everything but positions and communities. *)
Definition kept (g1 g2 : graph) : Prop :=
  (λ v, (v_name v, v_weight v, v_subgraph v)) <$> vs g1 =
  (λ v, (v_name v, v_weight v, v_subgraph v)) <$> vs g2 ∧
  (λ e, (e_src e, e_dst e, e_subgraph e)) <$> es g1 =
  (λ e, (e_src e, e_dst e, e_subgraph e)) <$> es g2.

(** Every vertex and edge carries the component index [i]. *)
Definition tagged (i : nat) (g : graph) : Prop :=
  Forall (λ v, v_subgraph v = Some i) (vs g) ∧ Forall (λ e, e_subgraph e = Some i) (es g).

Lemma kept_refl g : kept g g.
Proof. done. Qed.

Lemma kept_trans g1 g2 g3 : kept g1 g2 → kept g2 g3 → kept g1 g3.
Proof. intros [H1 H2] [H3 H4]. split; congruence. Qed.

Lemma kept_nv g1 g2 : kept g1 g2 → nv g1 = nv g2.
Proof. intros [H _]. apply (f_equal length) in H. by rewrite !length_fmap in H. Qed.

Lemma Forall_fmap_eq {A B} (h : A → B) (P : B → Prop) l1 l2 :
  h <$> l1 = h <$> l2 → Forall (P ∘ h) l1 → Forall (P ∘ h) l2.
Proof. intros Heq. rewrite <-!Forall_fmap, Heq. done. Qed.

Lemma kept_tagged i g1 g2 : kept g1 g2 → tagged i g1 → tagged i g2.
Proof.
  intros [Hv He] [Tv Te]. split.
  - apply (Forall_fmap_eq _ (λ t, t.2 = Some i) _ _ Hv). by eapply Forall_impl; [exact Tv|].
  - apply (Forall_fmap_eq _ (λ t, t.2 = Some i) _ _ He). by eapply Forall_impl; [exact Te|].
Qed.

Lemma fmap_zip_with_l {A B D} (h : A → D) (f : A → B → A) (l : list A) (k : list B) :
  (∀ x y, h (f x y) = h x) → length l = length k → h <$> zip_with f l k = h <$> l.
Proof.
  intros Hf. revert k. induction l as [|x l IH]; intros [|y k] Hlen; simpl in *; try lia; [done|].
  rewrite Hf, IH by lia. done.
Qed.

Lemma fmap_imap_proj {A B C} (h : B → C) (h' : A → C) (f : nat → A → B) (l : list A) :
  (∀ k x, h (f k x) = h' x) → h <$> imap f l = h' <$> l.
Proof.
  revert f. induction l as [|x l IH]; intros f Hf; [done|].
  rewrite imap_cons, !fmap_cons, Hf, IH; [done|]. intros k y. apply Hf.
Qed.

Lemma tag_subgraph_tagged i g : tagged i (tag_subgraph i g).
Proof. split; apply Forall_fmap, Forall_true; done. Qed.

Lemma set_positions_kept g pos g' : set_positions g pos = inr g' → kept g g'.
Proof.
  unfold set_positions. case_decide as Hlen; [|done]. intros [= <-].
  split; [|done]. symmetry. apply fmap_zip_with_l; [done|]. by rewrite Hlen.
Qed.

Lemma set_community_kept g ci c g' : set_community g ci c = inr g' → kept g g'.
Proof.
  unfold set_community. case_decide; [|done]. intros [= <-]. split; simpl.
  - symmetry. apply fmap_imap_proj. intros k v. by case_decide.
  - rewrite <-list_fmap_compose. apply list_fmap_ext. intros _ e _. simpl. by case_decide.
Qed.

Lemma assign_communities_kept g cl g' : assign_communities g cl = inr g' → kept g g'.
Proof.
  apply (fold_result_invariant (kept g)); [apply kept_refl|].
  intros s [ci c] s' _ Hs Hc. eapply kept_trans; [exact Hs|]. by eapply set_community_kept.
Qed.

Lemma prepare_kept `{Services} g i c sg :
  prepare g i c = inr sg → kept (tag_subgraph i (subgraph g c)) sg ∧ tagged i sg.
Proof.
  unfold prepare. intros (sg1 & Hpos & Hcom)%bind_inr_inv.
  assert (kept (tag_subgraph i (subgraph g c)) sg) as Hk.
  { eapply kept_trans; [by eapply set_positions_kept|by eapply assign_communities_kept]. }
  split; [done|]. eapply kept_tagged; [exact Hk|apply tag_subgraph_tagged].
Qed.

(** ** The preparation never raises *)

Lemma set_community_ok g ci c :
  Forall (λ k, k < nv g) c → ∃ g', set_community g ci c = inr g' ∧ kept g g'.
Proof.
  intros Hc. unfold set_community. rewrite decide_True by done. eexists; split; [done|].
  by eapply set_community_kept; unfold set_community; rewrite decide_True.
Qed.

Lemma elem_of_zip_seq {A} (l : list A) i x : (i, x) ∈ zip (seq 0 (length l)) l → l !! i = Some x.
Proof.
  intros [k Hk]%list_elem_of_lookup. apply lookup_zip_with_Some in Hk as (i' & x' & [= <- <-] & Hi & Hx).
  apply lookup_seq in Hi as [-> _]. done.
Qed.

Lemma assign_communities_ok `{Services} g :
  ∃ g', assign_communities g (community_fastgreedy g) = inr g' ∧ kept g g'.
Proof.
  apply fold_result_ok; [apply kept_refl|]. intros s [ci c] Hx Hs.
  destruct (set_community_ok s ci c) as (s' & Hs' & Hk).
  - apply Forall_forall. intros k Hk. rewrite <-(kept_nv _ _ Hs).
    apply communities_cover, elem_of_concat. exists c. split; [done|].
    apply elem_of_zip_seq in Hx. by eapply list_elem_of_lookup_2.
  - exists s'. split; [done|]. by eapply kept_trans.
Qed.

Lemma prepare_ok `{Services} g i c : ∃ sg, prepare g i c = inr sg.
Proof.
  unfold prepare. set (sg := tag_subgraph i (subgraph g c)).
  unfold set_positions. rewrite decide_True by apply layout_length. rewrite bind_ret.
  destruct (assign_communities_ok (mk_graph (zip_with with_position (vs sg) (layout sg)) (es sg)))
    as (g' & Hg' & _).
  eauto.
Qed.

(** ** Components as induced subgraphs *)

Lemma position_lookup c p v : NoDup c → c !! p = Some v → position c v = p.
Proof.
  intros Hnd Hp. unfold position.
  destruct (list_find_elem_of (λ u, u = v) c v) as [[i x] Hf];
    [by eapply list_elem_of_lookup_2|done|].
  rewrite Hf. apply list_find_Some in Hf as (Hi & -> & _). simpl.
  by eapply NoDup_lookup.
Qed.

Lemma length_omap_Some {A B} (f : A → option B) (l : list A) :
  (∀ x, x ∈ l → is_Some (f x)) → length (omap f l) = length l.
Proof.
  induction l as [|x l IH]; intros Hl; [done|]. simpl.
  destruct (Hl x ltac:(by left)) as [y ->]. simpl. f_equal. apply IH. intros z Hz. apply Hl. by right.
Qed.

Lemma nv_subgraph g c : (∀ v, v ∈ c → v < nv g) → nv (subgraph g c) = length c.
Proof. intros Hc. apply length_omap_Some. intros v Hv. apply lookup_lt_is_Some_2, Hc, Hv. Qed.

(** [neighbors] reads the ends of the edges only. *)
Lemma neighbors_ends g1 g2 v :
  (λ e, (e_src e, e_dst e)) <$> es g1 = (λ e, (e_src e, e_dst e)) <$> es g2 →
  neighbors g1 v = neighbors g2 v.
Proof.
  unfold neighbors. intros Heq. f_equal. revert Heq. generalize (es g1) (es g2).
  intros l1. induction l1 as [|e1 l1 IH]; intros [|e2 l2] Hl; try done.
  rewrite !fmap_cons in Hl. injection Hl as Hs Hd Hl.
  rewrite !bind_cons. unfold incident_ends at 1 3. rewrite Hs, Hd. f_equal. by apply IH.
Qed.

Lemma component_facts g c :
  wf_graph g → c ∈ connected_components g →
  (∀ v, v ∈ c → v < nv g) ∧ NoDup c ∧ (∀ v w, v ∈ c → w ∈ neighbors g v → w ∈ c).
Proof.
  intros Hwf Hc. destruct (cc_inv_components g Hwf) as [Hcomp _].
  destruct (Hcomp c Hc) as (w0 & Hw0 & ->). split; [|split].
  - intros v Hv%component_of_iff; [|done|done]. by eapply reachable_range.
  - unfold component_of. apply closure_NoDup, NoDup_sort_unique.
  - intros v w Hv%component_of_iff Hw; [|done|done]. apply component_of_iff; [done|done|].
    by eapply reach_step.
Qed.

(** No vertex of a component's subgraph is isolated when none is in
    the whole graph. *)
Lemma subgraph_no_isolated g c :
  wf_graph g → c ∈ connected_components g → (∀ v, v < nv g → neighbors g v ≠ []) →
  ∀ p, p < nv (subgraph g c) → neighbors (subgraph g c) p ≠ [].
Proof.
  intros Hwf Hc Hn p Hp. destruct (component_facts g c Hwf Hc) as (Hr & Hnd & Hcl).
  rewrite nv_subgraph in Hp by done. destruct (lookup_lt_is_Some_2 c p Hp) as [v Hv].
  assert (v ∈ c) as Hvc by (by eapply list_elem_of_lookup_2).
  destruct (neighbors g v) as [|w ws] eqn:Hnb; [by destruct (Hn v (Hr v Hvc))|].
  assert (w ∈ neighbors g v) as Hw by (rewrite Hnb; left).
  assert (w ∈ c) as Hwc by (by apply (Hcl v w)).
  apply elem_of_neighbors in Hw as (e & He & Hends). intros Hnil.
  assert (mk_edge (position c (e_src e)) (position c (e_dst e)) (e_weight e)
                  (e_subgraph e) (e_community e) ∈ es (subgraph g c)) as He'.
  { apply list_elem_of_fmap. exists e. split; [done|]. apply list_elem_of_filter.
    split; [|done]. destruct Hends as [[-> ->]|[-> ->]]; auto. }
  assert (position c w ∈ neighbors (subgraph g c) p) as Hin.
  { apply elem_of_neighbors. eexists; split; [exact He'|]. simpl.
    rewrite <-(position_lookup c p v Hnd Hv). destruct Hends as [[-> ->]|[-> ->]]; auto. }
  rewrite Hnil in Hin. by apply not_elem_of_nil in Hin.
Qed.

Lemma component_sorted g c :
  wf_graph g → c ∈ connected_components g → StronglySorted lt c.
Proof.
  intros Hwf Hc. destruct (cc_inv_components g Hwf) as [Hcomp _].
  destruct (Hcomp c Hc) as (w & _ & ->). apply closure_sorted, sort_unique_sorted.
Qed.

Lemma position_lt c x y :
  StronglySorted lt c → x ∈ c → y ∈ c → x < y → position c x < position c y.
Proof.
  intros Hs (i & Hi)%list_elem_of_lookup (j & Hj)%list_elem_of_lookup Hxy.
  assert (NoDup c) as Hnd by exact (StronglySorted_lt_NoDup (A:=nat) c Hs).
  rewrite (position_lookup c i x), (position_lookup c j y) by done.
  by apply (StronglySorted_lookup_lt (A:=nat) c i j x y).
Qed.

Lemma position_inj c x y : NoDup c → x ∈ c → y ∈ c → position c x = position c y → x = y.
Proof.
  intros Hnd (i & Hi)%list_elem_of_lookup (j & Hj)%list_elem_of_lookup.
  rewrite (position_lookup c i x), (position_lookup c j y) by done. congruence.
Qed.

(** The subgraph of a sorted component keeps the edges ordered and
    the pairs distinct, hence simple. *)
Lemma subgraph_simple g c :
  wf_graph g → c ∈ connected_components g →
  (∀ e, e ∈ es g → e_src e < e_dst e) → NoDup ((λ e, (e_src e, e_dst e)) <$> es g) →
  ∀ v, simple_at (subgraph g c) v.
Proof.
  intros Hwf Hc Hlt Hnd. pose proof (component_sorted g c Hwf Hc) as Hs.
  assert (NoDup c) as Hndc by exact (StronglySorted_lt_NoDup (A:=nat) c Hs).
  apply simple_of_edges.
  - cbn [subgraph es]. intros e' (e & -> & [[H1 H2] He]%list_elem_of_filter)%list_elem_of_fmap.
    simpl. by apply position_lt, Hlt.
  - cbn [subgraph es]. rewrite <-list_fmap_compose.
    rewrite (list_fmap_compose (λ e, (e_src e, e_dst e)) (λ p, (position c p.1, position c p.2))).
    apply NoDup_fmap_2_strong.
    + intros [a b] [a' b'] (e & [= -> ->] & [[Ha Hb] _]%list_elem_of_filter)%list_elem_of_fmap
        (e' & [= -> ->] & [[Ha' Hb'] _]%list_elem_of_filter)%list_elem_of_fmap [= Hpa Hpb].
      f_equal; by eapply position_inj.
    + eapply sublist_NoDup; [exact Hnd|]. by apply fmap_sublist, sublist_filter.
Qed.

Lemma kept_ends g1 g2 :
  kept g1 g2 → (λ e, (e_src e, e_dst e)) <$> es g1 = (λ e, (e_src e, e_dst e)) <$> es g2.
Proof.
  intros [_ He]. apply (f_equal (fmap (λ t : nat * nat * option nat, (t.1.1, t.1.2)))) in He.
  rewrite <-!list_fmap_compose in He. exact He.
Qed.

Lemma tag_subgraph_ends i g :
  (λ e, (e_src e, e_dst e)) <$> es (tag_subgraph i g) = (λ e, (e_src e, e_dst e)) <$> es g.
Proof. cbn [tag_subgraph es]. rewrite <-list_fmap_compose. by apply list_fmap_ext. Qed.

Lemma component_tables_ok `{Services} g i c :
  wf_graph g → c ∈ connected_components g → (∀ v, v < nv g → neighbors g v ≠ []) →
  ∃ t, component_tables g i c = inr t.
Proof.
  intros Hwf Hc Hn. destruct (prepare_ok g i c) as [sg Hsg].
  pose proof (prepare_kept g i c sg Hsg) as [Hk _].
  destruct (proj2 (contract_component_ok sg)) as [cg Hcg].
  - intros v Hv. rewrite <-(kept_nv _ _ Hk) in Hv.
    rewrite <-(neighbors_ends (subgraph g c)) by (by rewrite <-(kept_ends _ _ Hk), tag_subgraph_ends).
    apply (subgraph_no_isolated g c Hwf Hc Hn). unfold nv in *. simpl in Hv. by rewrite length_fmap in Hv.
  - unfold component_tables. rewrite Hsg, bind_inr, Hcg, bind_inr. eauto.
Qed.

Lemma process_graph_ok `{Services} g :
  wf_graph g → (∀ v, v < nv g → neighbors g v ≠ []) → ∃ t, process_graph g = inr t.
Proof.
  intros Hwf Hn. unfold process_graph.
  destruct (fold_result_ok (λ _, True)
    (λ acc ic, t ← component_tables g ic.1 ic.2; mret (append_rows acc.1 t.1, append_rows acc.2 t.2))
    (zip (seq 0 (length (connected_components g))) (connected_components g)) ([], []))
    as (r & Hr & _); [done| |eauto].
  intros acc [i c] Hx _. apply elem_of_zip_seq in Hx.
  destruct (component_tables_ok g i c Hwf) as [t Ht]; [by eapply list_elem_of_lookup_2|done|].
  cbn [fst snd]. rewrite Ht, bind_inr. eauto.
Qed.

Lemma blast_to_graph_errors_iff `{Services} nc ec rows e :
  blast_to_graph_tables nc ec rows = inl e ↔ HitFilter.filter_hits nc ec rows = inl e.
Proof.
  unfold blast_to_graph_tables.
  destruct (HitFilter.filter_hits nc ec rows) as [e'|fs] eqn:Hf; [rewrite bind_inl_eq; split; congruence|].
  rewrite bind_inr. destruct (OverlapEdges.build_overlap_ok fs) as [ov Hov]. rewrite Hov, bind_inr.
  destruct (process_graph_ok (assemble ov)) as [t Ht].
  - apply (proj1 (assemble_ok fs ov Hov)).
  - intros v Hv. by apply (assemble_neighbors fs ov v Hov Hv).
  - rewrite Ht. split; congruence.
Qed.

Lemma prepare_neighbors `{Services} g i c sg :
  prepare g i c = inr sg → ∀ v, neighbors sg v = neighbors (subgraph g c) v.
Proof.
  intros Hsg v. pose proof (prepare_kept g i c sg Hsg) as [Hk _].
  symmetry. apply neighbors_ends. by rewrite <-(kept_ends _ _ Hk), tag_subgraph_ends.
Qed.

Lemma prepare_nv `{Services} g i c sg : prepare g i c = inr sg → nv sg = nv (subgraph g c).
Proof.
  intros Hsg. pose proof (prepare_kept g i c sg Hsg) as [Hk _].
  rewrite <-(kept_nv _ _ Hk). unfold nv. simpl. by rewrite length_fmap.
Qed.

(** C37: Every component the pipeline hands to the contraction (line
    132) is a graph without loops, parallel edges or isolated vertices,
    so the contraction's guarantees (C20, C23, C36) apply to it. *)
Theorem prepared_component_simple `{Services} fs ov i c sg :
  OverlapEdges.build_overlap fs = inr ov → c ∈ connected_components (assemble ov) →
  prepare (assemble ov) i c = inr sg →
  ∀ v, v < nv sg → simple_at sg v ∧ neighbors sg v ≠ [].
Proof.
  intros Hov Hc Hsg v Hv. destruct (assemble_ok fs ov Hov) as [Hwf Hlt].
  unfold simple_at. rewrite (prepare_neighbors _ _ _ _ Hsg). split.
  - apply subgraph_simple; [done|done|done|]. by eapply assemble_pairs_NoDup.
  - rewrite (prepare_nv _ _ _ _ Hsg) in Hv. apply (subgraph_no_isolated _ c Hwf Hc); [|done].
    intros u Hu. by apply (assemble_neighbors fs ov u Hov).
Qed.

(** C28: Once the hits are filtered nothing raises: [_blast_to_graph]
    raises exactly the exceptions of its filtering step (lines 25-35),
    for every layout and community service that keeps its contract. *)
Theorem blast_to_graph_errors `{Services} nc ec rows e :
  blast_to_graph_tables nc ec rows = inl e ↔ HitFilter.filter_hits nc ec rows = inl e.
Proof. apply blast_to_graph_errors_iff. Qed.

(** ** The tables conserve the vertex weight *)

Lemma sum_append_rows (w : node_row → nat) acc new :
  sum_list (w <$> append_rows acc new) = sum_list (w <$> acc) + sum_list (w <$> new).
Proof.
  unfold append_rows. case_decide as Hl; [|by rewrite fmap_app, sum_list_app].
  by apply nil_length_inv in Hl as ->.
Qed.

Lemma component_tables_weight `{Services} g i c t :
  component_tables g i c = inr t →
  sum_list (nr_weight <$> t.1) = sum_list (v_weight <$> vs (subgraph g c)).
Proof.
  unfold component_tables. intros (sg & Hsg & Hb)%bind_inr_inv.
  apply bind_inr_inv in Hb as (cg & Hcg & Hb). injection Hb as <-. cbn [fst].
  unfold node_rows. rewrite (fmap_imap_proj _ v_weight) by done. rewrite (contract_component_weight_eq sg cg Hcg).
  destruct (prepare_kept g i c sg Hsg) as [[Hv _] _].
  assert (v_weight <$> vs sg = v_weight <$> vs (tag_subgraph i (subgraph g c))) as ->.
  { apply (f_equal (fmap (λ t : string * nat * option nat, t.1.2))) in Hv.
    rewrite <-!list_fmap_compose in Hv. symmetry. exact Hv. }
  cbn [tag_subgraph vs]. by rewrite <-list_fmap_compose.
Qed.

Lemma process_loop_weight `{Services} g L acc r :
  fold_result (λ acc ic, t ← component_tables g ic.1 ic.2;
                         mret (append_rows acc.1 t.1, append_rows acc.2 t.2)) L acc = inr r →
  sum_list (nr_weight <$> r.1) =
  sum_list (nr_weight <$> acc.1) +
  sum_list ((λ c, sum_list (v_weight <$> vs (subgraph g c))) <$> (snd <$> L)).
Proof.
  revert acc. induction L as [|[i c] L IH]; intros acc; [intros [= <-]; simpl; lia|].
  cbn [fold_result]. intros (acc' & Hstep & Hrest)%bind_inr_inv. rewrite (IH acc' Hrest).
  apply bind_inr_inv in Hstep as (t & Ht & Hacc). injection Hacc as <-. cbn [fst snd].
  rewrite sum_append_rows, (component_tables_weight g i c t Ht), !fmap_cons.
  cbn [sum_list snd]. unfold id. lia.
Qed.

Lemma process_graph_weight_eq `{Services} g t :
  wf_graph g → process_graph g = inr t → sum_list (nr_weight <$> t.1) = sum_list (v_weight <$> vs g).
Proof.
  intros Hwf Ht. rewrite (process_loop_weight g _ _ _ Ht), snd_zip by (rewrite length_seq; lia).
  cbn [fst]. rewrite fmap_nil. cbn [sum_list]. rewrite Nat.add_0_l.
  transitivity (sum_list ((λ l, sum_list (v_weight <$> l)) <$>
                          ((omap (λ v, vs g !! v)) <$> connected_components g))).
  { f_equal. rewrite <-list_fmap_compose. by apply list_fmap_ext. }
  rewrite sum_list_fmap_concat, <-omap_concat.
  destruct (cc_partition g Hwf) as [Hcov Hnd].
  rewrite (NoDup_Permutation (concat (connected_components g)) (seq 0 (nv g))); [| |apply NoDup_seq|].
  - by rewrite (omap_lookup_seq (vs g)).
  - done.
  - intros v. rewrite elem_of_seq, <-Hcov. lia.
Qed.

Lemma sum_list_const_1 {A} (l : list A) : sum_list ((λ _, 1) <$> l) = length l.
Proof. induction l as [|x l IH]; [done|]. rewrite fmap_cons. cbn [sum_list length]. by rewrite IH. Qed.

(** C29: End-to-end mass conservation: the weights of [nodes.tsv] sum
    to the number of query sequences kept by lines 38-93, whatever the
    layout and community services return within their contract. *)
Theorem blast_to_graph_weight `{Services} nc ec rows nodes edges :
  blast_to_graph_tables nc ec rows = inr (nodes, edges) →
  ∃ fs ov, HitFilter.filter_hits nc ec rows = inr fs ∧ OverlapEdges.build_overlap fs = inr ov ∧
           sum_list (nr_weight <$> nodes) = length (OverlapEdges.ov_names ov).
Proof.
  unfold blast_to_graph_tables. intros (fs & Hfs & Hb)%bind_inr_inv.
  apply bind_inr_inv in Hb as (ov & Hov & Hp). exists fs, ov. do 2 (split; [done|]).
  change nodes with (nodes, edges).1.
  rewrite (process_graph_weight_eq (assemble ov) (nodes, edges) (proj1 (assemble_ok fs ov Hov)) Hp).
  cbn [assemble vs]. rewrite <-list_fmap_compose. apply sum_list_const_1.
Qed.

(** ** Every row carries its component *)

Lemma elem_of_omap_lookup {A} (l : list A) (idx : list nat) x :
  x ∈ omap (λ i, l !! i) idx → x ∈ l.
Proof. intros (i & _ & Hi)%list_elem_of_omap. by eapply list_elem_of_lookup_2. Qed.

Lemma contract_component_inv g cg :
  contract_component g = inr cg →
  ∃ d m, group_nodes g = inr d ∧ membership (nv g) d = inr m ∧ cg = simplify (contract_vertices g m).
Proof.
  unfold contract_component. intros (d & Hd & Hb)%bind_inr_inv.
  apply bind_inr_inv in Hb as (m & Hm & Hb). injection Hb as <-. eauto.
Qed.

Lemma group_nonempty (l : list edge) k :
  k ∈ sort_unique (ends <$> l) → ∃ y ys, filter (λ e, ends e = k) l = y :: ys ∧ y ∈ l.
Proof.
  intros (e0 & -> & He0)%elem_of_sort_unique%list_elem_of_fmap.
  destruct (filter (λ e, ends e = ends e0) l) as [|y ys] eqn:Hg.
  - assert (e0 ∈ filter (λ e, ends e = ends e0) l) as Hin by (by apply list_elem_of_filter).
    rewrite Hg in Hin. by apply not_elem_of_nil in Hin.
  - exists y, ys. split; [done|].
    assert (y ∈ filter (λ e, ends e = ends e0) l) as Hy by (rewrite Hg; left).
    by apply list_elem_of_filter in Hy as [_ Hy].
Qed.

Lemma contract_tagged i g m :
  tagged i g →
  (∀ v, v ∈ vs (simplify (contract_vertices g m)) → v_weight v ≠ 0 → v_subgraph v = Some i) ∧
  (∀ e, e ∈ es (simplify (contract_vertices g m)) → e_subgraph e = Some i).
Proof.
  intros [Tv Te]. rewrite Forall_forall in Tv. rewrite Forall_forall in Te. split.
  - cbn [simplify contract_vertices vs]. intros v (k & -> & _)%list_elem_of_fmap Hw.
    unfold combine in *. simpl in *. unfold first_opt.
    destruct (omap (λ j, vs g !! j) (members m k)) as [|x xs] eqn:Hmem; [done|].
    simpl. apply Tv. apply (elem_of_omap_lookup _ (members m k)). rewrite Hmem. left.
  - cbn [simplify es]. intros e (k & -> & Hk)%list_elem_of_fmap. simpl. unfold first_opt.
    cbn [contract_vertices es] in *. destruct (group_nonempty _ k Hk) as (y & ys & -> & Hy). simpl.
    apply list_elem_of_filter in Hy as [_ Hy]. cbn [contract_vertices es] in Hy.
    apply list_elem_of_fmap in Hy as (e1 & -> & He1). simpl. by apply Te.
Qed.

Lemma contract_subgraph_values i g m :
  tagged i g → ∀ v, v ∈ vs (simplify (contract_vertices g m)) → v_subgraph v = None ∨ v_subgraph v = Some i.
Proof.
  intros [Tv _]. rewrite Forall_forall in Tv. cbn [simplify contract_vertices vs].
  intros v (k & -> & _)%list_elem_of_fmap. unfold combine, first_opt. cbn.
  destruct (omap (λ j, vs g !! j) (members m k)) as [|x xs] eqn:Hmem; [by left|].
  right. apply Tv. apply (elem_of_omap_lookup _ (members m k)). rewrite Hmem. left.
Qed.

(** ** The edges of the tables join rows of their own group *)

Lemma position_in c v : v ∈ c → position c v < length c.
Proof.
  intros Hv. unfold position.
  destruct (list_find_elem_of (λ u, u = v) c v) as [[i x] Hf]; [done|done|].
  rewrite Hf. apply list_find_Some in Hf as (Hi & _ & _). cbn. by eapply lookup_lt_Some.
Qed.

Lemma subgraph_wf g c : (∀ v, v ∈ c → v < nv g) → wf_graph (subgraph g c).
Proof.
  intros Hc e He. rewrite nv_subgraph by done. cbn [subgraph es] in He.
  apply list_elem_of_fmap in He as (e0 & -> & [[Hs Hd] _]%list_elem_of_filter).
  cbn. split; by apply position_in.
Qed.

Lemma kept_wf g1 g2 : kept g1 g2 → wf_graph g1 → wf_graph g2.
Proof.
  intros Hk Hwf e He. rewrite <-(kept_nv _ _ Hk).
  assert ((e_src e, e_dst e) ∈ (λ e, (e_src e, e_dst e)) <$> es g2) as Hin
    by (apply list_elem_of_fmap; eauto).
  rewrite <-(kept_ends _ _ Hk) in Hin.
  apply list_elem_of_fmap in Hin as (e1 & Heq & He1). injection Heq as -> ->. by apply Hwf.
Qed.

Lemma tag_subgraph_wf i g : wf_graph g → wf_graph (tag_subgraph i g).
Proof.
  intros Hwf e He. cbn [tag_subgraph es] in He. apply list_elem_of_fmap in He as (e0 & -> & He0).
  unfold nv. cbn. rewrite length_fmap. by apply Hwf.
Qed.

Lemma prepare_wf `{Services} g i c sg :
  (∀ v, v ∈ c → v < nv g) → prepare g i c = inr sg → wf_graph sg.
Proof.
  intros Hc Hsg. apply (kept_wf _ _ (proj1 (prepare_kept g i c sg Hsg))).
  by apply tag_subgraph_wf, subgraph_wf.
Qed.

Lemma combine_tagged i g idx :
  tagged i g → (∃ y, y ∈ idx ∧ y < nv g) → v_subgraph (combine g idx) = Some i.
Proof.
  intros [Tv _] (y & Hy & Hyn). rewrite Forall_forall in Tv. unfold combine, first_opt. cbn.
  destruct (omap (λ j, vs g !! j) idx) as [|x xs] eqn:Hmem.
  - destruct (lookup_lt_is_Some_2 (vs g) y Hyn) as [v Hv].
    assert (v ∈ omap (λ j, vs g !! j) idx) as Hin by (apply list_elem_of_omap; eauto).
    rewrite Hmem in Hin. by apply not_elem_of_nil in Hin.
  - cbn. apply Tv, (elem_of_omap_lookup _ idx). rewrite Hmem. left.
Qed.

(** The vertex of a representative [x] in the contracted graph combines
    a non-empty group that holds [x]. *)
Lemma contracted_vertex g m x :
  x < nv g → m !! x = Some x →
  vs (simplify (contract_vertices g m)) !! x = Some (combine g (members m x)) ∧ x ∈ members m x.
Proof.
  intros Hx Hmx. assert (x < new_count m) as Hc.
  { unfold new_count. destruct m as [|y m'] eqn:E; [done|].
    pose proof (max_list_elem_of_le x (y :: m') (list_elem_of_lookup_2 _ _ _ Hmx)). lia. }
  split.
  - cbn [simplify contract_vertices vs]. rewrite list_lookup_fmap, lookup_seq_lt by done. done.
  - unfold members. apply list_elem_of_filter. split; [done|].
    apply elem_of_seq. split; [lia|]. by apply lookup_lt_Some in Hmx.
Qed.

Section ContractedEnds.
Context (g : graph) (d : list (string * list nat)) (m : list nat).
Hypothesis Hwf : wf_graph g.
Hypothesis Hd : group_nodes g = inr d.
Hypothesis Hm : membership (nv g) d = inr m.

(** The ends of a merged edge are representatives: vertices [membership]
    sends to themselves. *)
Lemma contracted_edge_ends e x :
  e ∈ es (simplify (contract_vertices g m)) → x = e_src e ∨ x = e_dst e →
  x < nv g ∧ m !! x = Some x.
Proof.
  cbn [simplify es]. intros (k & -> & Hk)%list_elem_of_fmap Hx.
  apply elem_of_sort_unique, list_elem_of_fmap in Hk as (e' & -> & [_ He']%list_elem_of_filter).
  cbn [contract_vertices es] in He'. apply list_elem_of_fmap in He' as (e0 & -> & He0).
  destruct (Hwf e0 He0) as [Hs Ht]. cbn in Hx.
  rewrite (Quotient.m_lookup g d m Hd Hm _ Hs), (Quotient.m_lookup g d m Hd Hm _ Ht) in Hx. cbn in Hx.
  assert (∀ y, y < nv g → rep (nv g) (key_of g) y < nv g ∧
                 m !! rep (nv g) (key_of g) y = Some (rep (nv g) (key_of g) y)) as Hrep.
  { intros y Hy. pose proof (Quotient.R_le g y Hy).
    rewrite (Quotient.m_lookup g d m Hd Hm), Quotient.R_idem by lia. split; [lia|done]. }
  destruct Hx as [->| ->]; [destruct (Nat.min_dec (rep (nv g) (key_of g) (e_src e0)) (rep (nv g) (key_of g) (e_dst e0))) as [->| ->]
                           |destruct (Nat.max_dec (rep (nv g) (key_of g) (e_src e0)) (rep (nv g) (key_of g) (e_dst e0))) as [->| ->]];
    by apply Hrep.
Qed.

End ContractedEnds.

Lemma component_tables_rows `{Services} g i c nodes edges :
  (∀ v, v ∈ c → v < nv g) →
  component_tables g i c = inr (nodes, edges) →
  (∀ r, r ∈ nodes → nr_weight r ≠ 0 → nr_subgraph r = Some i) ∧
  (∀ r, r ∈ nodes → nr_subgraph r = None ∨ nr_subgraph r = Some i) ∧
  (∀ r, r ∈ edges → er_subgraph r = Some i ∧
     ∃ r1 r2, nodes !! er_source r = Some r1 ∧ nr_subgraph r1 = Some i ∧
              nodes !! er_target r = Some r2 ∧ nr_subgraph r2 = Some i) ∧
  (∀ k r, nodes !! k = Some r → nr_node r = k).
Proof.
  intros Hc. unfold component_tables. intros (sg & Hsg & Hb)%bind_inr_inv.
  apply bind_inr_inv in Hb as (cg & Hcg & Hb). injection Hb as <- <-.
  apply contract_component_inv in Hcg as (d & m & Hd & Hm & ->).
  pose proof (prepare_wf g i c sg Hc Hsg) as Hwf.
  pose proof (proj2 (prepare_kept g i c sg Hsg)) as Ht.
  destruct (contract_tagged i sg m Ht) as [Hv He].
  split; [|split; [|split]].
  - intros r (k & v & -> & Hk)%elem_of_lookup_imap Hw. apply Hv; [|done].
    by eapply list_elem_of_lookup_2.
  - intros r (k & v & -> & Hk)%elem_of_lookup_imap. cbn.
    apply (contract_subgraph_values i sg m Ht). by eapply list_elem_of_lookup_2.
  - intros r (e & -> & Hin)%list_elem_of_fmap. split; [by apply He|]. cbn.
    assert (∀ x, x = e_src e ∨ x = e_dst e → ∃ r, node_rows (simplify (contract_vertices sg m)) !! x = Some r ∧
                                                 nr_subgraph r = Some i) as Hend.
    { intros x Hx. destruct (contracted_edge_ends sg d m Hwf Hd Hm e x Hin Hx) as [Hxn Hmx].
      destruct (contracted_vertex sg m x Hxn Hmx) as [Hvx Hmem].
      unfold node_rows. rewrite list_lookup_imap, Hvx. eexists; split; [done|].
      cbn. apply combine_tagged; eauto. }
    destruct (Hend _ (or_introl eq_refl)) as (r1 & ? & ?).
    destruct (Hend _ (or_intror eq_refl)) as (r2 & ? & ?). eauto 10.
  - intros k r (v & _ & ->)%list_lookup_imap_Some. done.
Qed.

(** C30: Every row a component contributes to the tables carries the
    component's index in its [subgraph] column, except the placeholder
    rows of weight 0 that [contract_vertices] leaves; every edge joins
    two rows of the same table that carry the index (never a placeholder,
    so the viewer finds both ends in its group); and a row's [node]
    column is its position in the component's table (line 181). *)
Theorem component_tables_tagged `{Services} g i c nodes edges :
  (∀ v, v ∈ c → v < nv g) →
  component_tables g i c = inr (nodes, edges) →
  (∀ r, r ∈ nodes → nr_weight r ≠ 0 → nr_subgraph r = Some i) ∧
  (∀ r, r ∈ edges → er_subgraph r = Some i ∧
     ∃ r1 r2, nodes !! er_source r = Some r1 ∧ nr_subgraph r1 = Some i ∧
              nodes !! er_target r = Some r2 ∧ nr_subgraph r2 = Some i) ∧
  (∀ k r, nodes !! k = Some r → nr_node r = k).
Proof.
  intros Hc Ht. destruct (component_tables_rows g i c nodes edges Hc Ht) as (Hw & _ & He & Hk).
  split; [done|]. split; [done|]. done.
Qed.

(** ** Examples *)

(** The simplest services within the contract: every vertex at the
    origin, one community. *)
Definition origin_layout (g : graph) : list (Q * Q) := replicate (nv g) (0%Q, 0%Q).

Definition one_community (g : graph) : list (list nat) := [seq 0 (nv g)].

Lemma origin_layout_length g : length (origin_layout g) = nv g.
Proof. apply length_replicate. Qed.

Lemma one_community_cover g v : v ∈ concat (one_community g) ↔ v < nv g.
Proof. simpl. rewrite app_nil_r, elem_of_seq. lia. Qed.

Lemma one_community_NoDup g : NoDup (concat (one_community g)).
Proof. simpl. rewrite app_nil_r. apply NoDup_seq. Qed.

#[export] Instance trivial_services : Services :=
  Build_Services origin_layout one_community origin_layout_length one_community_cover
                 one_community_NoDup.

(** Scenario A of the spec as a BLAST table. *)
Definition ex_hits : list HitFilter.hit :=
  [HitFilter.mk_hit "a" "t1" 100 0 "s"; HitFilter.mk_hit "b" "t1" 95 0 "s";
   HitFilter.mk_hit "b" "t2" 100 0 "s"; HitFilter.mk_hit "c" "t2" 100 0 "s";
   HitFilter.mk_hit "d" "t9" 7 0 "s"].

Definition ex_tables : list node_row * list edge_row :=
  match blast_to_graph_tables HitFilter.Cqacc HitFilter.Csacc ex_hits with
  | inr t => t | inl _ => ([], []) end.

Lemma blast_to_graph_errors_witness :
  blast_to_graph_tables HitFilter.Cqacc HitFilter.Cqacc ex_hits = inl (ValueError "The name qacc occurs multiple times").
Proof. apply blast_to_graph_errors. vm_compute. reflexivity. Defined.

Lemma blast_to_graph_weight_witness :
  ∃ fs ov, HitFilter.filter_hits HitFilter.Cqacc HitFilter.Csacc ex_hits = inr fs ∧
           OverlapEdges.build_overlap fs = inr ov ∧
           sum_list (nr_weight <$> ex_tables.1) = length (OverlapEdges.ov_names ov).
Proof. apply (blast_to_graph_weight _ _ _ ex_tables.1 ex_tables.2). vm_compute. reflexivity. Defined.

(** The component of [Contraction.ex_p] as component 7: vertices 0 and 1
    merge, vertex 1 of the result is a placeholder. *)
Definition ex_comp : list node_row * list edge_row :=
  match component_tables Contraction.ex_p 7 [0; 1; 2; 3] with
  | inr t => t | inl _ => ([], []) end.

Definition ex_prepared : graph :=
  match prepare (assemble OverlapEdges.ex_ov) 0 [0; 1; 2] with inr g => g | inl _ => assemble OverlapEdges.ex_ov end.

Lemma prepared_component_simple_witness : simple_at ex_prepared 1 ∧ neighbors ex_prepared 1 ≠ [].
Proof.
  apply (prepared_component_simple OverlapEdges.ex_fs OverlapEdges.ex_ov 0 [0; 1; 2]).
  - apply OverlapEdges.ex_ov_eq.
  - vm_compute. left.
  - vm_compute. reflexivity.
  - vm_compute. lia.
Defined.

Lemma component_tables_tagged_witness :
  Forall (λ r, nr_weight r ≠ 0 → nr_subgraph r = Some 7) ex_comp.1.
Proof.
  destruct (component_tables_tagged Contraction.ex_p 7 [0; 1; 2; 3] ex_comp.1 ex_comp.2)
    as [Hn _]; [apply Forall_forall, (bool_decide_unpack _); vm_compute; reflexivity
               |vm_compute; reflexivity|].
  apply Forall_forall. exact Hn.
Defined.

End Pipeline.
