(* ===== verification/Cli.v ===== *)
(** * Cli: the command-line driver and the cached graph build

    Models [main] of src/blastgraph.py (lines 18-40) and the wrapper
    [blast_to_graph] of src/src/blast_to_graph.py (lines 7-17).  The
    argument parser, [multiprocessing.cpu_count()] and [os.path.exists]
    are inputs; the two shell commands and the launch of the viewer are
    returned as a list of actions in the order [main] performs them.
    Python's [str.split] and [str.replace] are written out. *)

From S2P Require Import Prelude HitFilter OverlapEdges Graph GroupKey Contraction Pipeline.
From Stdlib Require Import Ascii ZArith.

Module Cli.
Import Pipeline.

(** ** Python string methods *)

(** [s.split(sep)] for a one-character separator: every occurrence
    splits, empty pieces included. *)
Fixpoint split_go (sep : ascii) (s cur : string) : list string :=
  match s with
  | EmptyString => [cur]
  | String c s' => if decide (c = sep) then cur :: split_go sep s' ""
                   else split_go sep s' (cur +:+ String c "")
  end.

Definition py_split (s : string) (sep : ascii) : list string := split_go sep s "".

(** [s.replace(old, new)] for a non-empty [old]: every occurrence, left
    to right, without overlap; [skip] counts the characters of a match
    still to drop. *)
Fixpoint replace_go (old new s : string) (skip : nat) : string :=
  match s with
  | EmptyString => EmptyString
  | String c s' =>
      match skip with
      | S k => replace_go old new s' k
      | 0 => if String.prefix old s then new +:+ replace_go old new s' (String.length old - 1)
             else String c (replace_go old new s' 0)
      end
  end.

Definition py_replace (s old new : string) : string := replace_go old new s 0.

(** ** [main], lines 18-40 *)

(** Lines 23-25. *)
Definition clamp_threads (threads max_cores : Z) : Z :=
  if decide (threads ≤ 0 ∨ threads > max_cores)%Z then max_cores else threads.

(** Line 27: [fasta_file.replace("." + fasta_file.split(".")[-1], "")]. *)
Definition file_prefix (fasta_file : string) : string :=
  py_replace fasta_file ("." +:+ default "" (last (py_split fasta_file "."%char))) "".

(** The parsed arguments of lines 10-16. *)
Record args := mk_args {
  a_file : string;
  a_db : string;
  a_evalue : string;
  a_threads : Z;
  a_force : bool
}.

(** What [main] hands to the shell and to [blast_to_graph]. *)
Inductive action :=
  | RunBlast (query db evalue out : string) (threads : Z)
  | AddHeader (file : string)
  | BuildGraph (blast_file graph_file node_col edge_col : string) (force : bool)
  | RunApp (graph_file : string).

(** Lines 18-40, given [cpu_count()] and [os.path.exists]. *)
Definition main (a : args) (max_cores : Z) (exists_file : string → bool) : list action :=
  let threads := clamp_threads (a_threads a) max_cores in
  let prefix := file_prefix (a_file a) in
  let blast_file := prefix +:+ ".tsv" in
  let graph_file := prefix +:+ ".pickle" in
  (if negb (exists_file blast_file) || a_force a
   then [RunBlast (a_file a) (a_db a) (a_evalue a) blast_file threads; AddHeader blast_file]
   else []) ++
  [BuildGraph blast_file graph_file "sscinames" "qacc" (a_force a); RunApp graph_file].

(** ** [blast_to_graph], lines 7-17 *)

(** The column names pandas accepts for the hit table. *)
Definition column_of_name (s : string) : option HitFilter.column :=
  if decide (s = "qacc") then Some HitFilter.Cqacc
  else if decide (s = "sacc") then Some HitFilter.Csacc
  else if decide (s = "sscinames") then Some HitFilter.Csscinames
  else None.

(** The graph is rebuilt when the pickle is missing or [force] is set;
    otherwise the existing file is kept and nothing is computed. *)
Definition blast_to_graph `{Services} (graph_exists force : bool) (node_col edge_col : string)
    (rows : list HitFilter.hit) : option (result (list node_row * list edge_row)) :=
  if negb graph_exists || force then
    Some (match column_of_name node_col, column_of_name edge_col with
          | Some nc, Some ec => blast_to_graph_tables nc ec rows
          | None, _ => throw (KeyError node_col)
          | _, None => throw (KeyError edge_col)
          end)
  else None.

(** ** Properties *)

(** The thread count passed to BLAST is at least 1 and at most the
    number of cores, and a request in that range is kept as it is. *)
Theorem clamp_threads_bounds t max_cores :
  (1 ≤ max_cores)%Z →
  (1 ≤ clamp_threads t max_cores ≤ max_cores)%Z ∧
  ((0 < t ≤ max_cores)%Z → clamp_threads t max_cores = t).
Proof. intros Hm. unfold clamp_threads. case_decide; split; try lia; intros; lia. Qed.

(** Line 27 strips every occurrence of the extension, not only the
    final one: ["reads.fa"] gives ["reads"], but ["run.fa.d/x.fa"] gives
    ["run.d/x"], so the BLAST table and the pickle are written to
    ["run.d/x.tsv"] and ["run.d/x.pickle"], in another directory. *)
Example file_prefix_every_occurrence :
  file_prefix "reads.fa" = "reads" ∧ file_prefix "run.fa.d/x.fa" = "run.d/x" ∧
  main (mk_args "run.fa.d/x.fa" "nt" "1e-80" 0 false) 8 (λ _, false) =
    [RunBlast "run.fa.d/x.fa" "nt" "1e-80" "run.d/x.tsv" 8; AddHeader "run.d/x.tsv";
     BuildGraph "run.d/x.tsv" "run.d/x.pickle" "sscinames" "qacc" false;
     RunApp "run.d/x.pickle"].
Proof. vm_compute. split; [reflexivity|split; reflexivity]. Qed.

Lemma filter_hits_sscinames_qacc rows :
  ∃ fs, HitFilter.filter_hits HitFilter.Csscinames HitFilter.Cqacc rows = inr fs.
Proof. unfold HitFilter.filter_hits. simpl. eauto. Qed.

(** C32: The graph build [main] requests (line 39) never raises, whatever
    the BLAST table holds and whatever layout and community services run:
    its columns name the level [qacc] exactly once. *)
Theorem main_build_total `{Services} a max_cores exists_file blast_file graph_file nc ec force
    graph_exists rows :
  BuildGraph blast_file graph_file nc ec force ∈ main a max_cores exists_file →
  blast_to_graph graph_exists force nc ec rows = None ∨
  ∃ t, blast_to_graph graph_exists force nc ec rows = Some (inr t).
Proof.
  unfold main. rewrite elem_of_app. intros [Hpre|Hpost].
  - destruct (negb _ || _); [|by apply not_elem_of_nil in Hpre].
    by repeat (apply elem_of_cons in Hpre as [?|Hpre]; [done|]); apply not_elem_of_nil in Hpre.
  - apply elem_of_cons in Hpost as [[= _ _ -> -> ->]|Hpost];
      [|apply list_elem_of_singleton in Hpost; done].
    unfold blast_to_graph. destruct (negb graph_exists || a_force a); [right|by left].
    simpl. destruct (filter_hits_sscinames_qacc rows) as [fs Hfs].
    destruct (blast_to_graph_tables HitFilter.Csscinames HitFilter.Cqacc rows) as [e|t] eqn:Ht;
      [|by exists t].
    apply blast_to_graph_errors_iff in Ht. congruence.
Qed.

Lemma clamp_threads_bounds_witness :
  (1 ≤ clamp_threads 3 8 ≤ 8)%Z ∧ clamp_threads 3 8 = 3%Z.
Proof.
  destruct (clamp_threads_bounds 3 8) as [Hb Hk]; [lia|]. split; [done|]. apply Hk. lia.
Defined.

Lemma main_build_total_witness :
  ∃ t, blast_to_graph false false "sscinames" "qacc" Pipeline.ex_hits = Some (inr t).
Proof.
  destruct (main_build_total (mk_args "reads.fa" "nt" "1e-80" 4 false) 8 (λ _, false)
              "reads.tsv" "reads.pickle" "sscinames" "qacc" false false Pipeline.ex_hits)
    as [Hn|Ht]; [vm_compute; right; right; left|vm_compute in Hn; discriminate Hn|exact Ht].
Defined.

End Cli.
