(* ===== verification/Display.v ===== *)
(** * Display: the condensed name list of the viewer

    Models [collapse_names] of src/src/plot_graph.py (lines 11-31), which
    the viewer (src/app.py, lines 308 and 334) applies to the
    comma-joined name of a contracted vertex: the names are cleaned of
    brackets, split at commas and sorted, grouped by their first word
    (the genus) in an insertion-ordered dict, and a genus with more than
    three names is shown as "genus (n)". *)

From S2P Require Import Prelude HitFilter OverlapEdges Graph GroupKey Contraction Pipeline Cli.
From Stdlib Require Import Ascii.

Module Display.
Import Contraction Cli.

(** [words = name.split(" ")]: the key [words[0]] and the item
    [" ".join(words[1:])] (lines 16 and 20). *)
Definition genus (name : string) : string := default "" (head (py_split name " "%char)).

Definition rest (name : string) : string := String.concat " " (tail (py_split name " "%char)).

(** Line 12. *)
Definition name_list (name_string : string) : list string :=
  merge_sort key_le (py_split (py_replace (py_replace name_string "[" "") "]" "") ","%char).

(** Lines 13-20. *)
Definition collapse_groups (names : list string) : list (string * list string) :=
  foldl (λ d name, dict_append (genus name) (rest name) d) [] names.

(** Lines 25-29 for one group. *)
Definition render_group (kg : string * list string) : list string :=
  if decide (length kg.2 ≤ 3) then (λ item, kg.1 +:+ " " +:+ item) <$> kg.2
  else [kg.1 +:+ " (" +:+ pretty (length kg.2) +:+ ")"].

(** Lines 23-29: [new_names]. *)
Definition collapse_list (names : list string) : list string :=
  mjoin (render_group <$> collapse_groups names).

(** Lines 11-31. *)
Definition collapse_names (name_string sep : string) : string :=
  String.concat sep (collapse_list (name_list name_string)).

(** The number of names of genus [k]. *)
Definition genus_count (names : list string) (k : string) : nat :=
  length (filter (λ x, genus x = k) names).

(** C34: An entry of the condensed list is either a name of a genus with
    at most three names, written "genus rest", or the single entry
    "genus (n)" of a genus with n > 3 names; every name is accounted for
    in one of the two ways. *)
Theorem elem_of_collapse_list names s :
  s ∈ collapse_list names ↔
  ∃ x, x ∈ names ∧
    ((genus_count names (genus x) ≤ 3 ∧ s = genus x +:+ " " +:+ rest x) ∨
     (3 < genus_count names (genus x) ∧
      s = genus x +:+ " (" +:+ pretty (genus_count names (genus x)) +:+ ")")).
Proof.
  unfold collapse_list, collapse_groups. rewrite list_elem_of_join. split.
  - intros (l & Hs & ([k grp] & -> & Hkg)%list_elem_of_fmap).
    apply elem_of_groups in Hkg as [-> Hne].
    assert (∃ x, x ∈ filter (λ y, genus y = k) names) as (x & [Hkx Hx]%list_elem_of_filter).
    { destruct (filter _ names) as [|x fl]; [done|]. exists x. left. }
    unfold render_group, genus_count in *. cbn [fst snd] in Hs. rewrite length_fmap in Hs.
    subst k. case_decide.
    + apply list_elem_of_fmap in Hs as (item & -> & (y & -> & Hy)%list_elem_of_fmap).
      apply list_elem_of_filter in Hy as [Hky Hy]. exists y. split; [done|]. left.
      rewrite Hky. done.
    + apply list_elem_of_singleton in Hs as ->. exists x. split; [done|]. right. split; [lia|done].
  - intros (x & Hx & Hs).
    assert (x ∈ filter (λ y, genus y = genus x) names) as Hxf by (by apply list_elem_of_filter).
    exists (render_group (genus x, rest <$> filter (λ y, genus y = genus x) names)). split.
    + unfold render_group, genus_count in *. cbn [fst snd]. rewrite length_fmap.
      destruct Hs as [[Hn ->]|[Hn ->]].
      * rewrite decide_True by done. apply list_elem_of_fmap. exists (rest x). split; [done|].
        apply list_elem_of_fmap. eauto.
      * rewrite decide_False by lia. by apply list_elem_of_singleton.
    + apply list_elem_of_fmap. eexists; split; [reflexivity|]. apply elem_of_groups.
      split; [done|]. intros Hnil. rewrite Hnil in Hxf. by apply not_elem_of_nil in Hxf.
Qed.

(** Single-word names get a trailing space, since [" ".join([])]
    is empty but line 27 still adds [" "]; brackets are dropped and a
    genus of four names collapses. *)
Example collapse_names_examples :
  collapse_names "Bacteria" "," = "Bacteria " ∧
  collapse_names "[Bacillus a,Bacillus b,Escherichia coli,Bacillus c,Bacillus d]" "," =
    "Bacillus (4),Escherichia coli".
Proof. vm_compute. split; reflexivity. Qed.

End Display.
