(* ===== verification/Viewer.v ===== *)
(** * Viewer: the callbacks of the Dash application

    Models the state the viewer of src/app.py keeps between callbacks
    and the callbacks that compute it from the two tables the pipeline
    pickles ([node_df], [edge_df], lines 7-15):
    - [choose_subgraph] (lines 338-354), the group navigation, as a step
      on the navigation state (the group span and the figure's click and
      hover data) with its reachable states as an inductive relation;
    - [get_point_index] (lines 126-129) and [update_graph_data] (lines
      141-243), the selected vertex and its neighbour list.

    A Dash component's data is a Python dict; the [graph-data] store is a
    record whose optional fields are the keys the code may leave unset.
    The figure's [clickData] and [hoverData] are given by the
    [pointIndex] of their points ([None] when the data is [None] or has no
    [points] key).  [edge_df] carries the labels [0 .. len-1]: the first
    component's table comes from [get_edge_dataframe], numbered from 0,
    and every later concatenation uses [ignore_index=True]
    (src/src/blast_to_graph.py, lines 210-213), so an edge's label is its
    position. *)

From S2P Require Import Prelude Graph Pipeline.
From Stdlib Require Import ZArith.

Module Viewer.
Import Pipeline.

(** ** Tables and positions *)

(** Line 15: [int(node_df["subgraph"].max() + 1)]; [max] skips missing
    values and is NaN when every value is missing, which [int] refuses. *)
Definition num_subgraphs (nodes : list node_row) : result Z :=
  if decide (length nodes = 0) then mret 0%Z
  else match omap nr_subgraph nodes with
       | [] => throw (ValueError "cannot convert float NaN to integer")
       | s => mret (Z.of_nat (S (max_list s)))
       end.

(** [df["subgraph"].eq(idx)]: a missing value equals nothing. *)
Definition in_subgraph (idx : Z) (s : option nat) : bool :=
  match s with Some k => bool_decide (Z.of_nat k = idx) | None => false end.

(** Lines 170-171: the rows of one group, with the edge labels. *)
Definition node_sub (nodes : list node_row) (idx : Z) : list node_row :=
  filter (λ r, in_subgraph idx (nr_subgraph r) = true) nodes.

Definition edge_sub (edges : list edge_row) (idx : Z) : list (nat * edge_row) :=
  filter (λ p : nat * edge_row, in_subgraph idx (er_subgraph p.2) = true)
    (imap pair edges).

(** [df.iloc[i]]: a negative position counts from the end; out of range
    raises [IndexError]. *)
Definition py_iloc {A} (l : list A) (i : Z) : result A :=
  let j := if decide (i < 0)%Z then (Z.of_nat (length l) + i)%Z else i in
  if decide (0 ≤ j)%Z then
    match l !! Z.to_nat j with Some x => mret x | None => throw IndexError end
  else throw IndexError.

(** ** Group navigation, lines 40-47 and 338-354 *)

(** Line 43: the span first shows [min(1, num_subgraphs)]. *)
Definition initial_index (n : Z) : Z := Z.min 1 n.

Inductive button := SubgraphPrev | SubgraphNext.

#[export] Instance button_eq_dec : EqDecision button.
Proof. solve_decision. Defined.

(** Lines 347-354: [ctx.triggered_id] is a button, or [None] on the
    initial call; [None] as result is [no_update]. *)
Definition choose_subgraph (triggered : option button) (subgraph_index subgraph_maxindex : Z) :
    option Z :=
  if decide (triggered = Some SubgraphPrev ∧ subgraph_index > 1)%Z then Some (subgraph_index - 1)%Z
  else if decide (triggered = Some SubgraphNext ∧ subgraph_index < subgraph_maxindex)%Z
  then Some (subgraph_index + 1)%Z
  else None.

(** The state the navigation acts on: the span [subgraph-index] and the
    figure's [clickData] and [hoverData]. *)
Record nav := mk_nav {
  n_index : Z;
  n_click : option (list Z);
  n_hover : option (list Z)
}.

(** A new group clears the click and the hover data (line 351 and 353). *)
Definition choose_subgraph_step (b : option button) (maxidx : Z) (s : nav) : nav :=
  match choose_subgraph b (n_index s) maxidx with
  | Some i => mk_nav i None None
  | None => s
  end.

(** The states the viewer can reach: the figure's click and hover data
    change with the pointer, the span only through [choose_subgraph]. *)
Inductive nav_reachable (maxidx : Z) : nav → Prop :=
  | nav_init : nav_reachable maxidx (mk_nav (initial_index maxidx) None None)
  | nav_click s pd :
      nav_reachable maxidx s → nav_reachable maxidx (mk_nav (n_index s) pd (n_hover s))
  | nav_hover s pd :
      nav_reachable maxidx s → nav_reachable maxidx (mk_nav (n_index s) (n_click s) pd)
  | nav_button s b :
      nav_reachable maxidx s → nav_reachable maxidx (choose_subgraph_step b maxidx s).

(** ** The selected vertex, lines 126-243 *)

(** Lines 126-129. *)
Definition get_point_index (point_data : option (list Z)) : Z :=
  match point_data with Some [p] => p | _ => (-1)%Z end.

(** [ctx.triggered_prop_ids]: the first input that fired, or none on the
    initial call. *)
Inductive trigger := TNone | TSubgraphIndex | TFigClick | TFigHover | TEdgeTable.

#[export] Instance trigger_eq_dec : EqDecision trigger.
Proof. solve_decision. Defined.

(** An entry of [data["neighbors"]]. *)
Record neighbor := mk_neighbor {
  nb_point_index : nat;
  nb_edge_id : nat;
  nb_node_id : nat
}.

(** The [graph-data] store (lines 131-139): [current], [neighbors] and
    [hover] are the keys the code may leave unset. *)
Record graph_data := mk_graph_data {
  gd_subgraph_index : Z;
  gd_trigger : trigger;
  gd_current : option (nat * nat);
  gd_neighbors : option (list neighbor);
  gd_hover : option (nat * nat)
}.

(** Lines 180-183: the first row of the group whose node is [row_id]. *)
Fixpoint find_node_row (row_id : nat) (rows : list node_row) : option nat :=
  match rows with
  | [] => None
  | r :: rs => if decide (row_id = nr_node r) then Some 0 else S <$> find_node_row row_id rs
  end.

(** Line 202: the edges of the group at the clicked node, in table order. *)
Definition adj_edges (esub : list (nat * edge_row)) (cid : nat) : list (nat * edge_row) :=
  filter (λ p : nat * edge_row, er_source p.2 = cid ∨ er_target p.2 = cid) esub.

(** Lines 209-211. *)
Definition other_end (cid : nat) (e : edge_row) : nat :=
  if decide (er_source e = cid) then er_target e else er_source e.

(** Lines 216-227 for one row of the group: a row holding the
    neighbouring node is appended, and the hover flag is raised when it
    is the hovered row. *)
Definition scan_node (hover_index : Z) (edge_id adj : nat) (acc : list neighbor * bool)
    (q : nat * node_row) : list neighbor * bool :=
  if decide (adj = nr_node q.2)
  then (acc.1 ++ [mk_neighbor q.1 edge_id (nr_node q.2)],
        acc.2 || bool_decide (Z.of_nat q.1 = hover_index))
  else acc.

(** Lines 206-227: the loop over the adjacent edges. *)
Definition scan_edges (hover_index : Z) (sub : list node_row) (cid : nat)
    (es : list (nat * edge_row)) : list neighbor * bool :=
  foldl (λ acc p, foldl (scan_node hover_index p.1 (other_end cid p.2)) acc (imap pair sub))
    ([], false) es.

(** Lines 173-183: the clicked and hovered positions; a table click
    simulates a figure click on the row of its node.  [active_cell]
    is read inside the loop, so a missing cell raises only when the
    group has a row. *)
Definition selected_indices (sub : list node_row) (t : trigger) (click_data hover_data : option (list Z))
    (active_cell : option nat) : result (Z * Z) :=
  if decide (t = TEdgeTable) then
    match active_cell with
    | None => if decide (sub = []) then mret ((-1)%Z, (-1)%Z) else throw TypeError
    | Some row_id => mret (default (-1)%Z (Z.of_nat <$> find_node_row row_id sub), (-1)%Z)
    end
  else mret (get_point_index click_data, get_point_index hover_data).

(** Lines 186-241: the click branch, with the group's rows and edges. *)
Definition clicked_data (idx : Z) (t : trigger) (sub : list node_row) (esub : list (nat * edge_row))
    (click_index hover_index : Z) : result (option graph_data) :=
  if decide (-1 < click_index)%Z then
    clicked_node ← py_iloc sub click_index;
    let cid := nr_node clicked_node in
    let cur := Some (Z.to_nat click_index, cid) in
    let '(nbs, neighbor_is_hovered) := scan_edges hover_index sub cid (adj_edges esub cid) in
    if decide (t ≠ TFigHover) then mret (Some (mk_graph_data idx t cur (Some nbs) None))
    else if bool_decide (-1 < hover_index)%Z && neighbor_is_hovered then
      h ← py_iloc sub hover_index;
      mret (Some (mk_graph_data idx t cur (Some nbs) (Some (Z.to_nat hover_index, nr_node h))))
    else mret None
  else mret None.

(** Lines 149-243; [None] is [no_update].  The second output, the
    table's active cell, is always [None] and is left out. *)
Definition update_graph_data (nodes : list node_row) (edges : list edge_row) (t : trigger)
    (subgraph_index : Z) (click_data hover_data : option (list Z)) (active_cell : option nat) :
    result (option graph_data) :=
  let idx := (subgraph_index - 1)%Z in
  if decide (t = TSubgraphIndex) then mret (Some (mk_graph_data idx t None None None)) else
  let sub := node_sub nodes idx in
  '(click_index, hover_index) ← selected_indices sub t click_data hover_data active_cell;
  clicked_data idx t sub (edge_sub edges idx) click_index hover_index.

(** The rows of the group holding [adj], as the loop appends them, and
    the hover flag it raises. *)
Definition row_matches (edge_id adj : nat) (qs : list (nat * node_row)) : list neighbor :=
  omap (λ q : nat * node_row,
          if decide (adj = nr_node q.2) then Some (mk_neighbor q.1 edge_id (nr_node q.2)) else None) qs.

Definition edge_matches (sub : list node_row) (cid : nat) (es : list (nat * edge_row)) : list neighbor :=
  mjoin ((λ p : nat * edge_row, row_matches p.1 (other_end cid p.2) (imap pair sub)) <$> es).

Definition hovered (hover_index : Z) (nbs : list neighbor) : bool :=
  existsb (λ nb, bool_decide (Z.of_nat (nb_point_index nb) = hover_index)) nbs.

(** What the readers of the store rely on: the clicked row, the
    neighbours' rows and edge labels, and the hovered row exist in the
    group the store names. *)
Definition store_ok (nodes : list node_row) (edges : list edge_row) (gd : graph_data) : Prop :=
  let sub := node_sub nodes (gd_subgraph_index gd) in
  let esub := edge_sub edges (gd_subgraph_index gd) in
  (∀ ci cid, gd_current gd = Some (ci, cid) →
     (∃ r, sub !! ci = Some r ∧ nr_node r = cid) ∧
     ∃ nbs, gd_neighbors gd = Some nbs ∧
       ∀ nb, nb ∈ nbs → nb_point_index nb < length sub ∧ ∃ e, (nb_edge_id nb, e) ∈ esub) ∧
  (∀ hi hid, gd_hover gd = Some (hi, hid) → hi < length sub).

(** ** Navigation *)

Lemma choose_subgraph_bounds b i m j :
  (0 ≤ m)%Z → (Z.min 1 m ≤ i ≤ m)%Z → choose_subgraph b i m = Some j → (Z.min 1 m ≤ j ≤ m)%Z.
Proof. unfold choose_subgraph. intros Hm Hi. repeat case_decide; intros [=<-]; lia. Qed.

Lemma choose_subgraph_step_index b m s :
  (0 ≤ m)%Z → (Z.min 1 m ≤ n_index s ≤ m)%Z →
  (Z.min 1 m ≤ n_index (choose_subgraph_step b m s) ≤ m)%Z.
Proof.
  unfold choose_subgraph_step. intros Hm Hs.
  destruct (choose_subgraph b _ m) eqn:E; [|done]. by eapply choose_subgraph_bounds.
Qed.

Lemma next_step_index m s :
  (1 ≤ n_index s)%Z →
  n_index (choose_subgraph_step (Some SubgraphNext) m s) =
    if decide (n_index s < m)%Z then (n_index s + 1)%Z else n_index s.
Proof. unfold choose_subgraph_step, choose_subgraph. intros Hs. repeat case_decide; naive_solver lia. Qed.

Lemma prev_step_index m s :
  n_index (choose_subgraph_step (Some SubgraphPrev) m s) =
    if decide (1 < n_index s)%Z then (n_index s - 1)%Z else n_index s.
Proof. unfold choose_subgraph_step, choose_subgraph. repeat case_decide; naive_solver lia. Qed.

Lemma iter_next_index m k s :
  (1 ≤ n_index s ≤ m)%Z →
  n_index (Nat.iter k (choose_subgraph_step (Some SubgraphNext) m) s) = Z.min (n_index s + Z.of_nat k) m.
Proof.
  intros Hs. induction k as [|k IH]; [cbn; lia|].
  rewrite Nat.iter_succ, next_step_index, IH by lia. case_decide; lia.
Qed.

Lemma iter_prev_index m k s :
  (1 ≤ n_index s)%Z →
  n_index (Nat.iter k (choose_subgraph_step (Some SubgraphPrev) m) s) = Z.max (n_index s - Z.of_nat k) 1.
Proof.
  intros Hs. induction k as [|k IH]; [cbn; lia|].
  rewrite Nat.iter_succ, prev_step_index, IH. case_decide; lia.
Qed.

(** ** The selected vertex *)

Lemma elem_of_imap_pair {A} (l : list A) i x : (i, x) ∈ imap pair l ↔ l !! i = Some x.
Proof.
  rewrite list_elem_of_lookup. setoid_rewrite list_lookup_imap. split.
  - intros [k Hk]. destruct (l !! k) eqn:E; simplify_eq/=. done.
  - intros Hi. exists i. by rewrite Hi.
Qed.

(** A negative group index selects no row. *)
Lemma node_sub_negative nodes idx : (idx < 0)%Z → node_sub nodes idx = [].
Proof.
  intros Hi. destruct (node_sub nodes idx) as [|r l] eqn:E; [done|].
  assert (r ∈ node_sub nodes idx) as [Hr _]%list_elem_of_filter by (rewrite E; left).
  unfold in_subgraph in Hr. destruct (nr_subgraph r); [|done]. apply bool_decide_eq_true in Hr. lia.
Qed.

Lemma num_subgraphs_zero nodes : num_subgraphs nodes = inr 0%Z → nodes = [].
Proof.
  unfold num_subgraphs. case_decide as Hl; [intros _; by apply nil_length_inv|].
  destruct (omap _ _); [done|intros [=]; lia].
Qed.

Lemma elem_of_edge_sub edges idx i e :
  (i, e) ∈ edge_sub edges idx ↔ edges !! i = Some e ∧ in_subgraph idx (er_subgraph e) = true.
Proof. unfold edge_sub. rewrite list_elem_of_filter, elem_of_imap_pair. naive_solver. Qed.

Lemma find_node_row_spec row_id rows i :
  find_node_row row_id rows = Some i → ∃ r, rows !! i = Some r ∧ nr_node r = row_id.
Proof.
  revert i. induction rows as [|r rs IH]; intros i; cbn; [done|].
  case_decide; [intros [=<-]; by eauto|].
  intros (i' & Hi & ->)%fmap_Some. destruct (IH i' Hi) as (r' & ? & ?). by exists r'.
Qed.

Lemma py_iloc_ok {A} (l : list A) (i : Z) :
  (0 ≤ i)%Z → (∃ x, py_iloc l i = inr x ∧ l !! Z.to_nat i = Some x) ∨
              (py_iloc l i = inl IndexError ∧ length l ≤ Z.to_nat i).
Proof.
  intros Hi. unfold py_iloc. destruct (decide (i < 0)%Z); [lia|]. destruct (decide (0 ≤ i)%Z); [|lia].
  destruct (l !! Z.to_nat i) as [x|] eqn:E; [left; by exists x|right].
  split; [done|]. by apply lookup_ge_None.
Qed.

Lemma foldl_scan_node h eid adj l b qs :
  foldl (scan_node h eid adj) (l, b) qs =
    (l ++ row_matches eid adj qs, b || hovered h (row_matches eid adj qs)).
Proof.
  revert l b. induction qs as [|q qs IH]; intros l b; cbn; [by rewrite app_nil_r, orb_false_r|].
  unfold scan_node at 2. cbn [fst snd]. case_decide; rewrite IH; cbn; [|done].
  by rewrite <-app_assoc, <-orb_assoc.
Qed.

Lemma foldl_scan_edges h sub cid l b es :
  foldl (λ acc p, foldl (scan_node h p.1 (other_end cid p.2)) acc (imap pair sub)) (l, b) es =
    (l ++ edge_matches sub cid es, b || hovered h (edge_matches sub cid es)).
Proof.
  revert l b. induction es as [|p es IH]; intros l b; cbn; [by rewrite app_nil_r, orb_false_r|].
  rewrite foldl_scan_node, IH. unfold edge_matches, hovered. cbn.
  by rewrite app_assoc, existsb_app, orb_assoc.
Qed.

Lemma scan_edges_eq h sub cid es :
  scan_edges h sub cid es = (edge_matches sub cid es, hovered h (edge_matches sub cid es)).
Proof. unfold scan_edges. by rewrite foldl_scan_edges. Qed.

Lemma elem_of_row_matches eid adj sub nb :
  nb ∈ row_matches eid adj (imap pair sub) ↔
  nb_edge_id nb = eid ∧ nb_node_id nb = adj ∧
  ∃ r, sub !! nb_point_index nb = Some r ∧ nr_node r = adj.
Proof.
  unfold row_matches. rewrite list_elem_of_omap. split.
  - intros ([i r] & Hq%elem_of_imap_pair & Hm). cbn in Hm.
    case_decide; simplify_eq/=. eauto.
  - intros (Heid & Hid & r & Hr & Hnode). exists (nb_point_index nb, r).
    split; [by apply elem_of_imap_pair|]. cbn. rewrite decide_True by done.
    destruct nb; cbn in *; by subst.
Qed.

Lemma hovered_row h nbs : hovered h nbs = true → ∃ nb, nb ∈ nbs ∧ Z.of_nat (nb_point_index nb) = h.
Proof.
  unfold hovered. rewrite existsb_exists. intros (nb & Hin%list_elem_of_In & Hb%bool_decide_eq_true).
  eauto.
Qed.

Lemma edge_matches_rows sub cid es nb :
  nb ∈ edge_matches sub cid es → nb_point_index nb < length sub.
Proof.
  unfold edge_matches. rewrite list_elem_of_join.
  intros (l & Hnb & (p & -> & _)%list_elem_of_fmap).
  apply elem_of_row_matches in Hnb as (_ & _ & r & Hr & _). by eapply lookup_lt_Some.
Qed.

Lemma elem_of_edge_matches sub cid es nb :
  nb ∈ edge_matches sub cid es ↔
  ∃ e, (nb_edge_id nb, e) ∈ es ∧ nb_node_id nb = other_end cid e ∧
       ∃ r, sub !! nb_point_index nb = Some r ∧ nr_node r = other_end cid e.
Proof.
  unfold edge_matches. rewrite list_elem_of_join. split.
  - intros (l & Hnb & ([eid e] & -> & Hp)%list_elem_of_fmap).
    apply elem_of_row_matches in Hnb as (Heid & Hid & Hr). cbn in *. subst eid. eauto.
  - intros (e & Hp & Hid & Hr). eexists; split; [|apply list_elem_of_fmap; by eexists; split].
    by apply elem_of_row_matches.
Qed.

Lemma elem_of_adj_edges esub cid p :
  p ∈ adj_edges esub cid ↔ (er_source p.2 = cid ∨ er_target p.2 = cid) ∧ p ∈ esub.
Proof. unfold adj_edges. by rewrite list_elem_of_filter. Qed.

Lemma selected_indices_inl sub t cd hd ac e :
  selected_indices sub t cd hd ac = inl e ↔ t = TEdgeTable ∧ ac = None ∧ sub ≠ [] ∧ e = TypeError.
Proof.
  unfold selected_indices, throw, mret, result_ret.
  case_decide; [destruct ac; [|case_decide]|]; naive_solver.
Qed.

Lemma selected_indices_inr sub t cd hd ac ci hi :
  selected_indices sub t cd hd ac = inr (ci, hi) →
  (t = TEdgeTable ∧ (ac = None → sub = []) ∧ (ci = -1 ∨ 0 ≤ ci < Z.of_nat (length sub))%Z) ∨
  (t ≠ TEdgeTable ∧ ci = get_point_index cd ∧ hi = get_point_index hd).
Proof.
  unfold selected_indices. case_decide; [destruct ac as [rid|]|intros [= <- <-]; by right].
  - intros [= <- _]. left. split; [done|]. split; [done|].
    destruct (find_node_row rid sub) as [i|] eqn:E; cbn; [|by left].
    apply find_node_row_spec in E as (r & Hr & _). apply lookup_lt_Some in Hr. lia.
  - case_decide; [|done]. intros [= <- <-]. left. split; [done|]. split; [done|by left].
Qed.

(** Once a row is clicked the rest of the callback succeeds: the hovered
    row is one of the neighbours' rows. *)
Lemma clicked_data_found idx t sub esub ci hi r :
  (0 ≤ ci)%Z → sub !! Z.to_nat ci = Some r →
  ∃ res, clicked_data idx t sub esub ci hi = inr res ∧
    ∀ gd, res = Some gd →
      gd_subgraph_index gd = idx ∧ gd_trigger gd = t ∧
      gd_current gd = Some (Z.to_nat ci, nr_node r) ∧
      gd_neighbors gd = Some (edge_matches sub (nr_node r) (adj_edges esub (nr_node r))) ∧
      ∀ h, gd_hover gd = Some h → h.1 < length sub.
Proof.
  intros Hci Hr. unfold clicked_data. rewrite decide_True by lia.
  destruct (py_iloc_ok sub ci) as [(x & -> & Hx)|[_ Hl]]; [done| |by apply lookup_lt_Some in Hr; lia].
  rewrite Hx in Hr. injection Hr as ->. rewrite bind_inr, scan_edges_eq.
  case_decide; [by eexists; split; [done|intros gd [= <-]]|].
  destruct (bool_decide _ && _) eqn:Hb; [|by eexists; split; [done|]].
  apply andb_true_iff in Hb as [_ (nb & Hnb%edge_matches_rows & <-)%hovered_row].
  destruct (py_iloc_ok sub (Z.of_nat (nb_point_index nb))) as [(y & -> & _)|[_ Hl]]; [lia| |lia].
  eexists; split; [done|intros gd [= <-]]. cbn. do 4 (split; [done|]). intros h [= <-]. cbn. lia.
Qed.

Lemma clicked_data_inl idx t sub esub ci hi e :
  clicked_data idx t sub esub ci hi = inl e ↔ (0 ≤ ci)%Z ∧ length sub ≤ Z.to_nat ci ∧ e = IndexError.
Proof.
  destruct (decide (0 ≤ ci)%Z) as [Hci|Hci];
    [|unfold clicked_data; rewrite decide_False by lia; split; [done|lia]].
  destruct (sub !! Z.to_nat ci) as [r|] eqn:Hr.
  - destruct (clicked_data_found idx t sub esub ci hi r Hci Hr) as (res & -> & _).
    apply lookup_lt_Some in Hr. split; [done|lia].
  - apply lookup_ge_None in Hr. unfold clicked_data. rewrite decide_True by lia.
    destruct (py_iloc_ok sub ci) as [(x & -> & Hx)|[-> _]]; [done| |].
    + apply lookup_lt_Some in Hx. lia.
    + rewrite bind_inl_eq. naive_solver.
Qed.

Lemma clicked_data_some idx t sub esub ci hi gd :
  clicked_data idx t sub esub ci hi = inr (Some gd) →
  ∃ r, sub !! Z.to_nat ci = Some r ∧
    gd_subgraph_index gd = idx ∧ gd_trigger gd = t ∧
    gd_current gd = Some (Z.to_nat ci, nr_node r) ∧
    gd_neighbors gd = Some (edge_matches sub (nr_node r) (adj_edges esub (nr_node r))) ∧
    ∀ h, gd_hover gd = Some h → h.1 < length sub.
Proof.
  intros Hgd. destruct (decide (0 ≤ ci)%Z) as [Hci|Hci];
    [|unfold clicked_data in Hgd; rewrite decide_False in Hgd by lia; done].
  destruct (sub !! Z.to_nat ci) as [r|] eqn:Hr.
  - destruct (clicked_data_found idx t sub esub ci hi r Hci Hr) as (res & Hres & Hspec).
    rewrite Hgd in Hres. injection Hres as <-. eauto.
  - apply lookup_ge_None in Hr.
    assert (clicked_data idx t sub esub ci hi = inl IndexError) by (by apply clicked_data_inl).
    congruence.
Qed.

Lemma update_graph_data_some nodes edges t si cd hd ac gd :
  update_graph_data nodes edges t si cd hd ac = inr (Some gd) →
  gd = mk_graph_data (si - 1) t None None None ∨
  ∃ ci hi, clicked_data (si - 1) t (node_sub nodes (si - 1)) (edge_sub edges (si - 1)) ci hi =
           inr (Some gd).
Proof.
  unfold update_graph_data. case_decide; [intros [=<-]; by left|].
  destruct (selected_indices _ _ _ _ _) as [|[ci hi]]; [done|]. rewrite bind_inr. eauto.
Qed.

Lemma num_subgraphs_nonneg nodes m : num_subgraphs nodes = inr m → (0 ≤ m)%Z.
Proof.
  unfold num_subgraphs. case_decide; [intros [=<-]; lia|].
  destruct (omap _ _); [done|intros [=<-]; lia].
Qed.

Lemma nav_reachable_bounds m s : (0 ≤ m)%Z → nav_reachable m s → (Z.min 1 m ≤ n_index s ≤ m)%Z.
Proof.
  intros Hm Hs. induction Hs as [| | |s b _ IH]; cbn; [unfold initial_index; lia|done|done|].
  by apply choose_subgraph_step_index.
Qed.

Lemma nav_next_iter m k :
  (1 ≤ m)%Z →
  let s := Nat.iter k (choose_subgraph_step (Some SubgraphNext) m) (mk_nav (initial_index m) None None) in
  nav_reachable m s ∧ n_index s = Z.min (1 + Z.of_nat k) m.
Proof.
  intros Hm. induction k as [|k [IHr IHi]]; cbv zeta in *.
  - split; [constructor|cbn; unfold initial_index; lia].
  - rewrite Nat.iter_succ. split; [by constructor|].
    rewrite next_step_index, IHi by lia. case_decide; lia.
Qed.

(** Every stored neighbour names the row of its point: the row at
    [point_index] holds [node_id]. *)
Lemma update_graph_data_neighbor_rows nodes edges t si cd hd ac gd nbs nb :
  update_graph_data nodes edges t si cd hd ac = inr (Some gd) → gd_neighbors gd = Some nbs → nb ∈ nbs →
  ∃ r, node_sub nodes (si - 1) !! nb_point_index nb = Some r ∧ nr_node r = nb_node_id nb.
Proof.
  intros [->|(ci & hi & Hgd)]%update_graph_data_some Hn Hnb; [done|].
  apply clicked_data_some in Hgd as (r & _ & _ & _ & _ & Hn' & _). rewrite Hn in Hn'.
  injection Hn' as ->. apply elem_of_edge_matches in Hnb as (e & _ & Hid & r' & Hr' & Hnode).
  exists r'. split; [done|congruence].
Qed.

(** With distinct node ids the row search of lines 180-183 finds the
    row of the node. *)
Lemma find_node_row_NoDup rows i r :
  NoDup (nr_node <$> rows) → rows !! i = Some r → find_node_row (nr_node r) rows = Some i.
Proof.
  revert i. induction rows as [|r' rs IH]; intros i Hnd Hi; [done|].
  rewrite fmap_cons in Hnd. apply NoDup_cons in Hnd as [Hnin Hnd]. cbn.
  destruct i as [|i]; cbn in Hi.
  - injection Hi as ->. by rewrite decide_True.
  - rewrite decide_False; [by rewrite (IH i Hnd Hi)|]. intros Heq. apply Hnin.
    rewrite <-Heq. apply list_elem_of_fmap_2. by eapply list_elem_of_lookup_2.
Qed.

(** A table click on a row id that the group holds selects the first row
    with that node (lines 177-183 and 186-232). *)
Lemma update_graph_data_table_click nodes edges si cd hd rid p r :
  find_node_row rid (node_sub nodes (si - 1)) = Some p → node_sub nodes (si - 1) !! p = Some r →
  ∃ gd, update_graph_data nodes edges TEdgeTable si cd hd (Some rid) = inr (Some gd) ∧
        gd_current gd = Some (p, nr_node r).
Proof.
  intros Hf Hr. unfold update_graph_data. rewrite decide_False by done.
  unfold selected_indices. rewrite decide_True by done. rewrite Hf.
  change (default (-1)%Z (Z.of_nat <$> Some p)) with (Z.of_nat p). rewrite bind_ret. cbv beta iota.
  unfold clicked_data. rewrite decide_True by lia.
  destruct (py_iloc_ok (node_sub nodes (si - 1)) (Z.of_nat p)) as [(x & -> & Hx)|[_ Hl]];
    [lia| |apply lookup_lt_Some in Hr; lia].
  rewrite Nat2Z.id, Hr in Hx. injection Hx as <-. rewrite bind_inr.
  destruct (scan_edges _ _ _ _) as [nbs hv]. rewrite decide_True by done.
  eexists; split; [done|]. cbn. by rewrite Nat2Z.id.
Qed.

Lemma update_graph_data_store_ok nodes edges t si cd hd ac gd :
  update_graph_data nodes edges t si cd hd ac = inr (Some gd) → store_ok nodes edges gd.
Proof.
  intros [->|(ci & hi & Hgd)]%update_graph_data_some; [by split|].
  apply clicked_data_some in Hgd as (r & Hr & Hidx & _ & Hc & Hn & Hh).
  unfold store_ok. rewrite Hidx, Hc, Hn. split; [|intros hi' hid Hhov; apply (Hh _ Hhov)].
  intros ci' cid [= <- <-]. split; [eauto|]. eexists; split; [done|]. intros nb Hnb.
  split; [by eapply edge_matches_rows|].
  apply elem_of_edge_matches in Hnb as (e & He%elem_of_adj_edges & _). exists e. apply He.
Qed.

(** ** Properties *)

(** The group span only ever shows the groups there are, and every
    group can be reached from the first. *)
Theorem nav_reachable_index nodes m j :
  num_subgraphs nodes = inr m →
  (∃ s, nav_reachable m s ∧ n_index s = j) ↔ (Z.min 1 m ≤ j ≤ m)%Z.
Proof.
  intros Hn%num_subgraphs_nonneg. split.
  - intros (s & Hs & <-). by apply nav_reachable_bounds.
  - intros Hj. destruct (decide (m = 0)%Z) as [->|Hm].
    + exists (mk_nav (initial_index 0) None None). split; [constructor|]. cbn [n_index]. unfold initial_index. lia.
    + destruct (nav_next_iter m (Z.to_nat (j - 1))) as [Hr Hi]; [lia|].
      eexists; split; [exact Hr|]. rewrite Hi. lia.
Qed.

(** Navigation stays within the groups and cannot get stuck: in
    every state the viewer reaches, the span shows an index between
    [min(1, n)] and [n], and from that state every group in this range
    is shown after pressing one of the two buttons enough times. *)
Theorem nav_liveness nodes m s j :
  num_subgraphs nodes = inr m → nav_reachable m s → (Z.min 1 m ≤ j ≤ m)%Z →
  (Z.min 1 m ≤ n_index s ≤ m)%Z ∧
  ∃ b k, n_index (Nat.iter k (choose_subgraph_step (Some b) m) s) = j.
Proof.
  intros Hn%num_subgraphs_nonneg Hs Hj. pose proof (nav_reachable_bounds m s Hn Hs) as Hb.
  split; [done|]. destruct (decide (m = 0)%Z) as [->|Hm].
  - exists SubgraphNext, 0. cbn. lia.
  - destruct (decide (n_index s ≤ j)%Z).
    + exists SubgraphNext, (Z.to_nat (j - n_index s)). rewrite iter_next_index by lia. lia.
    + exists SubgraphPrev, (Z.to_nat (n_index s - j)). rewrite iter_prev_index by lia. lia.
Qed.

(** C39: The neighbour list the viewer stores for a clicked vertex holds
    exactly the pairs of an edge of the group at the clicked node and a
    row of the group holding the edge's other end, with the edge's label
    and the row's position; the clicked node is the node of the clicked
    row. *)
Theorem update_graph_data_neighbors nodes edges t si cd hd ac gd ci cid nbs :
  update_graph_data nodes edges t si cd hd ac = inr (Some gd) →
  gd_current gd = Some (ci, cid) → gd_neighbors gd = Some nbs →
  (∃ r, node_sub nodes (si - 1) !! ci = Some r ∧ nr_node r = cid) ∧
  ∀ nb, nb ∈ nbs ↔
    ∃ e r, edges !! nb_edge_id nb = Some e ∧ in_subgraph (si - 1) (er_subgraph e) = true ∧
      (er_source e = cid ∨ er_target e = cid) ∧
      node_sub nodes (si - 1) !! nb_point_index nb = Some r ∧
      nr_node r = other_end cid e ∧ nb_node_id nb = nr_node r.
Proof.
  intros [->|(ci' & hi & Hgd)]%update_graph_data_some Hcur Hnbs; [done|].
  apply clicked_data_some in Hgd as (r & Hr & _ & _ & Hc & Hn & _).
  rewrite Hcur in Hc. rewrite Hnbs in Hn.
  injection Hc as -> ->. injection Hn as ->. split; [eauto|]. intros nb.
  rewrite elem_of_edge_matches. setoid_rewrite elem_of_adj_edges.
  setoid_rewrite elem_of_edge_sub. cbn. split.
  - intros (e & (Hend & He & Hs) & Hid & r' & Hr' & Hn). exists e, r'. rewrite Hid, Hn. done.
  - intros (e & r' & He & Hs & Hend & Hr' & Hn & Hid). exists e.
    rewrite Hid, Hn. eauto 10.
Qed.

(** The exceptions of [update_graph_data], case by case. *)
Lemma update_graph_data_inl nodes edges t si cd hd ac e :
  update_graph_data nodes edges t si cd hd ac = inl e ↔
  t ≠ TSubgraphIndex ∧
  ((t = TEdgeTable ∧ ac = None ∧ node_sub nodes (si - 1) ≠ [] ∧ e = TypeError) ∨
   (t ≠ TEdgeTable ∧ (Z.of_nat (length (node_sub nodes (si - 1))) ≤ get_point_index cd)%Z ∧
    e = IndexError)).
Proof.
  unfold update_graph_data. case_decide; [split; [done|naive_solver]|].
  destruct (selected_indices _ _ _ _ _) as [e'|[ci hi]] eqn:Hsel.
  - rewrite bind_inl_eq. apply selected_indices_inl in Hsel. naive_solver.
  - rewrite bind_inr, clicked_data_inl.
    apply selected_indices_inr in Hsel as [(? & Hac & ?)|(? & -> & ->)]; [|naive_solver lia].
    split; [lia|]. intros [_ [(_ & ? & ? & _)|(? & _)]]; [exfalso; by auto|done].
Qed.

(** A store written by [update_graph_data] names the group of the span
    and the event that triggered it. *)
Lemma update_graph_data_index nodes edges t si cd hd ac gd :
  update_graph_data nodes edges t si cd hd ac = inr (Some gd) →
  gd_subgraph_index gd = (si - 1)%Z ∧ gd_trigger gd = t.
Proof.
  intros [->|(ci & hi & Hgd)]%update_graph_data_some; [done|].
  apply clicked_data_some in Hgd as (r & _ & Hidx & Ht & _). done.
Qed.

(** C40: [update_graph_data] raises exactly in two cases.  One is a
    table click with no active cell on a group with rows ([TypeError] on
    [active_cell["row_id"]]).  The other is a figure event, click or
    hover, whose click data points at or beyond the group's rows
    ([IndexError] on [iloc], line 189).  A hover raises too, because it
    reads the stored [clickData].  A group change never raises, and
    neither does a table click that carries a cell. *)
Theorem update_graph_data_errors nodes edges t si cd hd ac e :
  update_graph_data nodes edges t si cd hd ac = inl e ↔
  t ≠ TSubgraphIndex ∧
  ((t = TEdgeTable ∧ ac = None ∧ node_sub nodes (si - 1) ≠ [] ∧ e = TypeError) ∨
   (t ≠ TEdgeTable ∧ (Z.of_nat (length (node_sub nodes (si - 1))) ≤ get_point_index cd)%Z ∧
    e = IndexError)).
Proof. apply update_graph_data_inl. Qed.

Lemma nav_liveness_witness :
  ∃ b k, n_index (Nat.iter k (choose_subgraph_step (Some b) 1) (mk_nav 1 None None)) = 1%Z.
Proof.
  refine (proj2 (nav_liveness Pipeline.ex_tables.1 1 (mk_nav 1 None None) 1 _ _ _));
    [vm_compute; reflexivity|apply nav_init|lia].
Defined.

Lemma nav_reachable_index_example : ∃ s, nav_reachable 1 s ∧ n_index s = 1%Z.
Proof. refine (proj2 (nav_reachable_index Pipeline.ex_tables.1 1 1 _) _); [vm_compute; reflexivity|lia]. Defined.

(** On the component of [Contraction.ex_p] (group 7), a click on the
    first row lists its neighbour node 2 at row 1: the placeholder node 1
    has no group and no row, so rows and node ids differ (line 214). *)
Lemma update_graph_data_neighbors_witness :
  ∃ e r, Pipeline.ex_comp.2 !! 0 = Some e ∧ in_subgraph 7 (er_subgraph e) = true ∧
    (er_source e = 0 ∨ er_target e = 0) ∧ node_sub Pipeline.ex_comp.1 7 !! 1 = Some r ∧
    nr_node r = other_end 0 e ∧ 2 = nr_node r.
Proof.
  refine (proj1 (proj2 (update_graph_data_neighbors Pipeline.ex_comp.1 Pipeline.ex_comp.2 TFigClick 8
     (Some [0%Z]) None None (mk_graph_data 7 TFigClick (Some (0, 0)) (Some [mk_neighbor 1 0 2]) None)
     0 0 [mk_neighbor 1 0 2] _ eq_refl eq_refl) (mk_neighbor 1 0 2)) _).
  - vm_compute. reflexivity.
  - left.
Defined.

End Viewer.
