(* ===== verification/Consistency.v ===== *)
(** * Consistency: the viewer on the tables the pipeline writes

    Connects [Pipeline] and [Viewer].  The tables [blast_to_graph_tables]
    returns are the concatenation of one table per component (lines
    205-213 of src/src/blast_to_graph.py); within the rows of one group
    the node ids are distinct (they are positions in the component's
    table, line 181), and both ends of every edge of the group are rows
    of the group.  So the neighbour search of [update_graph_data]
    (src/app.py, lines 206-227) finds, for every edge of the group at
    the clicked node, exactly one row: the one at the edge's other end. *)

From S2P Require Import Prelude HitFilter OverlapEdges Graph Contraction Pipeline Viewer.
From Stdlib Require Import ZArith.

Module Consistency.
Import Graph Pipeline Viewer.

(** What the pipeline guarantees of the table of its component [i]. *)
Definition comp_table_ok (i : nat) (t : list node_row * list edge_row) : Prop :=
  (∀ k r, t.1 !! k = Some r → nr_node r = k) ∧
  (∀ r, r ∈ t.1 → nr_subgraph r = None ∨ nr_subgraph r = Some i) ∧
  (∀ e, e ∈ t.2 → er_subgraph e = Some i ∧
     ∃ r1 r2, t.1 !! er_source e = Some r1 ∧ nr_subgraph r1 = Some i ∧
              t.1 !! er_target e = Some r2 ∧ nr_subgraph r2 = Some i).

(** ** The tables are one block per component *)

Lemma append_rows_app {A} (acc new : list A) : append_rows acc new = acc ++ new.
Proof. unfold append_rows. case_decide as Hl; [|done]. by apply nil_length_inv in Hl as ->. Qed.

Lemma process_loop_tables `{Services} g L acc r :
  fold_result (λ acc ic, t ← component_tables g ic.1 ic.2;
                         mret (append_rows acc.1 t.1, append_rows acc.2 t.2)) L acc = inr r →
  ∃ ts, Forall2 (λ ic t, component_tables g ic.1 ic.2 = inr t) L ts ∧
        r.1 = acc.1 ++ concat (fst <$> ts) ∧ r.2 = acc.2 ++ concat (snd <$> ts).
Proof.
  revert acc. induction L as [|[i c] L IH]; intros acc.
  - intros [= <-]. exists []. cbn. by rewrite !app_nil_r.
  - cbn [fold_result]. intros (acc' & Hstep & Hrest)%bind_inr_inv.
    apply bind_inr_inv in Hstep as (t & Ht & Hacc). injection Hacc as <-.
    destruct (IH _ Hrest) as (ts & Hts & H1 & H2). exists (t :: ts). split; [by constructor|].
    cbn [fst snd] in *. rewrite H1, H2, !append_rows_app. cbn. by rewrite !app_assoc.
Qed.

Lemma Forall2_zip_seq {A B} (P : nat * A → B → Prop) (l : list A) ts j t :
  Forall2 P (zip (seq 0 (length l)) l) ts → ts !! j = Some t → ∃ c, l !! j = Some c ∧ P (j, c) t.
Proof.
  intros HF Ht. destruct (Forall2_lookup_r _ _ _ j t HF Ht) as ([a c] & Hic & HP).
  apply lookup_zip_with_Some in Hic as (a' & c' & [= <- <-] & Ha & Hc).
  apply lookup_seq in Ha as [-> _]. eauto.
Qed.

(** The tables of [blast_to_graph_tables] and the guarantees of each
    block. *)
Lemma pipeline_blocks `{Services} nc ec rows nodes edges :
  blast_to_graph_tables nc ec rows = inr (nodes, edges) →
  ∃ ts, nodes = concat (fst <$> ts) ∧ edges = concat (snd <$> ts) ∧
        ∀ j t, ts !! j = Some t → comp_table_ok j t.
Proof.
  unfold blast_to_graph_tables. intros (fs & _ & Hb)%bind_inr_inv.
  apply bind_inr_inv in Hb as (ov & Hov & Hp). destruct (assemble_ok fs ov Hov) as [Hwf _].
  unfold process_graph in Hp. apply process_loop_tables in Hp as (ts & Hts & H1 & H2).
  exists ts. split; [done|]. split; [done|]. intros j t Ht.
  destruct (Forall2_zip_seq _ _ _ j t Hts Ht) as (c & Hc & Htab).
  apply list_elem_of_lookup_2 in Hc. destruct (component_facts _ c Hwf Hc) as (Hr & _ & _).
  destruct t as [tn te]. cbn in Htab.
  destruct (component_tables_rows _ j c tn te Hr Htab) as (_ & Hs & He & Hk).
  split; [|split]; [exact Hk|exact Hs|exact He].
Qed.

(** ** One group of the concatenated tables *)

Section Blocks.
Context (ts : list (list node_row * list edge_row)).
Hypothesis Hok : ∀ j t, ts !! j = Some t → comp_table_ok j t.

Lemma row_group r i :
  r ∈ concat (fst <$> ts) → nr_subgraph r = Some i → ∃ t, ts !! i = Some t ∧ r ∈ t.1.
Proof.
  intros Hr Hs. apply list_elem_of_In, in_concat in Hr as (l & Hl & Hr).
  apply list_elem_of_In, list_elem_of_lookup in Hl as [j Hl].
  apply list_lookup_fmap_Some in Hl as (t & -> & Ht). apply list_elem_of_In in Hr.
  destruct (proj1 (proj2 (Hok j t Ht)) r Hr) as [Hn|Hn]; rewrite Hs in Hn; [done|].
  injection Hn as <-. eauto.
Qed.

Lemma node_sub_block i t :
  ts !! i = Some t → node_sub (concat (fst <$> ts)) (Z.of_nat i) = node_sub t.1 (Z.of_nat i).
Proof.
  intros Ht. unfold node_sub. apply (concat_filter_single _ _ i); [by rewrite list_lookup_fmap, Ht|].
  intros j l' (t' & -> & Ht')%list_lookup_fmap_Some Hji. apply filter_none.
  intros r Hr Hin. destruct (proj1 (proj2 (Hok j t' Ht')) r Hr) as [Hn|Hn];
    rewrite Hn in Hin; cbn in Hin; [done|]. apply bool_decide_eq_true in Hin. lia.
Qed.

Lemma edge_block i t lab e :
  ts !! i = Some t → (lab, e) ∈ edge_sub (concat (snd <$> ts)) (Z.of_nat i) → e ∈ t.2.
Proof.
  intros Ht [He Hin]%elem_of_edge_sub. apply list_elem_of_lookup_2 in He.
  apply list_elem_of_In, in_concat in He as (l & Hl & He).
  apply list_elem_of_In, list_elem_of_lookup in Hl as [j Hl].
  apply list_lookup_fmap_Some in Hl as (t' & -> & Ht'). apply list_elem_of_In in He.
  destruct (proj2 (proj2 (Hok j t' Ht')) e He) as [Hs _]. rewrite Hs in Hin. cbn in Hin.
  apply bool_decide_eq_true in Hin. assert (j = i) as -> by lia. congruence.
Qed.

End Blocks.

Lemma node_sub_NoDup i t : comp_table_ok i t → NoDup (nr_node <$> node_sub t.1 (Z.of_nat i)).
Proof.
  intros [Hk _]. assert (nr_node <$> t.1 = seq 0 (length t.1)) as Hseq.
  { apply list_eq. intros k. rewrite list_lookup_fmap.
    destruct (t.1 !! k) as [r|] eqn:E; cbn.
    - rewrite (Hk k r E). symmetry. apply lookup_seq. split; [done|]. by eapply lookup_lt_Some.
    - symmetry. apply lookup_ge_None. rewrite length_seq. by apply lookup_ge_None. }
  apply (sublist_NoDup _ (nr_node <$> t.1)); [rewrite Hseq; apply NoDup_seq|].
  apply fmap_sublist, sublist_filter.
Qed.

Lemma edge_end_row i t e x :
  comp_table_ok i t → e ∈ t.2 → x = er_source e ∨ x = er_target e →
  ∃ r, r ∈ node_sub t.1 (Z.of_nat i) ∧ nr_node r = x.
Proof.
  intros [Hk [_ He]] Hin Hx. destruct (He e Hin) as (_ & r1 & r2 & H1 & S1 & H2 & S2).
  destruct Hx as [->| ->]; [exists r1|exists r2]; (split; [|by eapply Hk]);
    apply list_elem_of_filter; (split; [cbn; rewrite ?S1, ?S2; by apply bool_decide_eq_true|]);
    by eapply list_elem_of_lookup_2.
Qed.

(** Both ends of an edge of group [i] are rows of group [i]. *)
Lemma pipeline_edge_ends `{Services} nc ec rows nodes edges i lab e x :
  blast_to_graph_tables nc ec rows = inr (nodes, edges) →
  (lab, e) ∈ edge_sub edges (Z.of_nat i) → x = er_source e ∨ x = er_target e →
  ∃ r, r ∈ node_sub nodes (Z.of_nat i) ∧ nr_node r = x.
Proof.
  intros Htab Hp Hx. destruct (pipeline_blocks nc ec rows nodes edges Htab) as (ts & -> & -> & Hok).
  pose proof Hp as [He Hin]%elem_of_edge_sub. apply list_elem_of_lookup_2 in He.
  apply list_elem_of_In, in_concat in He as (l & Hl & He).
  apply list_elem_of_In, list_elem_of_lookup in Hl as [j Hl].
  apply list_lookup_fmap_Some in Hl as (t & -> & Ht). apply list_elem_of_In in He.
  destruct (proj2 (proj2 (Hok j t Ht)) e He) as [Hs _]. rewrite Hs in Hin. cbn in Hin.
  apply bool_decide_eq_true in Hin. assert (j = i) as -> by lia.
  rewrite (node_sub_block ts Hok i t Ht). by apply (edge_end_row i t e x (Hok i t Ht)).
Qed.

(** ** The neighbour list has one entry per edge *)

(** On the pipeline's tables the node ids of every group are distinct. *)
Lemma pipeline_group_NoDup `{Services} nc ec rows nodes edges idx :
  blast_to_graph_tables nc ec rows = inr (nodes, edges) → NoDup (nr_node <$> node_sub nodes idx).
Proof.
  intros Htab. destruct (pipeline_blocks nc ec rows nodes edges Htab) as (ts & -> & -> & Hok).
  destruct (node_sub (concat (fst <$> ts)) idx) as [|r l] eqn:E; [constructor|].
  assert (r ∈ node_sub (concat (fst <$> ts)) idx) as Hr by (rewrite E; left).
  rewrite <-E. apply list_elem_of_filter in Hr as [Hs Hr].
  destruct (nr_subgraph r) as [i|] eqn:Hri; [|done]. apply bool_decide_eq_true in Hs. subst idx.
  destruct (row_group ts Hok r i Hr Hri) as (t' & Ht & _).
  rewrite (node_sub_block ts Hok i t' Ht). apply node_sub_NoDup, (Hok i t' Ht).
Qed.

Lemma row_matches_ids eid adj qs :
  nb_edge_id <$> row_matches eid adj qs = replicate (length (filter (λ q, adj = nr_node q.2) qs)) eid.
Proof.
  induction qs as [|q qs IH]; [done|]. unfold row_matches in *. rewrite filter_cons. cbn [omap list_omap].
  case_decide; cbn; by rewrite IH.
Qed.

Lemma edge_matches_ids sub cid es :
  (∀ p, p ∈ es → length (filter (λ q, other_end cid p.2 = nr_node q.2) (imap pair sub)) = 1) →
  nb_edge_id <$> edge_matches sub cid es = fst <$> es.
Proof.
  induction es as [|p es IH]; intros Hes; [done|]. unfold edge_matches in *. cbn.
  rewrite fmap_app, row_matches_ids, Hes by left. cbn. f_equal. apply IH.
  intros p' Hp'. apply Hes. by right.
Qed.

(** ** The viewer on the pipeline's tables *)

(** C33: On the tables the pipeline writes, the neighbour list the viewer
    stores for a clicked vertex has exactly one entry per edge of its
    group at the clicked node, in the edge table's order, and the entry
    names the edge's other end: no edge is missed or listed twice, even
    where placeholder rows make row positions and node ids differ. *)
Theorem viewer_neighbor_per_edge `{Services} nc ec rows nodes edges t si cd hd ac gd ci cid nbs :
  blast_to_graph_tables nc ec rows = inr (nodes, edges) →
  update_graph_data nodes edges t si cd hd ac = inr (Some gd) →
  gd_current gd = Some (ci, cid) → gd_neighbors gd = Some nbs →
  nb_edge_id <$> nbs = fst <$> adj_edges (edge_sub edges (si - 1)) cid ∧
  Forall (λ nb, ∃ e, edges !! nb_edge_id nb = Some e ∧ nb_node_id nb = other_end cid e) nbs.
Proof.
  intros Htab Hgd Hcur Hnbs. destruct (pipeline_blocks nc ec rows nodes edges Htab) as (ts & -> & -> & Hok).
  apply update_graph_data_some in Hgd as [->|(ci' & hi & Hgd)]; [done|].
  apply clicked_data_some in Hgd as (r & Hr & _ & _ & Hc & Hn & _).
  rewrite Hcur in Hc. injection Hc as _ ->. rewrite Hnbs in Hn. injection Hn as ->.
  apply list_elem_of_lookup_2, list_elem_of_filter in Hr as [Hs Hr].
  destruct (nr_subgraph r) as [i|] eqn:Hri; [|done]. apply bool_decide_eq_true in Hs.
  rewrite <-Hs in *. destruct (row_group ts Hok r i Hr Hri) as (t' & Ht & _).
  rewrite (node_sub_block ts Hok i t' Ht). split.
  - apply edge_matches_ids. intros [lab e] [Hend Hp]%elem_of_adj_edges. cbn in Hend |- *.
    pose proof (edge_block ts Hok i t' lab e Ht Hp) as He.
    destruct (edge_end_row i t' e (other_end (nr_node r) e) (Hok i t' Ht) He) as (x & Hx & Hxn).
    { unfold other_end. case_decide; auto. }
    transitivity (length (filter (λ x, other_end (nr_node r) e = nr_node x)
                            (snd <$> imap pair (node_sub t'.1 (Z.of_nat i))))); [by apply length_filter_snd|].
    rewrite fmap_snd_imap_pair. apply length_filter_NoDup; [apply node_sub_NoDup, (Hok i t' Ht)|eauto].
  - apply Forall_forall. intros nb (e & Hp & Hid & _)%elem_of_edge_matches.
    apply elem_of_adj_edges in Hp as [_ Hp]. apply elem_of_edge_sub in Hp as [He _]. eauto.
Qed.

Lemma viewer_neighbor_per_edge_witness :
  nb_edge_id <$> [mk_neighbor 1 0 1] = fst <$> adj_edges (edge_sub Pipeline.ex_tables.2 (1 - 1)) 0.
Proof.
  refine (proj1 (viewer_neighbor_per_edge HitFilter.Cqacc HitFilter.Csacc Pipeline.ex_hits
    Pipeline.ex_tables.1 Pipeline.ex_tables.2 TFigClick 1 (Some [0%Z]) None None
    (mk_graph_data 0 TFigClick (Some (0, 0)) (Some [mk_neighbor 1 0 1]) None) 0 0 _ _ _ eq_refl eq_refl));
    vm_compute; reflexivity.
Defined.

End Consistency.
