(* ===== verification/Panels.v ===== *)
(** * Panels: the callbacks that redraw the viewer from its store

    Models the three callbacks of src/app.py that read the [graph-data]
    store [update_graph_data] writes (see [Viewer]): [update_figure]
    (lines 250-277) recolours the node trace, [update_edge_table] (lines
    285-323) lists the neighbours with their formatted weights, sorted by
    the formatted edge weight and with the hovered one on top, and
    [update_clicked_node_info] (lines 330-335) shows the clicked node's
    condensed name.  [plot_subgraph] (a plotly figure) is not modelled:
    a new plot is returned as the rows it is drawn from.

    ["{:10.3f}".format] is written out on exact rationals: rounding half
    to even at the third decimal, a minus sign for a negative value,
    padding with spaces to 10 characters.  [sorted(..., reverse=True)] is
    the stable sort in descending order of the key, by code point. *)

From S2P Require Import Prelude Graph Contraction Pipeline Display Viewer.
From Stdlib Require Import ZArith Qround Ascii.

Module Panels.
Import Pipeline Viewer.

(** ** Formatting and sorting *)

(** Round half to even: the rounding of Python's float formatting. *)
Definition round_half_even (q : Q) : Z :=
  let f := Qfloor q in
  match Qcompare (q - inject_Z f) (1 # 2) with
  | Lt => f
  | Gt => (f + 1)%Z
  | Eq => if Z.even f then f else (f + 1)%Z
  end.

(** Three decimals with leading zeros. *)
Definition pad3 (n : Z) : string :=
  let s := pretty (Z.to_N n) in
  if decide (n < 10)%Z then "00" +:+ s else if decide (n < 100)%Z then "0" +:+ s else s.

Fixpoint spaces (n : nat) : string :=
  match n with 0 => "" | S n => String " " (spaces n) end.

(** Right alignment in a field of width [w]. *)
Definition pad_left (w : nat) (s : string) : string := spaces (w - String.length s) +:+ s.

(** ["{:10.3f}".format(q)]. *)
Definition format_10_3 (q : Q) : string :=
  let r := Z.abs (round_half_even (q * 1000)) in
  pad_left 10 ((if Qlt_le_dec q 0 then "-" else "") +:+ pretty (Z.to_N (r / 1000)) +:+ "." +:+
               pad3 (r mod 1000)).

(** [a > b] on strings, by code point. *)
Definition str_gt (a b : string) : bool :=
  match String.compare a b with Gt => true | _ => false end.

(** One step of a stable insertion sort in descending order: [x] goes
    after the elements whose key is not below its own. *)
Fixpoint insert_desc {A} (key : A → string) (x : A) (l : list A) : list A :=
  match l with
  | [] => [x]
  | y :: ys => if str_gt (key x) (key y) then x :: y :: ys else y :: insert_desc key x ys
  end.

(** [sorted(l, key=key, reverse=True)]. *)
Definition sorted_desc {A} (key : A → string) (l : list A) : list A :=
  foldl (λ acc x, insert_desc key x acc) [] l.

(** ** The neighbour table, lines 285-323 *)

Definition newline : string := String (ascii_of_nat 10) "".

(** A row of the table's data. *)
Record table_record := mk_record {
  rec_id : nat;
  rec_name : string;
  rec_node_weight : string;
  rec_edge_weight : string
}.

(** [edge_subdf.loc[edge_id]]: the row with that label, or [KeyError]. *)
Definition py_loc (esub : list (nat * edge_row)) (label : nat) : result edge_row :=
  match list_find (λ p : nat * edge_row, p.1 = label) esub with
  | Some (_, p) => mret p.2
  | None => throw (KeyError (pretty (N.of_nat label)))
  end.

(** Lines 299-311 for one neighbour. *)
Definition neighbor_record (sub : list node_row) (esub : list (nat * edge_row)) (nb : neighbor) :
    result table_record :=
  edge ← py_loc esub (nb_edge_id nb);
  node ← py_iloc sub (Z.of_nat (nb_point_index nb));
  mret (mk_record (nb_node_id nb) (Display.collapse_names (nr_name node) newline)
          (format_10_3 (inject_Z (Z.of_nat (nr_weight node)))) (format_10_3 (er_weight edge))).

(** Lines 316-321: [records.insert(0, records.pop(i))] for the first
    record of the hovered node, with its three cells selected. *)
Definition move_hover (hover_id : nat) (records : list table_record) :
    list table_record * list (nat * nat) :=
  match list_find (λ r, hover_id = rec_id r) records with
  | Some (i, r) => (r :: delete i records, [(0, 0); (0, 1); (0, 2)])
  | None => (records, [])
  end.

(** Lines 285-323: the table's rows and its selected cells
    [(row, column)]. *)
Definition update_edge_table (nodes : list node_row) (edges : list edge_row) (gd : graph_data) :
    result (list table_record * list (nat * nat)) :=
  let idx := gd_subgraph_index gd in
  match gd_current gd with
  | None => mret ([], [])
  | Some _ =>
      nbs ← (match gd_neighbors gd with Some nbs => mret nbs | None => throw (KeyError "neighbors") end);
      records ← mapM (neighbor_record (node_sub nodes idx) (edge_sub edges idx)) nbs;
      let records := sorted_desc rec_edge_weight records in
      match gd_hover gd with
      | Some (_, hover_id) => mret (move_hover hover_id records)
      | None => mret (records, [])
      end
  end.

(** The node ids of the table's rows, in order. *)
Definition table_ids (r : result (list table_record * list (nat * nat))) : option (list nat) :=
  match r with inr t => Some (rec_id <$> t.1) | inl _ => None end.

(** ** The clicked node's name, lines 330-335 *)

Definition update_clicked_node_info (nodes : list node_row) (gd : graph_data) : result string :=
  match gd_current gd with
  | None => mret ""
  | Some (_, cid) =>
      clicked_node ← py_iloc (filter (λ r, in_subgraph (gd_subgraph_index gd) (nr_subgraph r) = true ∧
                                           nr_node r = cid) nodes) 0;
      mret (Display.collapse_names (nr_name clicked_node) newline)
  end.

(** ** The figure, lines 250-277 *)

Inductive color := White | Yellow | Red | Pink.

(** A new plot of the group's rows, new colours for the node trace, or
    [no_update]. *)
Inductive figure_update :=
  | Replot (nodes : list node_row) (edges : list (nat * edge_row))
  | Recolor (colors : list color)
  | FigNoUpdate.

(** Lines 250-277.  The stored [point_index] is never negative, so the
    test of line 274 holds whenever the colours are computed. *)
Definition update_figure (nodes : list node_row) (edges : list edge_row) (gd : graph_data) :
    result figure_update :=
  let idx := gd_subgraph_index gd in
  let sub := node_sub nodes idx in
  if decide (gd_trigger gd = TSubgraphIndex) then mret (Replot sub (edge_sub edges idx))
  else match gd_current gd with
  | Some (click_index, _) =>
      if decide (gd_trigger gd ∈ [TFigClick; TFigHover; TEdgeTable]) then
        c ← Contraction.py_setitem (replicate (length sub) White) click_index Yellow;
        c ← (match gd_neighbors gd with
             | Some nbs => fold_result (λ c nb, Contraction.py_setitem c (nb_point_index nb) Red) nbs c
             | None => mret c
             end);
        c ← (match gd_hover gd with
             | Some (hover_index, _) => Contraction.py_setitem c hover_index Pink
             | None => mret c
             end);
        mret (Recolor c)
      else mret FigNoUpdate
  | None => mret FigNoUpdate
  end.

(** ** [sorted_desc] is Python's stable descending sort *)

Lemma str_gt_spec a b : str_gt a b = true ↔ str_lt b a.
Proof.
  unfold str_gt, str_lt. rewrite String.compare_antisym.
  destruct (String.compare b a); cbn; naive_solver.
Qed.

Section StableSort.
Context {A : Type} (key : A → string).

(** [a] may precede [b]: its key is not below [b]'s. *)
Definition key_ge (a b : A) : Prop := ¬ str_lt (key a) (key b).

Lemma insert_desc_perm x l : insert_desc key x l ≡ₚ x :: l.
Proof.
  induction l as [|y l IH]; cbn; [done|].
  destruct (str_gt _ _); [done|]. rewrite IH. apply perm_swap.
Qed.

Lemma insert_desc_sorted x l : StronglySorted key_ge l → StronglySorted key_ge (insert_desc key x l).
Proof.
  induction 1 as [|y l Hl IH Hy]; cbn; [by repeat constructor|].
  destruct (str_gt (key x) (key y)) eqn:E.
  - apply str_gt_spec in E. constructor; [by constructor|]. constructor.
    + intros Hxy. by apply (str_lt_irrefl (key x)), (str_lt_trans _ (key y)).
    + eapply Forall_impl; [exact Hy|]. intros z Hyz Hxz. apply Hyz. by apply (str_lt_trans _ (key x)).
  - constructor; [done|]. rewrite insert_desc_perm. constructor; [|done].
    intros Hyx%str_gt_spec. congruence.
Qed.

Lemma insert_desc_filter k x l :
  StronglySorted key_ge l →
  filter (λ y, key y = k) (insert_desc key x l) =
    filter (λ y, key y = k) l ++ filter (λ y, key y = k) [x].
Proof.
  induction 1 as [|y l Hl IH Hy]; cbn [insert_desc]; [by rewrite filter_nil|].
  destruct (str_gt (key x) (key y)) eqn:E.
  - apply str_gt_spec in E. destruct (decide (key x = k)) as [Hk|Hk].
    + assert (filter (λ z, key z = k) (y :: l) = []) as Hnil.
      { apply filter_none. intros z Hz Hzk. rewrite <-Hk in Hzk.
        apply elem_of_cons in Hz as [->|Hz]; [rewrite Hzk in E; by apply str_lt_irrefl in E|].
        rewrite Forall_forall in Hy. apply (Hy z Hz). rewrite Hzk. exact E. }
      rewrite (filter_cons _ x (y :: l)), decide_True, Hnil by done.
      rewrite (filter_cons _ x []), decide_True by done. done.
    + rewrite (filter_cons _ x (y :: l)), decide_False by done.
      rewrite (filter_cons _ x []), decide_False, filter_nil, app_nil_r by done. done.
  - rewrite !filter_cons, IH. by case_decide.
Qed.

Lemma sorted_desc_go acc l :
  StronglySorted key_ge acc →
  let r := foldl (λ acc x, insert_desc key x acc) acc l in
  StronglySorted key_ge r ∧ r ≡ₚ acc ++ l ∧
  ∀ k, filter (λ y, key y = k) r = filter (λ y, key y = k) acc ++ filter (λ y, key y = k) l.
Proof.
  revert acc. induction l as [|x l IH]; intros acc Hacc; cbn [foldl].
  - split; [done|]. split; [by rewrite app_nil_r|]. intros k. by rewrite filter_nil, app_nil_r.
  - destruct (IH (insert_desc key x acc)) as (Hs & Hp & Hf); [by apply insert_desc_sorted|].
    split; [done|]. split.
    + rewrite Hp, insert_desc_perm. by rewrite <-Permutation_middle.
    + intros k. rewrite Hf, insert_desc_filter by done. rewrite <-app_assoc. f_equal.
      by rewrite <-filter_app.
Qed.

(** [sorted_desc] orders by descending key, keeps the elements, and
    keeps the order of the elements of one key: it is the sort Python's
    [sorted(..., reverse=True)] is documented to be. *)
Lemma sorted_desc_spec l :
  StronglySorted key_ge (sorted_desc key l) ∧ sorted_desc key l ≡ₚ l ∧
  ∀ k, filter (λ y, key y = k) (sorted_desc key l) = filter (λ y, key y = k) l.
Proof. apply (sorted_desc_go [] l). constructor. Qed.

End StableSort.

(** ** The readers never raise on a store [update_graph_data] wrote *)

Lemma py_loc_ok esub label e : (label, e) ∈ esub → ∃ e', py_loc esub label = inr e'.
Proof.
  unfold py_loc. intros He. destruct (list_find _ esub) as [[i p]|] eqn:E; [by eexists|].
  apply list_find_None in E. by destruct (proj1 (Forall_forall _ _) E _ He).
Qed.

Lemma py_iloc_lt {A} (l : list A) n : n < length l → ∃ x, py_iloc l (Z.of_nat n) = inr x ∧ l !! n = Some x.
Proof.
  intros Hn. destruct (py_iloc_ok l (Z.of_nat n)) as [(x & Hx & Hl)|[_ Hl]]; rewrite ?Nat2Z.id in *; [lia|eauto|lia].
Qed.

Lemma py_setitem_ok {A} (l : list A) i x : i < length l → Contraction.py_setitem l i x = inr (<[i:=x]> l).
Proof. intros Hi. unfold Contraction.py_setitem. by rewrite decide_True. Qed.

Lemma neighbor_record_ok sub esub nb :
  nb_point_index nb < length sub → (∃ e, (nb_edge_id nb, e) ∈ esub) →
  ∃ rec, neighbor_record sub esub nb = inr rec.
Proof.
  intros Hn [e He]. unfold neighbor_record.
  destruct (py_loc_ok esub _ e He) as [e' ->]. destruct (py_iloc_lt sub _ Hn) as (x & -> & _).
  by eexists.
Qed.

Lemma py_setitem_length {A} (l l' : list A) i x :
  Contraction.py_setitem l i x = inr l' → length l' = length l.
Proof. unfold Contraction.py_setitem. case_decide; [intros [= <-]; apply length_insert|done]. Qed.

(** What [update_figure] can return: a new plot of the group on a group
    change, otherwise no update or one colour per row of the group for
    a store that holds a clicked node. *)
Lemma update_figure_cases nodes edges gd fu :
  update_figure nodes edges gd = inr fu →
  (gd_trigger gd = TSubgraphIndex ∧
     fu = Replot (node_sub nodes (gd_subgraph_index gd)) (edge_sub edges (gd_subgraph_index gd))) ∨
  (gd_trigger gd ≠ TSubgraphIndex ∧
     (fu = FigNoUpdate ∨ ∃ c ci cid, fu = Recolor c ∧ gd_current gd = Some (ci, cid) ∧
        length c = length (node_sub nodes (gd_subgraph_index gd)))).
Proof.
  unfold update_figure. intros H. case_decide; [injection H as <-; by left|]. right. split; [done|].
  destruct (gd_current gd) as [[ci cid]|]; [|injection H as <-; by left].
  case_decide; [|injection H as <-; by left]. inv_result. right.
  exists x1, ci, cid. split; [done|]. split; [done|].
  apply py_setitem_length in Hm. rewrite length_replicate in Hm.
  assert (length x0 = length x) as L0.
  { destruct (gd_neighbors gd) as [nbs|]; [|by injection Hm0 as ->].
    revert Hm0. apply (fold_result_invariant (λ c : list color, length c = length x)); [done|].
    intros c nb c' _ Hc Hs%py_setitem_length. lia. }
  destruct (gd_hover gd) as [[hi hid]|]; [apply py_setitem_length in Hm1|injection Hm1 as <-]; lia.
Qed.

(** Every row of the neighbour table is the record of a stored
    neighbour, with that neighbour's node id. *)
Lemma update_edge_table_ids nodes edges gd recs sel r :
  update_edge_table nodes edges gd = inr (recs, sel) → r ∈ recs →
  ∃ nbs nb, gd_neighbors gd = Some nbs ∧ nb ∈ nbs ∧ rec_id r = nb_node_id nb.
Proof.
  unfold update_edge_table. intros H Hr. destruct (gd_current gd) as [[ci cid]|];
    [|injection H as <- _; by apply not_elem_of_nil in Hr].
  destruct (gd_neighbors gd) as [nbs|]; [|done]. rewrite bind_ret in H.
  destruct (mapM _ nbs) as [|recs0] eqn:Hm; [done|]. rewrite bind_inr in H.
  assert (r ∈ sorted_desc rec_edge_weight recs0) as Hr'.
  { destruct (gd_hover gd) as [[hi hid]|]; [|by injection H as <- _].
    unfold move_hover in H. destruct (list_find _ _) as [[i r0]|] eqn:Hf; [|by injection H as <- _].
    injection H as <- _. apply list_find_Some in Hf as (Hi & _ & _).
    rewrite (delete_Permutation _ i r0 Hi). done. }
  rewrite (proj1 (proj2 (sorted_desc_spec rec_edge_weight recs0))) in Hr'.
  apply list_elem_of_lookup in Hr' as [k Hk].
  destruct (Forall2_lookup_r _ _ _ k _ (mapM_result_Forall2 _ _ _ Hm) Hk) as (nb & Hnb & Hrec).
  exists nbs, nb. split; [done|]. split; [by eapply list_elem_of_lookup_2|].
  unfold neighbor_record in Hrec. inv_result. by subst r.
Qed.

Section Readers.
Context (nodes : list node_row) (edges : list edge_row) (gd : graph_data).
Hypothesis Hgd : store_ok nodes edges gd.

Lemma update_edge_table_ok : ∃ t, update_edge_table nodes edges gd = inr t.
Proof.
  destruct Hgd as [Hc _]. unfold update_edge_table.
  destruct (gd_current gd) as [[ci cid]|]; [|by eexists].
  destruct (Hc ci cid eq_refl) as (_ & nbs & -> & Hnbs). rewrite bind_ret.
  destruct (mapM_result_ok (neighbor_record (node_sub nodes (gd_subgraph_index gd))
                              (edge_sub edges (gd_subgraph_index gd))) nbs) as [recs ->];
    [intros nb Hnb; apply neighbor_record_ok; apply Hnbs, Hnb|].
  rewrite bind_inr. destruct (gd_hover gd) as [[??]|]; by eexists.
Qed.

Lemma update_clicked_node_info_ok : ∃ s, update_clicked_node_info nodes gd = inr s.
Proof.
  destruct Hgd as [Hc _]. unfold update_clicked_node_info.
  destruct (gd_current gd) as [[ci cid]|]; [|by eexists].
  destruct (Hc ci cid eq_refl) as ((r & Hr & Hcid) & _).
  apply list_elem_of_lookup_2, list_elem_of_filter in Hr as [Hs Hr].
  destruct (py_iloc_lt (filter (λ r, in_subgraph (gd_subgraph_index gd) (nr_subgraph r) = true ∧
                                     nr_node r = cid) nodes) 0) as (x & Hx & _).
  - destruct (filter _ nodes) eqn:E; [|cbn; lia].
    assert (r ∈ filter (λ r, in_subgraph (gd_subgraph_index gd) (nr_subgraph r) = true ∧
                              nr_node r = cid) nodes) as Hin by (by apply list_elem_of_filter).
    rewrite E in Hin. by apply not_elem_of_nil in Hin.
  - change (Z.of_nat 0) with 0%Z in Hx. rewrite Hx. by eexists.
Qed.

Lemma update_figure_ok : ∃ f, update_figure nodes edges gd = inr f.
Proof.
  destruct Hgd as [Hc Hh]. unfold update_figure.
  case_decide; [by eexists|]. destruct (gd_current gd) as [[ci cid]|]; [|by eexists].
  case_decide; [|by eexists]. destruct (Hc ci cid eq_refl) as ((r & Hr & _) & nbs & -> & Hnbs).
  set (n := length (node_sub nodes (gd_subgraph_index gd))) in *.
  rewrite py_setitem_ok by (apply lookup_lt_Some in Hr; by rewrite length_replicate).
  rewrite bind_inr.
  destruct (fold_result_ok (λ c : list color, length c = n)
              (λ c nb, Contraction.py_setitem c (nb_point_index nb) Red) nbs
              (<[ci:=Yellow]> (replicate n White))) as (c & -> & Hlen).
  { by rewrite length_insert, length_replicate. }
  { intros c nb Hnb Hc'. eexists; split; [apply py_setitem_ok; rewrite Hc'; by apply Hnbs|].
    by rewrite length_insert. }
  rewrite bind_inr. destruct (gd_hover gd) as [[hi hid]|] eqn:E; [|by eexists].
  rewrite py_setitem_ok by (rewrite Hlen; by apply (Hh hi hid)). by eexists.
Qed.

End Readers.

(** ** Properties *)



(** The table is sorted by the formatted string, which agrees with the
    numeric order only while the weights have the same number of
    integer digits beyond the padding: a neighbour joined by an edge of
    weight 2,000,000 is listed above one joined by weight 10,000,000,
    while weights 0.975 and 2 are listed as 2 then 0.975. *)
Example edge_table_string_order :
  let nodes := [mk_node_row "a" 1 (Some 0) None None None 0; mk_node_row "b" 1 (Some 0) None None None 1;
                mk_node_row "c" 1 (Some 0) None None None 2] in
  let gd := mk_graph_data 0 TFigClick (Some (0, 0))
              (Some [mk_neighbor 1 0 1; mk_neighbor 2 1 2]) None in
  table_ids (update_edge_table nodes
     [mk_edge_row 0 1 2000000%Q (Some 0) None; mk_edge_row 0 2 10000000%Q (Some 0) None] gd) = Some [1; 2] ∧
  table_ids (update_edge_table nodes
     [mk_edge_row 0 1 (975 # 1000) (Some 0) None; mk_edge_row 0 2 2%Q (Some 0) None] gd) = Some [2; 1].
Proof. vm_compute. split; reflexivity. Qed.

End Panels.
