(* ===== verification/Plot.v ===== *)
(** * Plot: the figure of one group

    Models [plot_subgraph] of src/src/plot_graph.py (lines 36-111), which
    the viewer calls on the rows of one group (src/app.py, lines 28 and
    257).  The edges are binned by weight ([np.linspace] over the
    smallest and largest weight, six edges, and [np.digitize]); each bin
    becomes one line trace, thicker for a higher bin, holding for every
    edge the positions of its two ends followed by a gap; the nodes are
    one marker trace whose size and outline grow with the weight and
    whose text is the condensed name with line breaks.  The figure's
    layout (lines 104-110) is presentation and is not modelled.

    Floats are exact rationals, [None] in a trace is [Gap] and a missing
    position (NaN) is [Pt None]. *)

From S2P Require Import Prelude HitFilter OverlapEdges Graph Pipeline Cli Display Viewer Consistency Panels.
From Stdlib Require Import ZArith.

Module Plot.
Import Pipeline Viewer.

(** ** numpy *)

(** [np.linspace(start, stop, num)]: [num - 1] even steps from [start],
    the last value set to [stop]. *)
Definition linspace (start stop : Q) (num : nat) : list Q :=
  ((λ k, (start + inject_Z (Z.of_nat k) * ((stop - start) / inject_Z (Z.of_nat (num - 1))))%Q)
     <$> seq 0 (num - 1)) ++ [stop].

(** [np.digitize(x, bins)] for increasing bins: the number of bins at or
    below [x]. *)
Definition digitize (x : Q) (bins : list Q) : nat := length (filter (λ b, Qle_bool b x = true) bins).

(** [Series.min()] and [Series.max()] of a non-empty column. *)
Definition qmin (ws : list Q) : Q := match ws with [] => 0%Q | w :: ws => foldl Qmin w ws end.
Definition qmax (ws : list Q) : Q := match ws with [] => 0%Q | w :: ws => foldl Qmax w ws end.

(** ** The traces *)

(** A value of a trace's coordinate list: a position, possibly NaN, or
    the [None] that separates two segments. *)
Inductive point := Pt (v : option Q) | Gap.

(** [go.Scatter(x, y, line=dict(width=...), mode="lines")] for one bin. *)
Record edge_trace := mk_edge_trace {
  et_x : list point;
  et_y : list point;
  et_width : Q
}.

(** The node trace of lines 78-99. *)
Record node_trace := mk_node_trace {
  nt_x : list (option Q);
  nt_y : list (option Q);
  nt_text : list string;
  nt_size : list Q;
  nt_linewidth : list Q;
  nt_color : list Panels.color;
  nt_linecolor : list string
}.

(** [go.Figure(data = edge_traces + [node_trace])]; the empty figure has
    no trace at all. *)
Record figure := mk_figure {
  fig_edges : list edge_trace;
  fig_nodes : option node_trace
}.

(** Lines 56-63 for one edge: the first row of each end, by node id. *)
Definition edge_endpoints (sub : list node_row) (e : edge_row) : result (list point * list point) :=
  source ← py_iloc (filter (λ r, nr_node r = er_source e) sub) 0;
  target ← py_iloc (filter (λ r, nr_node r = er_target e) sub) 0;
  mret ([Pt (nr_x source); Pt (nr_x target); Gap], [Pt (nr_y source); Pt (nr_y target); Gap]).

(** Lines 50-73 for one bin and its edges, in table order. *)
Definition bin_trace (sub : list node_row) (bin : nat) (subset : list edge_row) :
    result (option edge_trace) :=
  xy ← fold_result (λ acc e, p ← edge_endpoints sub e; mret (acc.1 ++ p.1, acc.2 ++ p.2))
         subset ([], []);
  mret (if decide (0 < length xy.1) then
          Some (mk_edge_trace xy.1 xy.2 ((1 # 2) * inject_Z (Z.of_nat bin) + (1 # 10))%Q)
        else None).

(** Lines 76-99. *)
Definition make_node_trace (sub : list node_row) : node_trace :=
  mk_node_trace (nr_x <$> sub) (nr_y <$> sub)
    ((λ r, Cli.py_replace (Display.collapse_names (nr_name r) ",") "," "<br />") <$> sub)
    ((λ r, inject_Z (Z.of_nat (nr_weight r)) + 5)%Q <$> sub)
    ((λ r, (5 # 100) * inject_Z (Z.of_nat (nr_weight r)) + 1)%Q <$> sub)
    (replicate (length sub) Panels.White) (replicate (length sub) "black").

(** The bin of each edge (lines 47-48). *)
Definition edge_bin (esub : list edge_row) (e : edge_row) : nat :=
  let ws := er_weight <$> esub in
  digitize (er_weight e) (linspace (qmin ws) (qmax ws) 6).

(** Lines 36-101. *)
Definition plot_subgraph (sub : list node_row) (esub : list edge_row) : result figure :=
  if decide (length sub = 0) then mret (mk_figure [] None)
  else
    traces ← mapM (λ b, bin_trace sub b (filter (λ e, edge_bin esub e = b) esub))
                  (sort_unique (edge_bin esub <$> esub));
    mret (mk_figure (omap id traces) (Some (make_node_trace sub))).

(** The positions a bin's trace draws, none for a bin with no trace. *)
Definition trace_points (o : option edge_trace) : nat :=
  match o with Some tr => length (et_x tr) | None => 0 end.

(** ** Bins *)

Lemma foldl_Qmin_le a ws : (foldl Qmin a ws <= a)%Q ∧ ∀ w, w ∈ ws → (foldl Qmin a ws <= w)%Q.
Proof.
  revert a. induction ws as [|w ws IH]; intros a; cbn.
  - split; [apply Qle_refl|]. by intros w ?%not_elem_of_nil.
  - destruct (IH (Qmin a w)) as [H1 H2]. split.
    + eapply Qle_trans; [exact H1|apply Q.le_min_l].
    + intros w' [->|Hw']%elem_of_cons; [|by apply H2].
      eapply Qle_trans; [exact H1|apply Q.le_min_r].
Qed.

Lemma qmin_le ws w : w ∈ ws → (qmin ws <= w)%Q.
Proof.
  destruct ws as [|a ws]; [by intros ?%not_elem_of_nil|]. cbn.
  destruct (foldl_Qmin_le a ws) as [H1 H2]. intros [->|Hw]%elem_of_cons; [done|by apply H2].
Qed.

Lemma length_linspace a b n : 0 < n → length (linspace a b n) = n.
Proof. intros Hn. unfold linspace. rewrite length_app, length_fmap, length_seq. cbn. lia. Qed.

(** Every edge of the group falls into one of the bins 1 to 6. *)
Lemma edge_bin_range esub e : e ∈ esub → 1 ≤ edge_bin esub e ≤ 6.
Proof.
  intros He. unfold edge_bin, digitize. split.
  - set (ws := er_weight <$> esub). set (b0 := (qmin ws + inject_Z (Z.of_nat 0) *
                                    ((qmax ws - qmin ws) / inject_Z (Z.of_nat (6 - 1))))%Q).
    assert (b0 ∈ filter (λ b, Qle_bool b (er_weight e) = true) (linspace (qmin ws) (qmax ws) 6)) as Hb.
    { apply list_elem_of_filter. split.
      - apply Qle_bool_iff. unfold b0. cbn [inject_Z Z.of_nat]. rewrite Qmult_0_l, Qplus_0_r.
        apply qmin_le. by apply list_elem_of_fmap_2.
      - unfold linspace. apply elem_of_app. left. apply list_elem_of_fmap.
        exists 0. split; [reflexivity|apply elem_of_seq; lia]. }
    destruct (filter _ _); [by apply not_elem_of_nil in Hb|cbn; lia].
  - etransitivity; [apply length_filter|]. rewrite length_linspace; lia.
Qed.

(** ** Traces *)

Lemma py_iloc_first (P : node_row → Prop) `{∀ x, Decision (P x)} l :
  (∃ r, r ∈ l ∧ P r) → ∃ x, py_iloc (filter P l) 0 = inr x.
Proof.
  intros (r & Hr & HP). destruct (Panels.py_iloc_lt (filter P l) 0) as (x & Hx & _); [|by exists x].
  assert (r ∈ filter P l) as Hin by (by apply list_elem_of_filter).
  destruct (filter P l); [by apply not_elem_of_nil in Hin|cbn; lia].
Qed.

Lemma edge_endpoints_ok sub e :
  (∀ x, x = er_source e ∨ x = er_target e → ∃ r, r ∈ sub ∧ nr_node r = x) →
  ∃ p, edge_endpoints sub e = inr p ∧ length p.1 = 3.
Proof.
  intros Hends. unfold edge_endpoints.
  destruct (py_iloc_first (λ r, nr_node r = er_source e) sub) as [s ->]; [by apply Hends; left|].
  destruct (py_iloc_first (λ r, nr_node r = er_target e) sub) as [t ->]; [by apply Hends; right|].
  by eexists.
Qed.

Lemma bin_fold_ok sub subset acc :
  (∀ e, e ∈ subset → ∀ x, x = er_source e ∨ x = er_target e → ∃ r, r ∈ sub ∧ nr_node r = x) →
  ∃ xy, fold_result (λ acc e, p ← edge_endpoints sub e; mret (acc.1 ++ p.1, acc.2 ++ p.2))
          subset acc = inr xy ∧ length xy.1 = length acc.1 + 3 * length subset.
Proof.
  revert acc. induction subset as [|e subset IH]; intros acc Hs; cbn [fold_result].
  - eexists; split; [done|]. cbn. lia.
  - destruct (edge_endpoints_ok sub e) as (p & -> & Hp); [apply Hs; left|]. rewrite !bind_inr, ?bind_ret.
    destruct (IH (acc.1 ++ p.1, acc.2 ++ p.2)) as (xy & -> & Hxy); [intros e' He'; apply Hs; by right|].
    eexists; split; [done|]. rewrite Hxy. cbn. rewrite length_app, Hp. lia.
Qed.

Lemma bin_trace_ok sub b subset :
  (∀ e, e ∈ subset → ∀ x, x = er_source e ∨ x = er_target e → ∃ r, r ∈ sub ∧ nr_node r = x) →
  ∃ o, bin_trace sub b subset = inr o ∧ trace_points o = 3 * length subset ∧
    ∀ tr, o = Some tr → et_width tr = ((1 # 2) * inject_Z (Z.of_nat b) + (1 # 10))%Q.
Proof.
  intros Hs. unfold bin_trace. destruct (bin_fold_ok sub subset ([], []) Hs) as (xy & -> & Hxy).
  rewrite bind_inr. cbn in Hxy. eexists; split; [done|].
  case_decide; cbn; (split; [lia|]); [by intros tr [= <-]|done].
Qed.

Lemma sum_trace_points ys :
  sum_list ((λ tr, length (et_x tr)) <$> omap id ys) = sum_list (trace_points <$> ys).
Proof. induction ys as [|[tr|] ys IH]; cbn; [done| |done]. by rewrite IH. Qed.

Lemma sum_list_Forall2 {A B} (g : B → nat) (h : A → nat) (P : A → B → Prop) l ys :
  Forall2 P l ys → (∀ x y, P x y → g y = h x) → sum_list (g <$> ys) = sum_list (h <$> l).
Proof. intros HF Hgh. induction HF as [|x y l ys Hxy _ IH]; cbn; [done|]. by rewrite IH, (Hgh x y). Qed.

Lemma sum_length_partition esub :
  sum_list ((λ b, length (filter (λ e, edge_bin esub e = b) esub)) <$> sort_unique (edge_bin esub <$> esub)) =
  length esub.
Proof.
  transitivity (length (concat ((λ b, filter (λ e, edge_bin esub e = b) esub) <$>
                                sort_unique (edge_bin esub <$> esub)))).
  - generalize (sort_unique (edge_bin esub <$> esub)). intros ks.
    induction ks as [|k ks IH]; [done|]. rewrite !fmap_cons. cbn [concat sum_list].
    by rewrite length_app, IH.
  - apply Permutation_length, concat_filter_partition; [apply NoDup_sort_unique|].
    intros e He. apply elem_of_sort_unique, list_elem_of_fmap_2, He.
Qed.

(** ** The figure of a group of the pipeline's tables *)

(** On the tables the pipeline writes, the figure of a non-empty group:
    both ends of every edge are rows of the group, every edge is drawn
    once and every trace has the width of a bin between 1 and 6. *)
Lemma plot_group_edges_ok `{Services} nc ec rows nodes edges i :
  blast_to_graph_tables nc ec rows = inr (nodes, edges) →
  node_sub nodes (Z.of_nat i) ≠ [] →
  ∃ fig, plot_subgraph (node_sub nodes (Z.of_nat i)) (snd <$> edge_sub edges (Z.of_nat i)) = inr fig ∧
    sum_list ((λ tr, length (et_x tr)) <$> fig_edges fig) = 3 * length (edge_sub edges (Z.of_nat i)) ∧
    Forall (λ tr, ∃ b, 1 ≤ b ≤ 6 ∧ et_width tr = ((1 # 2) * inject_Z (Z.of_nat b) + (1 # 10))%Q)
      (fig_edges fig).
Proof.
  intros Htab Hne. set (sub := node_sub nodes (Z.of_nat i)). set (esub := snd <$> edge_sub edges (Z.of_nat i)).
  assert (∀ e, e ∈ esub → ∀ x, x = er_source e ∨ x = er_target e → ∃ r, r ∈ sub ∧ nr_node r = x)
    as Hends by (intros e ([lab e'] & -> & Hp)%list_elem_of_fmap x Hx; by eapply Consistency.pipeline_edge_ends).
  destruct (mapM_result_ok (λ b, bin_trace sub b (filter (λ e, edge_bin esub e = b) esub))
              (sort_unique (edge_bin esub <$> esub))) as [ys Hys].
  { intros b _. destruct (bin_trace_ok sub b (filter (λ e, edge_bin esub e = b) esub)) as (o & Ho & _);
      [intros e [_ He]%list_elem_of_filter; by apply Hends|by exists o]. }
  pose proof (mapM_result_Forall2 _ _ _ Hys) as HF.
  unfold plot_subgraph. rewrite decide_False by (intros Hl%nil_length_inv; done).
  eexists; split; [by rewrite Hys|]. cbn [fig_edges]. split.
  - rewrite sum_trace_points, (sum_list_Forall2 trace_points
      (λ b, 3 * length (filter (λ e, edge_bin esub e = b) esub)) _ _ _ HF).
    + rewrite <-(length_fmap snd (edge_sub edges (Z.of_nat i))). fold esub.
      rewrite <-sum_length_partition. generalize (sort_unique (edge_bin esub <$> esub)). intros ks.
      induction ks as [|k ks IH]; [done|]. rewrite !fmap_cons. cbn [sum_list]. rewrite IH. unfold id. lia.
    + intros b o Hbo. cbv beta in Hbo. destruct (bin_trace_ok sub b (filter (λ e, edge_bin esub e = b) esub)) as (o' & Ho' & Hp & _);
        [intros e [_ He]%list_elem_of_filter; by apply Hends|]. congruence.
  - apply Forall_forall. intros tr (o & Ho & Hid)%list_elem_of_omap. unfold id in Hid. subst o.
    apply list_elem_of_lookup in Ho as [k Hk]. destruct (Forall2_lookup_r _ _ _ k _ HF Hk) as (b & Hb & Hbo).
    destruct (bin_trace_ok sub b (filter (λ e, edge_bin esub e = b) esub)) as (o' & Ho' & _ & Hw);
      [intros e [_ He]%list_elem_of_filter; by apply Hends|]. cbv beta in Hbo. rewrite Hbo in Ho'.
    injection Ho' as <-. exists b. split; [|by apply Hw].
    apply list_elem_of_lookup_2, elem_of_sort_unique, list_elem_of_fmap in Hb as (e & -> & He).
    by apply edge_bin_range.
Qed.

(** The empty group gives the empty figure, any other group a node trace
    of its rows, white. *)
Lemma plot_subgraph_nodes sub esub fig :
  plot_subgraph sub esub = inr fig →
  (sub = [] ∧ fig = mk_figure [] None) ∨ (sub ≠ [] ∧ fig_nodes fig = Some (make_node_trace sub)).
Proof.
  unfold plot_subgraph. case_decide as Hl.
  - intros [= <-]. left. split; [by apply nil_length_inv|done].
  - destruct (mapM _ _) as [e|ys]; [done|]. intros [= <-]. right.
    split; [by intros ->|done].
Qed.

(** On the pipeline's tables the figure of every group, including the
    empty group of a negative index, is drawn without an exception. *)
Lemma plot_group_ok `{Services} nc ec rows nodes edges idx :
  blast_to_graph_tables nc ec rows = inr (nodes, edges) →
  ∃ fig, plot_subgraph (node_sub nodes idx) (snd <$> edge_sub edges idx) = inr fig.
Proof.
  intros Htab. destruct (decide (node_sub nodes idx = [])) as [He|Hne].
  { rewrite He. by eexists. }
  destruct (decide (0 ≤ idx)%Z) as [Hi|Hi].
  - rewrite <-(Z2Nat.id idx) in Hne |- * by done.
    destruct (plot_group_edges_ok nc ec rows nodes edges (Z.to_nat idx) Htab Hne) as (fig & Hf & _). eauto.
  - exfalso. apply Hne, node_sub_negative. lia.
Qed.

(** C35: On the tables the pipeline writes, the figure of a group never
    raises: both ends of every edge are rows of the group.  Its line
    traces draw every edge of the group exactly once (two positions and
    a gap each), and every trace has the width [0.5 * bin + 0.1] of a
    bin between 1 and 6. *)
Theorem plot_group_edges `{Services} nc ec rows nodes edges i :
  blast_to_graph_tables nc ec rows = inr (nodes, edges) →
  node_sub nodes (Z.of_nat i) ≠ [] →
  ∃ fig, plot_subgraph (node_sub nodes (Z.of_nat i)) (snd <$> edge_sub edges (Z.of_nat i)) = inr fig ∧
    sum_list ((λ tr, length (et_x tr)) <$> fig_edges fig) = 3 * length (edge_sub edges (Z.of_nat i)) ∧
    Forall (λ tr, ∃ b, 1 ≤ b ≤ 6 ∧ et_width tr = ((1 # 2) * inject_Z (Z.of_nat b) + (1 # 10))%Q)
      (fig_edges fig).
Proof. apply plot_group_edges_ok. Qed.


(** Witness of C35 on group 0 of the example pipeline: the group is not
    empty and its figure has one edge trace per occupied bin. *)
Lemma plot_group_edges_witness :
  node_sub Pipeline.ex_tables.1 (Z.of_nat 0) ≠ [] ∧
  ∃ fig, plot_subgraph (node_sub Pipeline.ex_tables.1 (Z.of_nat 0))
           (snd <$> edge_sub Pipeline.ex_tables.2 (Z.of_nat 0)) = inr fig ∧
    sum_list ((λ tr, length (et_x tr)) <$> fig_edges fig) = 3 * length (edge_sub Pipeline.ex_tables.2 (Z.of_nat 0)) ∧
    Forall (λ tr, ∃ b, 1 ≤ b ≤ 6 ∧ et_width tr = ((1 # 2) * inject_Z (Z.of_nat b) + (1 # 10))%Q)
      (fig_edges fig).
Proof.
  split; [vm_compute; discriminate|].
  refine (plot_group_edges HitFilter.Cqacc HitFilter.Csacc Pipeline.ex_hits
    Pipeline.ex_tables.1 Pipeline.ex_tables.2 0 _ _); vm_compute; [reflexivity|discriminate].
Defined.

End Plot.
