(* ===== verification/App.v ===== *)
(** * App: the Dash application with its callbacks wired together

    Models how src/app.py connects its callbacks.
    - The page holds the properties the callbacks read and write: the
      span [subgraph-index], the figure [fig] with its [clickData] and
      [hoverData], the store [graph-data], the table [edge_table] with its
      [active_cell], and the text [clicked_node].
    - The app starts from the layout of lines 20-124: the plot of group 0
      (line 28), the span [min(1, num_subgraphs)] (line 43) and the
      maximum (line 45).
    - A user event sets one input property, and Dash then runs every
      callback that has that property as an [Input] (the decorators of
      lines 141-148, 245-249, 280-284, 326-329 and 338-346), one after
      the other.
    - An exception in a callback leaves that callback's outputs as they
      were and is reported.  The properties already set stay set, and so
      do the outputs of the other callbacks.

    Modelling choices about Dash itself, which is not part of src/:
    - When [choose_subgraph] sets the span, [clickData] and [hoverData],
      [update_graph_data] runs once, and the first prop it sees as
      triggered is the span (its first output).
    - Setting [active_cell] from [update_graph_data] does not run that
      callback again: Dash does not re-run a callback on its own output.
    - The initial call Dash makes when the page loads is not modelled.
      The model starts from the layout's values. *)

From S2P Require Import Prelude HitFilter OverlapEdges Graph Pipeline Display Viewer Consistency Panels Plot.
From Stdlib Require Import ZArith.

Module App.
Import Pipeline Viewer Panels Plot.

(** ** The page *)

(** The component properties the callbacks use.  The table's
    [active_cell] is kept as its [row_id], which is all line 181 reads. *)
Record app := mk_app {
  a_index : Z;                                          (* subgraph-index.children *)
  a_maxindex : Z;                                       (* subgraph-maxindex.children *)
  a_click : option (list Z);                            (* fig.clickData *)
  a_hover : option (list Z);                            (* fig.hoverData *)
  a_cell : option nat;                                  (* edge_table.active_cell *)
  a_store : option graph_data;                          (* graph-data.data *)
  a_figure : figure;                                    (* fig.figure *)
  a_table : option (list table_record * list (nat * nat)); (* edge_table.data, selected_cells *)
  a_clicked : string                                    (* clicked_node.children *)
}.

(** Lines 15-45: the tables are loaded, the span shows
    [min(1, num_subgraphs)] of [num_subgraphs], and the figure is the
    plot of group 0.  The store and the table start empty (lines 21 and
    91) and the clicked-node text starts as [""] (line 64).  Lines 15
    and 28 run when the module is loaded, so an exception there stops
    the app from starting. *)
Definition app_init (nodes : list node_row) (edges : list edge_row) : result app :=
  n ← num_subgraphs nodes;
  fig ← plot_subgraph (node_sub nodes 0) (snd <$> edge_sub edges 0);
  mret (mk_app (initial_index n) n None None None None fig None "").

(** The user's actions: a button press (its [n_clicks]), a click or a
    hover on the figure (plotly's point data, read as in
    [get_point_index]), and a click on a cell of the neighbour table,
    which carries the [id] of the cell's row. *)
Inductive event :=
  | Press (b : button)
  | ClickFig (pd : option (list Z))
  | HoverFig (pd : option (list Z))
  | SelectCell (row_id : nat).

(** ** Outputs of the callbacks *)

(** The node trace with new marker colours. *)
Definition with_color (nt : node_trace) (c : list color) : node_trace :=
  mk_node_trace (nt_x nt) (nt_y nt) (nt_text nt) (nt_size nt) (nt_linewidth nt) c (nt_linecolor nt).

(** Line 264: [figure['data'][-1]['marker']['color'] = ...] on the
    figure the page shows.  The last trace is the node trace when there
    is one.  The empty figure has no trace ([IndexError]).  An edge
    trace has no [marker] ([KeyError]). *)
Definition set_marker_color (c : list color) (fig : figure) : result figure :=
  match fig_nodes fig, fig_edges fig with
  | Some nt, _ => mret (mk_figure (fig_edges fig) (Some (with_color nt c)))
  | None, [] => throw IndexError
  | None, _ :: _ => throw (KeyError "marker")
  end.

(** Lines 257, 264-275 and 277: the figure Dash shows after
    [update_figure] returns.  It is a new plot, the shown figure
    recoloured, or the shown figure unchanged.  The source looks up the
    node trace (line 264) before it computes the colours, while the
    model computes the colours first.  The two orders differ only in
    which exception is reported when both steps fail. *)
Definition new_figure (fu : figure_update) (fig : figure) : result figure :=
  match fu with
  | Replot sub esub => plot_subgraph sub (snd <$> esub)
  | Recolor c => set_marker_color c fig
  | FigNoUpdate => mret fig
  end.

(** A callback's exception leaves its output as it was. *)
Definition catch {A} (r : result A) (old : A) : A * list py_error :=
  match r with inr x => (x, []) | inl e => (old, [e]) end.

(** Lines 245-249: [update_figure] runs on the new store, with the
    figure the page shows as its [State]. *)
Definition run_update_figure (nodes : list node_row) (edges : list edge_row) (gd : graph_data) (a : app) :
    figure * list py_error :=
  catch (fu ← update_figure nodes edges gd; new_figure fu (a_figure a)) (a_figure a).

(** Lines 280-284: [update_edge_table] runs on the new store and sets the
    table's data and selected cells. *)
Definition run_update_edge_table (nodes : list node_row) (edges : list edge_row) (gd : graph_data) (a : app) :
    option (list table_record * list (nat * nat)) * list py_error :=
  catch (t ← update_edge_table nodes edges gd; mret (Some t)) (a_table a).

(** Lines 326-329: [update_clicked_node_info] runs on the new store and
    sets the text under the figure. *)
Definition run_update_clicked_node_info (nodes : list node_row) (gd : graph_data) (a : app) :
    string * list py_error :=
  catch (update_clicked_node_info nodes gd) (a_clicked a).

(** Writing the store runs the three callbacks that read it.  The same
    callback of [update_graph_data] also resets [active_cell] to [None]
    (lines 143 and 151). *)
Definition on_store (nodes : list node_row) (edges : list edge_row) (gd : graph_data) (a : app) :
    app * list py_error :=
  let '(fig, e1) := run_update_figure nodes edges gd a in
  let '(tbl, e2) := run_update_edge_table nodes edges gd a in
  let '(txt, e3) := run_update_clicked_node_info nodes gd a in
  (mk_app (a_index a) (a_maxindex a) (a_click a) (a_hover a) None (Some gd) fig tbl txt,
   e1 ++ e2 ++ e3).

(** Lines 141-148: [update_graph_data] on the page's current inputs.
    Its [no_update] changes nothing. *)
Definition on_graph_inputs (nodes : list node_row) (edges : list edge_row) (t : trigger) (a : app) :
    app * list py_error :=
  match update_graph_data nodes edges t (a_index a) (a_click a) (a_hover a) (a_cell a) with
  | inl e => (a, [e])
  | inr None => (a, [])
  | inr (Some gd) => on_store nodes edges gd a
  end.

(** ** Events *)

Definition set_nav (a : app) (i : Z) : app :=
  mk_app i (a_maxindex a) None None (a_cell a) (a_store a) (a_figure a) (a_table a) (a_clicked a).
Definition set_click (a : app) (pd : option (list Z)) : app :=
  mk_app (a_index a) (a_maxindex a) pd (a_hover a) (a_cell a) (a_store a) (a_figure a) (a_table a) (a_clicked a).
Definition set_hover (a : app) (pd : option (list Z)) : app :=
  mk_app (a_index a) (a_maxindex a) (a_click a) pd (a_cell a) (a_store a) (a_figure a) (a_table a) (a_clicked a).
Definition set_cell (a : app) (row_id : nat) : app :=
  mk_app (a_index a) (a_maxindex a) (a_click a) (a_hover a) (Some row_id) (a_store a) (a_figure a) (a_table a) (a_clicked a).

(** One user event and the callbacks it sets off, with the exceptions
    they raise.  A button runs [choose_subgraph] (lines 338-354).  When
    that callback updates the span and clears the point data, the
    update runs [update_graph_data] with the span as trigger.  The
    other events run [update_graph_data] directly. *)
Definition app_step (nodes : list node_row) (edges : list edge_row) (a : app) (ev : event) :
    app * list py_error :=
  match ev with
  | Press b =>
      match choose_subgraph (Some b) (a_index a) (a_maxindex a) with
      | Some i => on_graph_inputs nodes edges TSubgraphIndex (set_nav a i)
      | None => (a, [])
      end
  | ClickFig pd => on_graph_inputs nodes edges TFigClick (set_click a pd)
  | HoverFig pd => on_graph_inputs nodes edges TFigHover (set_hover a pd)
  | SelectCell r => on_graph_inputs nodes edges TEdgeTable (set_cell a r)
  end.

(** The pages a session reaches: the start page, then any sequence of
    events, whether or not a callback raised on the way. *)
Inductive app_reachable (nodes : list node_row) (edges : list edge_row) : app → Prop :=
  | reach_init a : app_init nodes edges = inr a → app_reachable nodes edges a
  | reach_step a ev : app_reachable nodes edges a → app_reachable nodes edges (app_step nodes edges a ev).1.

(** ** The invariant *)

(** The figure shows group [idx]: it is that group's plot, maybe with
    one colour per row on its node trace. *)
Definition shows_group (nodes : list node_row) (edges : list edge_row) (idx : Z) (fig : figure) : Prop :=
  ∃ fig0, plot_subgraph (node_sub nodes idx) (snd <$> edge_sub edges idx) = inr fig0 ∧
    (fig = fig0 ∨ ∃ c, length c = length (node_sub nodes idx) ∧ set_marker_color c fig0 = inr fig).

(** The span is within the groups, the figure shows the group of the
    span, and the store names that group and passes [store_ok]. *)
Definition app_inv (nodes : list node_row) (edges : list edge_row) (a : app) : Prop :=
  ∃ m, num_subgraphs nodes = inr m ∧ a_maxindex a = m ∧ (Z.min 1 m ≤ a_index a ≤ m)%Z ∧
    shows_group nodes edges (a_index a - 1) (a_figure a) ∧
    ∀ gd, a_store a = Some gd → gd_subgraph_index gd = (a_index a - 1)%Z ∧ store_ok nodes edges gd.

(** The store is a value [update_graph_data] computes for the span the
    page shows, and the table is what [update_edge_table] computes from
    that store. *)
Definition page_ok (nodes : list node_row) (edges : list edge_row) (a : app) : Prop :=
  (∀ gd, a_store a = Some gd →
     ∃ t cd hd ac, update_graph_data nodes edges t (a_index a) cd hd ac = inr (Some gd)) ∧
  (∀ tb, a_table a = Some tb → ∃ gd, a_store a = Some gd ∧ update_edge_table nodes edges gd = inr tb).

(** The point a figure event makes [update_graph_data] read is at or
    beyond the rows of the shown group.  For a click it is the clicked
    point.  For a hover it is the point of the last click, which
    [clickData] still holds (line 173). *)
Definition reads_missing_row (nodes : list node_row) (a : app) (ev : event) : Prop :=
  match ev with
  | ClickFig pd => (Z.of_nat (length (node_sub nodes (a_index a - 1))) ≤ get_point_index pd)%Z
  | HoverFig _ => (Z.of_nat (length (node_sub nodes (a_index a - 1))) ≤ get_point_index (a_click a))%Z
  | _ => False
  end.

(** The navigation state of a page (Viewer's [nav]): the span and the
    figure's point data. *)
Definition nav_of (a : app) : nav := mk_nav (a_index a) (a_click a) (a_hover a).

(** The navigation model's step for one event: a button is
    [choose_subgraph_step], a click or a hover replaces its point data,
    and a table cell leaves the state alone. *)
Definition nav_event (maxidx : Z) (ev : event) (s : nav) : nav :=
  match ev with
  | Press b => choose_subgraph_step (Some b) maxidx s
  | ClickFig pd => mk_nav (n_index s) pd (n_hover s)
  | HoverFig pd => mk_nav (n_index s) (n_click s) pd
  | SelectCell _ => s
  end.

(** A session: the events in order, the page after them and every
    exception raised on the way. *)
Fixpoint run (nodes : list node_row) (edges : list edge_row) (a : app) (evs : list event) :
    app * list py_error :=
  match evs with
  | [] => (a, [])
  | ev :: evs =>
      let r1 := app_step nodes edges a ev in
      let r2 := run nodes edges r1.1 evs in
      (r2.1, r1.2 ++ r2.2)
  end.

(** ** An example session *)

(** Hits of equal score on a path a - b - c - d give one group of four
    rows and three edges of equal weight.  The three edges fall in one
    bin, so the figure has one edge trace of nine points before the
    node trace. *)
Definition ex_path_hits : list HitFilter.hit :=
  [HitFilter.mk_hit "a" "t1" 100 0 "s"; HitFilter.mk_hit "b" "t1" 100 0 "s";
   HitFilter.mk_hit "b" "t2" 100 0 "s"; HitFilter.mk_hit "c" "t2" 100 0 "s";
   HitFilter.mk_hit "c" "t3" 100 0 "s"; HitFilter.mk_hit "d" "t3" 100 0 "s"].

Definition ex_path : list node_row * list edge_row :=
  match blast_to_graph_tables HitFilter.Cqacc HitFilter.Csacc ex_path_hits with
  | inr t => t | inl _ => ([], []) end.

Definition ex_start : app :=
  match app_init ex_path.1 ex_path.2 with
  | inr a => a | inl _ => mk_app 0 0 None None None None (mk_figure [] None) None "" end.

(** The page after a click on the sixth point of the edge trace. *)
Definition ex_clicked : app := (app_step ex_path.1 ex_path.2 ex_start (ClickFig (Some [5%Z]))).1.

(** The page after a click on node b (row 1): its neighbours a and c are
    listed in the table. *)
Definition ex_node_b : app := (app_step ex_path.1 ex_path.2 ex_start (ClickFig (Some [1%Z]))).1.

Definition ex_recs : list table_record :=
  match a_table ex_node_b with Some (rs, _) => rs | None => [] end.

Definition ex_sel : list (nat * nat) :=
  match a_table ex_node_b with Some (_, sel) => sel | None => [] end.

Definition ex_row : table_record := default (mk_record 0 "" "" "") (head ex_recs).

(** ** Lemmas on the outputs *)

Lemma catch_inv {A} (P : A → Prop) (r : result A) old :
  P old → (∀ x, r = inr x → P x) → P (catch r old).1.
Proof. destruct r; cbn; auto. Qed.

Lemma catch_nil {A} (r : result A) old : (catch r old).2 = [] ↔ ∃ x, r = inr x.
Proof. destruct r; cbn; naive_solver. Qed.

Lemma plot_subgraph_nil esub : plot_subgraph [] esub = inr (mk_figure [] None).
Proof. done. Qed.

(** Recolouring a recoloured figure recolours its plot. *)
Lemma set_marker_color_twice c c' fig0 fig :
  set_marker_color c fig0 = inr fig → set_marker_color c' fig = set_marker_color c' fig0.
Proof.
  unfold set_marker_color. destruct (fig_nodes fig0) as [nt|]; [|by destruct (fig_edges fig0)].
  intros [= <-]. done.
Qed.

Lemma shows_group_recolor nodes edges idx fig c fig' :
  shows_group nodes edges idx fig → length c = length (node_sub nodes idx) →
  set_marker_color c fig = inr fig' → shows_group nodes edges idx fig'.
Proof.
  intros (fig0 & Hp & Hfig) Hc Hs. exists fig0. split; [done|]. right. exists c. split; [done|].
  destruct Hfig as [->|(c0 & _ & Hs0)]; [done|]. by rewrite <-(set_marker_color_twice c0 c fig0 fig).
Qed.

(** A figure that shows a non-empty group has a node trace. *)
Lemma shows_group_nodes nodes edges idx fig :
  shows_group nodes edges idx fig → node_sub nodes idx ≠ [] → ∃ nt, fig_nodes fig = Some nt.
Proof.
  intros (fig0 & Hp & Hfig) Hne.
  destruct (plot_subgraph_nodes _ _ _ Hp) as [[? _]|[_ Hn]]; [done|].
  destruct Hfig as [->|(c & _ & Hs)]; [eauto|].
  unfold set_marker_color in Hs. rewrite Hn in Hs. injection Hs as <-. cbn. eauto.
Qed.

Lemma set_marker_color_ok c fig nt : fig_nodes fig = Some nt → ∃ fig', set_marker_color c fig = inr fig'.
Proof. unfold set_marker_color. intros ->. by eexists. Qed.

(** A store with a clicked node names a non-empty group. *)
Lemma store_ok_current_nonempty nodes edges gd ci cid :
  store_ok nodes edges gd → gd_current gd = Some (ci, cid) → node_sub nodes (gd_subgraph_index gd) ≠ [].
Proof. intros [Hc _] Hcur. destruct (Hc ci cid Hcur) as ((r & Hr & _) & _). intros E. by rewrite E in Hr. Qed.


(** ** The app refines the navigation model *)

(** The callbacks after the span leave the span, the point data and the
    maximum alone. *)
Lemma on_store_nav nodes edges gd a :
  nav_of (on_store nodes edges gd a).1 = nav_of a ∧ a_maxindex (on_store nodes edges gd a).1 = a_maxindex a.
Proof. unfold on_store. by repeat case_match. Qed.

Lemma on_graph_inputs_nav nodes edges t a :
  nav_of (on_graph_inputs nodes edges t a).1 = nav_of a ∧
  a_maxindex (on_graph_inputs nodes edges t a).1 = a_maxindex a.
Proof. unfold on_graph_inputs. destruct (update_graph_data _ _ _ _ _ _ _) as [|[gd|]]; [done|apply on_store_nav|done]. Qed.

(** Each event moves the navigation state as [Viewer]'s model does: a
    button is [choose_subgraph_step], a click or hover sets its point
    data, a table cell leaves it. *)
Lemma app_step_nav nodes edges a ev :
  a_maxindex (app_step nodes edges a ev).1 = a_maxindex a ∧
  nav_of (app_step nodes edges a ev).1 = nav_event (a_maxindex a) ev (nav_of a).
Proof.
  destruct ev as [b|pd|pd|r]; cbn [app_step nav_event];
    [unfold choose_subgraph_step; cbn [n_index]; destruct (choose_subgraph _ _ _) as [i|]; [|done]|..];
    match goal with |- context [on_graph_inputs ?n ?e ?t ?x] =>
      destruct (on_graph_inputs_nav n e t x) as [-> ->] end; done.
Qed.

Lemma app_reachable_nav_ok nodes edges m a :
  num_subgraphs nodes = inr m → app_reachable nodes edges a →
  a_maxindex a = m ∧ nav_reachable m (nav_of a).
Proof.
  intros Hm. induction 1 as [a Ha|a ev _ [Hmax IH]].
  - unfold app_init in Ha. rewrite Hm, bind_inr in Ha. inv_result. subst a. split; [done|]. constructor.
  - destruct (app_step_nav nodes edges a ev) as [-> Hnav]. split; [done|]. rewrite Hnav, Hmax.
    destruct ev as [b|pd|pd|r]; cbn [nav_event].
    + by constructor.
    + by apply (nav_click m (nav_of a)).
    + by apply (nav_hover m (nav_of a)).
    + done.
Qed.

Lemma run_reachable nodes edges a evs :
  app_reachable nodes edges a → app_reachable nodes edges (run nodes edges a evs).1.
Proof. revert a. induction evs as [|ev evs IH]; intros a Ha; [done|]. cbn. by apply IH, reach_step. Qed.

(** Pressing one button [k] times moves the span as [k] steps of the
    navigation model. *)
Lemma run_presses_nav nodes edges a b k :
  a_maxindex (run nodes edges a (replicate k (Press b))).1 = a_maxindex a ∧
  nav_of (run nodes edges a (replicate k (Press b))).1 =
    Nat.iter k (choose_subgraph_step (Some b) (a_maxindex a)) (nav_of a).
Proof.
  revert a. induction k as [|k IH]; intros a; [done|]. cbn [replicate run fst].
  destruct (app_step_nav nodes edges a (Press b)) as [Hm Hn].
  destruct (IH (app_step nodes edges a (Press b)).1) as [-> ->]. rewrite Hm, Hn.
  split; [done|]. by rewrite Nat.iter_succ_r.
Qed.

(** ** The store and the table follow the page *)

Lemma on_store_store nodes edges gd a : a_store (on_store nodes edges gd a).1 = Some gd.
Proof. unfold on_store. by repeat case_match. Qed.

Lemma on_store_page_ok nodes edges t gd a :
  update_graph_data nodes edges t (a_index a) (a_click a) (a_hover a) (a_cell a) = inr (Some gd) →
  page_ok nodes edges (on_store nodes edges gd a).1.
Proof.
  intros Hgd. pose proof (update_graph_data_store_ok _ _ _ _ _ _ _ _ Hgd) as Hok.
  destruct (update_edge_table_ok _ _ _ Hok) as [tb Htb].
  unfold on_store, run_update_edge_table. rewrite Htb, bind_inr.
  destruct (run_update_figure nodes edges gd a) as [fig e1].
  destruct (run_update_clicked_node_info nodes gd a) as [txt e3]. cbn.
  split; intros ? [= <-]; eauto 10.
Qed.

Lemma on_graph_inputs_page_ok nodes edges t a :
  (t ≠ TSubgraphIndex → page_ok nodes edges a) → page_ok nodes edges (on_graph_inputs nodes edges t a).1.
Proof.
  intros Ha. unfold on_graph_inputs.
  destruct (update_graph_data _ _ _ _ _ _ _) as [e|[gd|]] eqn:Hgd.
  - apply Ha. intros ->. by apply update_graph_data_inl in Hgd as [? _].
  - by eapply on_store_page_ok.
  - apply Ha. intros ->. unfold update_graph_data in Hgd. by rewrite decide_True in Hgd.
Qed.

(** On any tables, the store of a reachable page was computed for its
    span and its table from its store. *)
Lemma app_reachable_page_ok nodes edges a : app_reachable nodes edges a → page_ok nodes edges a.
Proof.
  induction 1 as [a Ha|a ev _ IH].
  - unfold app_init in Ha. inv_result. subst a. split; by intros ? [=].
  - destruct ev as [b|pd|pd|r]; cbn [app_step]; [destruct (choose_subgraph _ _ _)|..];
      try apply on_graph_inputs_page_ok; try (intros _; exact IH); [|done].
    by intros [].
Qed.

(** ** A session on the pipeline's tables *)

Section Session.
Context `{Services} (nc ec : HitFilter.column) (rows : list HitFilter.hit).
Context (nodes : list node_row) (edges : list edge_row).
Hypothesis Htab : blast_to_graph_tables nc ec rows = inr (nodes, edges).

Lemma app_init_inv a : app_init nodes edges = inr a → app_inv nodes edges a.
Proof.
  unfold app_init. intros Ha. inv_result. subst a. exists x. cbn.
  pose proof (num_subgraphs_nonneg _ _ Hm) as Hx. unfold initial_index.
  do 2 (split; [done|]). split; [lia|]. split; [|done].
  destruct (decide (x = 0)%Z) as [->|Hx0].
  - apply num_subgraphs_zero in Hm as ->. change (node_sub [] 0) with (@nil node_row) in Hm0.
    rewrite plot_subgraph_nil in Hm0. injection Hm0 as <-.
    exists (mk_figure [] None). change (node_sub [] (Z.min 1 0 - 1)) with (@nil node_row).
    split; [apply plot_subgraph_nil|by left].
  - rewrite Z.min_l by lia. exists x0. split; [done|by left].
Qed.

(** Writing a store that [update_graph_data] computed keeps the
    invariant and raises nothing.  On a group change the figure is
    replotted; otherwise the figure must already show the group. *)
Lemma on_store_ok t a gd m :
  num_subgraphs nodes = inr m → a_maxindex a = m → (Z.min 1 m ≤ a_index a ≤ m)%Z →
  update_graph_data nodes edges t (a_index a) (a_click a) (a_hover a) (a_cell a) = inr (Some gd) →
  (t ≠ TSubgraphIndex → shows_group nodes edges (a_index a - 1) (a_figure a)) →
  app_inv nodes edges (on_store nodes edges gd a).1 ∧ (on_store nodes edges gd a).2 = [].
Proof.
  intros Hm Hmax Hb Hgd Hshow.
  destruct (update_graph_data_index _ _ _ _ _ _ _ _ Hgd) as [Hidx Ht].
  pose proof (update_graph_data_store_ok _ _ _ _ _ _ _ _ Hgd) as Hok.
  destruct (update_figure_ok _ _ _ Hok) as [fu Hfu].
  destruct (update_edge_table_ok _ _ _ Hok) as [tbl Htbl].
  destruct (update_clicked_node_info_ok _ _ _ Hok) as [txt Htxt].
  assert (∃ fig', new_figure fu (a_figure a) = inr fig' ∧
            shows_group nodes edges (a_index a - 1) fig') as (fig' & Hnf & Hsh).
  { destruct (update_figure_cases _ _ _ _ Hfu) as [[_ ->]|[Ht' [->|(c & ci & cid & -> & Hcur & Hc)]]].
    - cbn [new_figure]. rewrite Hidx.
      destruct (plot_group_ok nc ec rows nodes edges (a_index a - 1) Htab) as [fig0 Hp].
      exists fig0. split; [done|]. exists fig0. split; [done|by left].
    - rewrite Ht in Ht'. exists (a_figure a). split; [done|]. by apply Hshow.
    - rewrite Ht in Ht'. pose proof (Hshow Ht') as Hs. rewrite Hidx in Hc.
      destruct (shows_group_nodes _ _ _ _ Hs) as [nt Hnt];
        [rewrite <-Hidx; by eapply store_ok_current_nonempty|].
      destruct (set_marker_color_ok c _ _ Hnt) as [fig' Hf'].
      exists fig'. split; [done|]. by eapply shows_group_recolor. }
  unfold on_store, run_update_figure, run_update_edge_table, run_update_clicked_node_info.
  rewrite Hfu, bind_inr, Hnf, Htbl, bind_inr, Htxt. cbn.
  split; [|done]. exists m. cbn. do 4 (split; [done|]). intros gd' [= <-]. done.
Qed.

Lemma on_graph_inputs_ok t a m :
  num_subgraphs nodes = inr m → a_maxindex a = m → (Z.min 1 m ≤ a_index a ≤ m)%Z →
  (t ≠ TSubgraphIndex → app_inv nodes edges a) →
  app_inv nodes edges (on_graph_inputs nodes edges t a).1 ∧
  (on_graph_inputs nodes edges t a).2 =
    match update_graph_data nodes edges t (a_index a) (a_click a) (a_hover a) (a_cell a) with
    | inl e => [e] | inr _ => [] end.
Proof.
  intros Hm Hmax Hb Ha. unfold on_graph_inputs.
  destruct (update_graph_data _ _ _ _ _ _ _) as [e|[gd|]] eqn:Hgd.
  - split; [|done]. apply Ha. intros ->. by apply update_graph_data_inl in Hgd as [? _].
  - apply (on_store_ok t a gd m); try done. intros Ht. by destruct (Ha Ht) as (? & _ & _ & _ & ? & _).
  - split; [|done]. apply Ha. intros ->. unfold update_graph_data in Hgd. by rewrite decide_True in Hgd.
Qed.

Lemma app_step_ok a ev :
  app_inv nodes edges a →
  app_inv nodes edges (app_step nodes edges a ev).1 ∧
  (app_step nodes edges a ev).2 =
    match ev with
    | Press _ => []
    | ClickFig pd => match update_graph_data nodes edges TFigClick (a_index a) pd (a_hover a) (a_cell a) with
                     | inl e => [e] | inr _ => [] end
    | HoverFig pd => match update_graph_data nodes edges TFigHover (a_index a) (a_click a) pd (a_cell a) with
                     | inl e => [e] | inr _ => [] end
    | SelectCell r => match update_graph_data nodes edges TEdgeTable (a_index a) (a_click a) (a_hover a) (Some r) with
                      | inl e => [e] | inr _ => [] end
    end.
Proof.
  intros Ha. pose proof Ha as (m & Hm & Hmax & Hb & _).
  destruct ev as [b|pd|pd|r]; cbn [app_step].
  2: apply (on_graph_inputs_ok _ (set_click a pd) m); by try (intros _; exact Ha).
  2: apply (on_graph_inputs_ok _ (set_hover a pd) m); by try (intros _; exact Ha).
  2: apply (on_graph_inputs_ok _ (set_cell a r) m); by try (intros _; exact Ha).
  destruct (choose_subgraph _ _ _) as [i|] eqn:Hc; [|done].
  destruct (on_graph_inputs_ok TSubgraphIndex (set_nav a i) m) as [Hi ->]; try done.
  cbn. rewrite Hmax in Hc. eapply choose_subgraph_bounds; [by eapply num_subgraphs_nonneg|done|done].
Qed.

Lemma app_reachable_inv_ok a : app_reachable nodes edges a → app_inv nodes edges a.
Proof. induction 1 as [a Ha|a ev _ IH]; [by apply app_init_inv|by apply app_step_ok]. Qed.

Lemma app_step_errors_ok a ev :
  app_reachable nodes edges a →
  ((app_step nodes edges a ev).2 = [IndexError] ∧ reads_missing_row nodes a ev) ∨
  ((app_step nodes edges a ev).2 = [] ∧ ¬ reads_missing_row nodes a ev).
Proof.
  intros Hr%app_reachable_inv_ok. destruct (app_step_ok a ev Hr) as [_ ->].
  unfold reads_missing_row. destruct ev as [b|pd|pd|r]; [right; naive_solver| | |];
    (destruct (update_graph_data _ _ _ _ _ _ _) as [e|o] eqn:E;
     [apply update_graph_data_inl in E; naive_solver|]); [..|right; naive_solver];
    right; (split; [done|]); intros Hle;
    rewrite (proj2 (update_graph_data_inl _ _ _ _ _ _ _ IndexError)) in E; naive_solver.
Qed.

(** Button presses never raise. *)
Lemma run_presses_errors a b k :
  app_reachable nodes edges a → (run nodes edges a (replicate k (Press b))).2 = [].
Proof.
  revert a. induction k as [|k IH]; intros a Ha; [done|]. cbn [replicate run snd].
  destruct (app_step_ok a (Press b) (app_reachable_inv_ok a Ha)) as [_ ->].
  rewrite IH by (by apply reach_step). done.
Qed.

(** Selecting a row of the neighbour table selects the neighbour it
    lists, at its point of the figure. *)
Lemma app_table_select_ok a recs sel r :
  app_reachable nodes edges a → a_table a = Some (recs, sel) → r ∈ recs →
  ∃ gd0 nbs nb gd, a_store a = Some gd0 ∧ gd_neighbors gd0 = Some nbs ∧ nb ∈ nbs ∧
    nb_node_id nb = rec_id r ∧
    (app_step nodes edges a (SelectCell (rec_id r))).2 = [] ∧
    a_store (app_step nodes edges a (SelectCell (rec_id r))).1 = Some gd ∧
    gd_current gd = Some (nb_point_index nb, nb_node_id nb).
Proof.
  intros Ha Hta Hr. destruct (app_reachable_page_ok nodes edges a Ha) as [Hst Htb].
  destruct (Htb _ Hta) as (gd0 & Hgd0 & Hupd).
  destruct (update_edge_table_ids _ _ _ _ _ _ Hupd Hr) as (nbs & nb & Hnbs & Hnb & Hid).
  destruct (Hst gd0 Hgd0) as (t & cd & hd & ac & Hw).
  destruct (update_graph_data_neighbor_rows _ _ _ _ _ _ _ _ _ nb Hw Hnbs Hnb) as (row & Hrow & Hnode).
  assert (find_node_row (rec_id r) (node_sub nodes (a_index a - 1)) = Some (nb_point_index nb)) as Hf.
  { rewrite Hid, <-Hnode. apply find_node_row_NoDup; [|done].
    by apply (Consistency.pipeline_group_NoDup nc ec rows nodes edges). }
  destruct (update_graph_data_table_click nodes edges (a_index a) (a_click a) (a_hover a)
              (rec_id r) _ row Hf Hrow) as (gd & Hgd & Hcur).
  exists gd0, nbs, nb, gd. do 4 (split; [done|]). split.
  - destruct (app_step_errors_ok a (SelectCell (rec_id r)) Ha) as [[_ []]|[He _]]. exact He.
  - cbn [app_step]. unfold on_graph_inputs. cbn [set_cell a_index a_click a_hover a_cell].
    rewrite Hgd, on_store_store. split; [done|]. by rewrite Hcur, Hnode.
Qed.

End Session.

(** ** Properties *)

(** C17: In every page a session reaches from the start page on the
    pipeline's tables, whatever events came and whatever they raised,
    the span shows a group between [min(1, n)] and [n], the figure is
    the plot of that group (with one colour per row on its node trace
    once a node was selected), and the store names that group and only
    rows and edges that exist in it. *)
Theorem app_reachable_inv `{Services} nc ec rows nodes edges a :
  blast_to_graph_tables nc ec rows = inr (nodes, edges) →
  app_reachable nodes edges a → app_inv nodes edges a.
Proof. intros Htab. by apply app_reachable_inv_ok with nc ec rows. Qed.

(** C12: On the pipeline's tables, an event of a reachable page raises
    exactly when it is a figure event whose point index is at or beyond
    the shown group's rows.  It then raises one [IndexError], in
    [update_graph_data]; the redrawing callbacks never raise.  For a
    hover the index is the one of the last click, so after a click on a
    far edge point every hover raises until the next click or group
    change.  Buttons and table cells never raise. *)
Theorem app_step_errors `{Services} nc ec rows nodes edges a ev :
  blast_to_graph_tables nc ec rows = inr (nodes, edges) → app_reachable nodes edges a →
  ((app_step nodes edges a ev).2 = [IndexError] ∧ reads_missing_row nodes a ev) ∨
  ((app_step nodes edges a ev).2 = [] ∧ ¬ reads_missing_row nodes a ev).
Proof. intros Htab. by apply app_step_errors_ok with nc ec rows. Qed.

(** C31: Refinement by simulation.  The app simulates the navigation
    model step by step over a whole session, from any page and on any
    tables.  The span and the figure's point data after the events are
    what [nav_event] computes from those of the first page:
    - a button press is [choose_subgraph_step], which moves the span by
      one within [1, n] and clears both point data (lines 350-353);
    - a click or a hover replaces only its own point data;
    - a table cell changes neither.
    The maximum never changes.  A callback that moved the span on a
    click, or a press that kept [clickData], would break the
    statement. *)
Theorem app_nav_simulation nodes edges a evs :
  a_maxindex (run nodes edges a evs).1 = a_maxindex a ∧
  nav_of (run nodes edges a evs).1 = foldl (λ s ev, nav_event (a_maxindex a) ev s) (nav_of a) evs.
Proof.
  revert a. induction evs as [|ev evs IH]; intros a; [done|]. cbn [run fst foldl].
  destruct (app_step_nav nodes edges a ev) as [Hm Hn].
  destruct (IH (app_step nodes edges a ev).1) as [-> ->]. by rewrite Hm, Hn.
Qed.

(** C38: Liveness of the app.  On the pipeline's tables, from every
    reachable page, every group [j] between [min(1, n)] and [n] is
    shown after pressing one of the two buttons some number of times.
    No press raises on the way, and the page then shows the plot of
    group [j]. *)
Theorem app_liveness `{Services} nc ec rows nodes edges m a j :
  blast_to_graph_tables nc ec rows = inr (nodes, edges) → num_subgraphs nodes = inr m →
  app_reachable nodes edges a → (Z.min 1 m ≤ j ≤ m)%Z →
  ∃ b k, (run nodes edges a (replicate k (Press b))).2 = [] ∧
    a_index (run nodes edges a (replicate k (Press b))).1 = j ∧
    shows_group nodes edges (j - 1) (a_figure (run nodes edges a (replicate k (Press b))).1).
Proof.
  intros Htab Hm Ha Hj.
  destruct (app_reachable_nav_ok nodes edges m a Hm Ha) as [Hmax Hnav].
  destruct (nav_liveness nodes m (nav_of a) j Hm Hnav Hj) as [_ (b & k & Hk)].
  exists b, k. destruct (run_presses_nav nodes edges a b k) as [_ Hn].
  assert (a_index (run nodes edges a (replicate k (Press b))).1 = j) as Hi.
  { transitivity (n_index (nav_of (run nodes edges a (replicate k (Press b))).1)); [done|].
    by rewrite Hn, Hmax. }
  split; [by apply (run_presses_errors nc ec rows)|]. split; [done|].
  destruct (app_reachable_inv_ok nc ec rows nodes edges Htab _ (run_reachable _ _ _ (replicate k (Press b)) Ha))
    as (? & _ & _ & _ & Hs & _).
  by rewrite Hi in Hs.
Qed.

(** C2: Round trip between the neighbour table and the figure.  On the
    pipeline's tables, in a reachable page, every row of the neighbour
    table lists a stored neighbour by its node id.  A click on that row
    raises nothing and selects that neighbour at its figure point (its
    [point_index]).  This holds because node ids are distinct within a
    group (line 181 compares ids, lines 214-227 record positions). *)
Theorem app_table_select `{Services} nc ec rows nodes edges a recs sel r :
  blast_to_graph_tables nc ec rows = inr (nodes, edges) →
  app_reachable nodes edges a → a_table a = Some (recs, sel) → r ∈ recs →
  ∃ gd0 nbs nb gd, a_store a = Some gd0 ∧ gd_neighbors gd0 = Some nbs ∧ nb ∈ nbs ∧
    nb_node_id nb = rec_id r ∧
    (app_step nodes edges a (SelectCell (rec_id r))).2 = [] ∧
    a_store (app_step nodes edges a (SelectCell (rec_id r))).1 = Some gd ∧
    gd_current gd = Some (nb_point_index nb, nb_node_id nb).
Proof. intros Htab. by apply app_table_select_ok with nc ec rows. Qed.

Lemma ex_path_tables :
  blast_to_graph_tables HitFilter.Cqacc HitFilter.Csacc ex_path_hits = inr (ex_path.1, ex_path.2).
Proof. vm_compute. reflexivity. Qed.

Lemma ex_clicked_reachable : app_reachable ex_path.1 ex_path.2 ex_clicked.
Proof. apply reach_step, reach_init. vm_compute. reflexivity. Qed.

(** The page after the click on an edge point still satisfies the
    invariant. *)
Lemma app_reachable_inv_witness : app_inv ex_path.1 ex_path.2 ex_clicked.
Proof.
  exact (app_reachable_inv HitFilter.Cqacc HitFilter.Csacc ex_path_hits ex_path.1 ex_path.2 ex_clicked
           ex_path_tables ex_clicked_reachable).
Defined.

(** After the click on the sixth point of the edge trace, which is
    beyond the group's four rows, a hover on the first node raises. *)
Lemma app_step_errors_witness :
  (app_step ex_path.1 ex_path.2 ex_clicked (HoverFig (Some [0%Z]))).2 = [IndexError].
Proof.
  destruct (app_step_errors HitFilter.Cqacc HitFilter.Csacc ex_path_hits ex_path.1 ex_path.2 ex_clicked
              (HoverFig (Some [0%Z])) ex_path_tables ex_clicked_reachable) as [[He _]|[_ Hn]];
    [exact He|exfalso; apply Hn; vm_compute; discriminate].
Defined.



(** From the page after the click on an edge point, the single group is
    shown again by the button presses. *)
Lemma app_liveness_witness :
  ∃ b k, (run ex_path.1 ex_path.2 ex_clicked (replicate k (Press b))).2 = [] ∧
    a_index (run ex_path.1 ex_path.2 ex_clicked (replicate k (Press b))).1 = 1%Z ∧
    shows_group ex_path.1 ex_path.2 (1 - 1) (a_figure (run ex_path.1 ex_path.2 ex_clicked (replicate k (Press b))).1).
Proof.
  refine (app_liveness HitFilter.Cqacc HitFilter.Csacc ex_path_hits ex_path.1 ex_path.2 1 ex_clicked 1
            ex_path_tables _ ex_clicked_reachable _); [vm_compute; reflexivity|lia].
Defined.

(** After a click on node b, the first table row is its neighbour a;
    clicking it selects a at row 0 of the figure. *)
Lemma app_table_select_witness :
  ∃ gd0 nbs nb gd, a_store ex_node_b = Some gd0 ∧ gd_neighbors gd0 = Some nbs ∧ nb ∈ nbs ∧
    nb_node_id nb = rec_id ex_row ∧
    (app_step ex_path.1 ex_path.2 ex_node_b (SelectCell (rec_id ex_row))).2 = [] ∧
    a_store (app_step ex_path.1 ex_path.2 ex_node_b (SelectCell (rec_id ex_row))).1 = Some gd ∧
    gd_current gd = Some (nb_point_index nb, nb_node_id nb).
Proof.
  refine (app_table_select HitFilter.Cqacc HitFilter.Csacc ex_path_hits ex_path.1 ex_path.2 ex_node_b
            ex_recs ex_sel ex_row ex_path_tables _ _ _).
  - apply reach_step, reach_init. vm_compute. reflexivity.
  - vm_compute. reflexivity.
  - assert (ex_recs = ex_row :: drop 1 ex_recs) as -> by (vm_compute; reflexivity). left.
Defined.

End App.
